(** * The token-stream relay of the chat server (POST /stream)

    A shallow embedding of the streaming endpoint of the server
    (src/unnamed/part_001, lines 96-280) and of the Message schema
    (src/models/message.js), followed by the properties of the relay:
    line decoding, record interpretation, word-group chunking, the
    order of the channel events and the persistence of the reply. *)

From Stdlib Require Import String Ascii.
From Stdlib Require Import List NArith Arith Bool Lia.
Import ListNotations.

Set Warnings "-register-all".

(* ================================================================= *)
(** * Part I. The embedding *)
(* ================================================================= *)

(* ----------------------------------------------------------------- *)
(** ** JavaScript strings

    A JavaScript string is a sequence of UTF-16 code units; a code unit
    is a number.  [js] turns an ASCII literal into such a string. *)

Definition jschar := N.
Definition jsstring := list jschar.

Definition js (s : string) : jsstring :=
  map N_of_ascii (list_ascii_of_string s).

Definition LF : jschar := 10%N.
Definition CR : jschar := 13%N.
Definition SP : jschar := 32%N.

Definition is_empty (s : jsstring) : bool :=
  match s with [] => true | _ :: _ => false end.

Fixpoint jseqb (a b : jsstring) : bool :=
  match a, b with
  | [], [] => true
  | x :: a', y :: b' => N.eqb x y && jseqb a' b'
  | _, _ => false
  end.

(** The class [\s] of regular expressions, which is also the set of code
    units that [String.prototype.trim] strips: TAB, LF, VT, FF, CR, SPACE,
    NBSP, U+1680, U+2000..U+200A, U+2028, U+2029, U+202F, U+205F, U+3000
    and U+FEFF. *)
Definition is_space (c : jschar) : bool :=
  ((9 <=? c) && (c <=? 13) || (c =? 32) || (c =? 160) || (c =? 5760)
   || (8192 <=? c) && (c <=? 8202) || (c =? 8232) || (c =? 8233)
   || (c =? 8239) || (c =? 8287) || (c =? 12288) || (c =? 65279))%N.

(** [s.trim()] *)
Fixpoint trimStart (s : jsstring) : jsstring :=
  match s with
  | [] => []
  | c :: r => if is_space c then trimStart r else s
  end.

Definition trimEnd (s : jsstring) : jsstring := rev (trimStart (rev s)).

Definition trim (s : jsstring) : jsstring := trimEnd (trimStart s).

(** [l.join(sep)] *)
Fixpoint join (sep : jsstring) (l : list jsstring) : jsstring :=
  match l with
  | [] => []
  | [x] => x
  | x :: r => x ++ sep ++ join sep r
  end.

(** [s.split(c)] for a separator of one code unit.  [cur] is the segment
    being read, last code unit first. *)
Fixpoint split_on_from (sep : jschar) (cur : jsstring) (s : jsstring)
  : list jsstring :=
  match s with
  | [] => [rev cur]
  | c :: r =>
      if N.eqb c sep then rev cur :: split_on_from sep [] r
      else split_on_from sep (c :: cur) r
  end.

Definition split_on (sep : jschar) (s : jsstring) : list jsstring :=
  split_on_from sep [] s.

(* ----------------------------------------------------------------- *)
(** ** Chunk decoder (part_001, lines 191-195)

    [buffer.split(/\r?\n/)]: the pattern matches at the first position
    where a line feed, or a carriage return followed by a line feed,
    starts; so each line feed ends a segment, and one carriage return
    just before it belongs to the separator. *)

Definition strip_cr (cur : jsstring) : jsstring :=
  match cur with
  | c :: cur' => if N.eqb c CR then cur' else cur
  | [] => []
  end.

Fixpoint split_lines_from (cur : jsstring) (s : jsstring) : list jsstring :=
  match s with
  | [] => [rev cur]
  | c :: r =>
      if N.eqb c LF then rev (strip_cr cur) :: split_lines_from [] r
      else split_lines_from (c :: cur) r
  end.

Definition split_lines (s : jsstring) : list jsstring :=
  split_lines_from [] s.

(** One turn of the read loop: [buffer += chunkText;
    parts = buffer.split(/\r?\n/); buffer = parts.pop()].  A chunk is taken
    as its text [chunkText], the one that the streaming [TextDecoder] gives
    for its bytes; the terminators are ASCII, so the records of the text
    are those of the bytes. *)
Definition decode (buffer chunk : jsstring) : list jsstring * jsstring :=
  let parts := split_lines (buffer ++ chunk) in
  (removelast parts, last parts []).

(** The decoder run over the chunks of a body: the records of all the
    calls, in order, and the buffer left after the last one. *)
Fixpoint decode_all (buffer : jsstring) (chunks : list jsstring)
  : list jsstring * jsstring :=
  match chunks with
  | [] => ([], buffer)
  | chunk :: rest =>
      let '(records, buffer') := decode buffer chunk in
      let '(more, final) := decode_all buffer' rest in
      (records ++ more, final)
  end.

(** A line terminator, and a stream laid out as terminated records
    followed by a fragment. *)
Inductive Terminator := BareLF | CRLF.

Definition terminator_text (t : Terminator) : jsstring :=
  match t with BareLF => [LF] | CRLF => [CR; LF] end.

Fixpoint lay_out (records : list (jsstring * Terminator)) (fragment : jsstring)
  : jsstring :=
  match records with
  | [] => fragment
  | (r, t) :: rest => r ++ terminator_text t ++ lay_out rest fragment
  end.

Definition no_LF (s : jsstring) : bool :=
  forallb (fun c => negb (N.eqb c LF)) s.

Definition ends_with_CR (s : jsstring) : bool :=
  match rev s with
  | c :: _ => N.eqb c CR
  | [] => false
  end.

(** A record is free of line feeds; when a bare line feed ends it, its
    own last code unit is not a carriage return (else the two would read
    as the other terminator). *)
Definition well_terminated (rt : jsstring * Terminator) : bool :=
  no_LF (fst rt) &&
  match snd rt with
  | BareLF => negb (ends_with_CR (fst rt))
  | CRLF => true
  end.

(* ----------------------------------------------------------------- *)
(** ** Word-group chunker (part_001, lines 209-221, 225-229, 263-267) *)

(** [s.replace(/\s+/g, ' ')]; [in_run] tells that the code unit before
    was white space. *)
Fixpoint collapse_from (in_run : bool) (s : jsstring) : jsstring :=
  match s with
  | [] => []
  | c :: r =>
      if is_space c
      then (if in_run then collapse_from true r else SP :: collapse_from true r)
      else c :: collapse_from false r
  end.

Definition collapse_ws (s : jsstring) : jsstring := collapse_from false s.

(** [speechBuffer.replace(/\s+/g, ' ').trim().split(' ').filter(Boolean)] *)
Definition words_of (s : jsstring) : list jsstring :=
  filter (fun w => negb (is_empty w)) (split_on SP (trim (collapse_ws s))).

(** The loop [while (words.length >= T) { chunkWords = words.splice(0, T);
    sentenceChunk = chunkWords.join(' '); speechBuffer = words.join(' ');
    write sentenceChunk }].  It gives the chunks written, in order, and the
    speech buffer at its end.  Each turn removes [T] words, so [length words]
    turns are enough when [T] is positive. *)
Fixpoint group_loop (fuel T : nat) (words : list jsstring)
  (speechBuffer : jsstring) : list jsstring * jsstring :=
  match fuel with
  | O => ([], speechBuffer)
  | S fuel' =>
      if T <=? length words then
        let chunkWords := firstn T words in
        let words' := skipn T words in
        let sentenceChunk := join [SP] chunkWords in
        let '(out, sb) := group_loop fuel' T words' (join [SP] words') in
        (sentenceChunk :: out, sb)
      else ([], speechBuffer)
  end.

(** [speechBuffer += text], then the words and the loop. *)
Definition absorb (T : nat) (speechBuffer text : jsstring)
  : list jsstring * jsstring :=
  let speechBuffer := speechBuffer ++ text in
  let words := words_of speechBuffer in
  group_loop (length words) T words speechBuffer.

(** [leftover = (speechBuffer || '').trim();
    if (leftover) { write leftover; speechBuffer = '' }] *)
Definition flush (speechBuffer : jsstring) : option jsstring * jsstring :=
  let leftover := trim speechBuffer in
  if is_empty leftover then (None, speechBuffer) else (Some leftover, []).

Definition WORDS_THRESHOLD : nat := 8.

(** The chunker over the texts of the tokens that the read loop handles,
    one after the other: the groups written and the speech buffer left. *)
Fixpoint absorb_all (T : nat) (speechBuffer : jsstring) (texts : list jsstring)
  : list jsstring * jsstring :=
  match texts with
  | [] => ([], speechBuffer)
  | text :: rest =>
      let '(groups, sb) := absorb T speechBuffer text in
      let '(more, final) := absorb_all T sb rest in
      (groups ++ more, final)
  end.

(** The chunker over a session: [texts] are the tokens of the records
    that the read loop handles; [trailing] is the token of the fragment
    left in the buffer when the body ends, if there is one: it is appended
    to the speech buffer and the loop of the groups is not run (lines
    244-253); then comes the final flush. *)
Definition chunker_run (T : nat) (texts : list jsstring)
  (trailing : option jsstring) : list jsstring * option jsstring :=
  let '(groups, sb) := absorb_all T [] texts in
  let sb := match trailing with Some text => sb ++ text | None => sb end in
  (groups, fst (flush sb)).

Definition flush_groups (g : option jsstring) : list jsstring :=
  match g with Some x => [x] | None => [] end.




(** Tokens that cut the words "one two three four five", aligned on the
    groups of two words. *)
Definition cut_words : list jsstring :=
  [js "on"; js "e"; js " two"; js " thr"; js "ee"; js " four"; js " five "].

(** The words of a text read in one pass: maximal runs of code units that
    are not separators.  [acc] is the word being read, last code unit
    first. *)
Definition close_word (acc : jsstring) : list jsstring :=
  if is_empty acc then [] else [rev acc].

Fixpoint scan_words (sep : jschar -> bool) (acc s : jsstring)
  : list jsstring :=
  match s with
  | [] => close_word acc
  | c :: r =>
      if sep c then close_word acc ++ scan_words sep [] r
      else scan_words sep (c :: acc) r
  end.

(** After [replace(/\s+/g, ' ')] the only white space left is the space. *)
Definition only_SP (s : jsstring) : Prop :=
  Forall (fun c => is_space c = true -> c = SP) s.

(** A word: not empty, and without white space. *)
Definition is_word (w : jsstring) : bool :=
  negb (is_empty w) && forallb (fun c => negb (is_space c)) w.

(* ----------------------------------------------------------------- *)
(** ** Parsed records

    What [JSON.parse] returns.  A number is kept by the two things the
    handler observes of it: its image under ToString and whether it is
    non-zero. *)

Inductive JSON :=
| JNull
| JBool (b : bool)
| JNum (repr : jsstring) (nonzero : bool)
| JStr (s : jsstring)
| JArr (items : list JSON)
| JObj (fields : list (jsstring * JSON)).

(** An exception, by its [message]. *)
Definition Exn := jsstring.

(** [parsed.key]: [null] has no properties and reading one throws; a key
    given twice keeps its last value; every other value answers
    [undefined], here [None]. *)
Definition lookup_last (key : jsstring) (fields : list (jsstring * JSON))
  : option JSON :=
  fold_left (fun acc kv => if jseqb key (fst kv) then Some (snd kv) else acc)
            fields None.

Definition get_prop (parsed : JSON) (key : jsstring)
  : Exn + option JSON :=
  match parsed with
  | JNull => inl (js "Cannot read properties of null")
  | JObj fields => inr (lookup_last key fields)
  | _ => inr None
  end.

(** Truthiness, as [if (parsed.response)] tests it. *)
Definition truthy (v : JSON) : bool :=
  match v with
  | JNull => false
  | JBool b => b
  | JNum _ nonzero => nonzero
  | JStr s => negb (is_empty s)
  | JArr _ | JObj _ => true
  end.

(** The string that [fullReply += parsed.response] appends. *)
Fixpoint ToString (v : JSON) : jsstring :=
  match v with
  | JNull => js "null"
  | JBool true => js "true"
  | JBool false => js "false"
  | JNum repr _ => repr
  | JStr s => s
  | JArr items =>
      join (js ",")
           (map (fun x => match x with JNull => [] | _ => ToString x end) items)
  | JObj _ => js "[object Object]"
  end.

(* ----------------------------------------------------------------- *)
(** ** The cache of locations (part_001, lines 30-65) *)

From Stdlib Require Import ZArith.

(** What is remembered of a location; [timezone] and [city] are whatever
    truthy value the services gave, or the default string. *)
Record LocData := {
  weatherText : jsstring;
  timezone : JSON;
  city : JSON;
  lastUpdated : Z
}.

(** [locationCache], a [Map] from keys to such records: the entries in
    the order of their first insertion, one for each key. *)
Definition LocationCache := list (jsstring * LocData).

Definition cache_get (key : jsstring) (c : LocationCache) : option LocData :=
  match find (fun kv => jseqb key (fst kv)) c with
  | Some kv => Some (snd kv)
  | None => None
  end.

Definition cache_has (key : jsstring) (c : LocationCache) : bool :=
  match cache_get key c with Some _ => true | None => false end.

Definition cache_set (key : jsstring) (v : LocData) (c : LocationCache)
  : LocationCache :=
  if cache_has key c
  then map (fun kv => if jseqb key (fst kv) then (key, v) else kv) c
  else c ++ [(key, v)].

(** [v || d] *)
Definition or_else (v : option JSON) (d : JSON) : JSON :=
  match v with
  | Some x => if truthy x then x else d
  | None => d
  end.

(** [a?.key] *)
Definition opt_chain (a : option JSON) (key : jsstring) : option JSON :=
  match a with
  | None | Some JNull => None
  | Some x => match get_prop x key with inr v => v | inl _ => None end
  end.

(** Whether a value can be turned into a string.  An object that was
    parsed with a member named "toString" hides the inherited method by a
    value that cannot be called, and its conversion throws a TypeError; so
    does the conversion of an array that holds such an object. *)
Fixpoint prints (v : JSON) : bool :=
  match v with
  | JObj fields =>
      negb (existsb (fun kv => jseqb (fst kv) (js "toString")) fields)
  | JArr items => forallb prints items
  | _ => true
  end.

Definition NOT_PRIMITIVE : Exn := js "Cannot convert object to primitive value".

(** [`${v}`] *)
Definition to_string (v : JSON) : Exn + jsstring :=
  if prints v then inr (ToString v) else inl NOT_PRIMITIVE.

(** The property key that a value names: [weatherMap[weathercode]]. *)
Definition property_key (v : option JSON) : Exn + jsstring :=
  match v with
  | Some x => to_string x
  | None => inr (js "undefined")
  end.

(** The own keys of [weatherMap] (line 48). *)
Definition weatherMap (key : jsstring) : option jsstring :=
  if jseqb key (js "0") then Some (js "Clear")
  else if jseqb key (js "1") then Some (js "Mainly clear")
  else if jseqb key (js "2") then Some (js "Partly cloudy")
  else if jseqb key (js "3") then Some (js "Overcast")
  else if jseqb key (js "45") then Some (js "Fog")
  else if jseqb key (js "61") then Some (js "Rain")
  else if jseqb key (js "80") then Some (js "Showers")
  else None.

(** The names that every object inherits from [Object.prototype]; looked
    up in [weatherMap] they give a truthy member, whose text is left to the
    engine. *)
Definition inherited_names : list jsstring :=
  map js ["constructor"; "__proto__"; "hasOwnProperty"; "isPrototypeOf";
          "propertyIsEnumerable"; "toLocaleString"; "toString"; "valueOf";
          "__defineGetter__"; "__defineSetter__"; "__lookupGetter__";
          "__lookupSetter__"]%string.

(** What a call does, in order: the requests to the two services, the
    write of the cache ([locationCache.set(key, result)], line 59) and the
    entry of the log ([console.error('getWeatherTimeCity error', e)],
    line 62). *)
Inductive Lookup :=
| AskedWeather
| AskedCity
| CacheSet (key : jsstring) (result : LocData)
| LookupFailed.

Section Weather.

(** The text that the engine prints for an inherited member. *)
Variable native_text : jsstring -> jsstring.

(** [weatherMap[weathercode] || 'Unknown'], as printed in the template. *)
Definition describe_weather (weathercode : option JSON) : Exn + jsstring :=
  match property_key weathercode with
  | inl e => inl e
  | inr key =>
      match weatherMap key with
      | Some s => inr s
      | None =>
          if existsb (jseqb key) inherited_names then inr (native_text key)
          else inr (js "Unknown")
      end
  end.

(** Lines 47-49.  The two code units after the temperature are those of
    the source file, U+00AC and U+221E. *)
Definition read_weather (weatherData : JSON) : Exn + jsstring :=
  match get_prop weatherData (js "current_weather") with
  | inl e => inl e
  | inr current_weather =>
      let source := or_else current_weather (JObj []) in
      match get_prop source (js "temperature"),
            get_prop source (js "weathercode") with
      | inr (Some temperature), inr weathercode =>
          match to_string temperature, describe_weather weathercode with
          | inr degrees, inr sky =>
              inr (js "Temp: " ++ degrees ++ [172%N; 8734%N]
                   ++ js "C, " ++ sky)
          | inl e, _ | _, inl e => inl e
          end
      | inr None, _ => inr []
      | inl e, _ | _, inl e => inl e
      end
  end.

(** Line 54. *)
Definition read_city (geoData : JSON) : Exn + JSON :=
  match get_prop geoData (js "address") with
  | inl e => inl e
  | inr address =>
      inr (or_else (opt_chain address (js "city"))
             (or_else (opt_chain address (js "town"))
                (or_else (opt_chain address (js "state"))
                   (JStr (js "Unknown")))))
  end.

(** Line 56; [weatherData] is not [null] there. *)
Definition read_timezone (weatherData : JSON) : JSON :=
  match get_prop weatherData (js "timezone") with
  | inr v => or_else v (JStr (js "UTC"))
  | inl _ => JStr (js "UTC")
  end.

(** Line 63: what the [catch] returns. *)
Definition no_location (now : Z) : LocData :=
  {| weatherText := []; timezone := JStr (js "UTC");
     city := JStr (js "Unknown"); lastUpdated := now |}.

Definition location_key (lat lon : JSON) : jsstring :=
  ToString lat ++ js "," ++ ToString lon.

(** Lines 43-64: the two requests and the reading of their answers.
    [weather] and [geo] are the answers parsed, [None] when the request or
    its [json()] throws.  Every failure is caught, logged and answered by
    the default record. *)
Definition fetch_location (now : Z) (weather geo : option JSON)
  (key : jsstring) (locationCache : LocationCache)
  : LocData * LocationCache * list Lookup :=
  match weather with
  | None => (no_location now, locationCache, [AskedWeather; LookupFailed])
  | Some weatherData =>
      match read_weather weatherData with
      | inl _ => (no_location now, locationCache, [AskedWeather; LookupFailed])
      | inr weatherText =>
          match geo with
          | None =>
              (no_location now, locationCache,
               [AskedWeather; AskedCity; LookupFailed])
          | Some geoData =>
              match read_city geoData with
              | inl _ =>
                  (no_location now, locationCache,
                   [AskedWeather; AskedCity; LookupFailed])
              | inr city =>
                  let result :=
                    {| weatherText := weatherText;
                       timezone := read_timezone weatherData;
                       city := city; lastUpdated := now |} in
                  (result, cache_set key result locationCache,
                   [AskedWeather; AskedCity; CacheSet key result])
              end
          end
      end
  end.

Definition returned (r : LocData * LocationCache * list Lookup)
  : (Exn + LocData) * LocationCache * list Lookup :=
  let '(result, locationCache, asks) := r in (inr result, locationCache, asks).

(** [getWeatherTimeCity(lat, lon)], at the time [now]: the record returned
    or the exception thrown, the cache after the call and what the call
    did.  The key is built before the [try]: a coordinate that cannot be
    turned into a string makes the call throw. *)
Definition getWeatherTimeCity (now : Z) (weather geo : option JSON)
  (locationCache : LocationCache) (lat lon : JSON)
  : (Exn + LocData) * LocationCache * list Lookup :=
  match to_string lat, to_string lon with
  | inr _, inr _ =>
      let key := location_key lat lon in
      match cache_get key locationCache with
      | Some cached =>
          if (now - lastUpdated cached <? 5 * 60 * 1000)%Z
          then (inr cached, locationCache, [])
          else returned (fetch_location now weather geo key locationCache)
      | None => returned (fetch_location now weather geo key locationCache)
      end
  | inl e, _ | _, inl e => (inl e, locationCache, [])
  end.

End Weather.

(** Whether a record kept under the key is still fresh at [now]. *)
Definition fresh (now : Z) (key : jsstring) (c : LocationCache) : bool :=
  match cache_get key c with
  | Some cached => (now - lastUpdated cached <? 5 * 60 * 1000)%Z
  | None => false
  end.

Definition unique_keys (c : LocationCache) : Prop := NoDup (map fst c).

Definition COMMA : jschar := 44%N.

(** Answers of the two services, for concrete lookups. *)
Definition weather_answer (temperature weathercode zone : string) : JSON :=
  JObj [(js "current_weather",
         JObj [(js "temperature", JNum (js temperature) true);
               (js "weathercode", JNum (js weathercode) true)]);
        (js "timezone", JStr (js zone))].

Definition city_answer (name : string) : JSON :=
  JObj [(js "address", JObj [(js "city", JStr (js name))])].

Definition coordinate (s : string) : JSON := JNum (js s) true.

(* ----------------------------------------------------------------- *)
(** ** The speech locale of a language code (part_001, lines 68-71) *)

(** What [map[code] || 'en-US'] gives: a locale, from the table or the
    default; or, for a code that names a member that every object inherits
    from [Object.prototype], that member, which is truthy and is not a
    string (a function, and for "__proto__" the prototype itself). *)
Inductive SpeechLang :=
| Locale (locale : jsstring)
| Inherited (name : jsstring).

Definition francToSpeechLang (code : jsstring) : SpeechLang :=
  if jseqb code (js "eng") then Locale (js "en-US")
  else if jseqb code (js "hin") then Locale (js "hi-IN")
  else if jseqb code (js "tam") then Locale (js "ta-IN")
  else if jseqb code (js "tel") then Locale (js "te-IN")
  else if jseqb code (js "kn") then Locale (js "kn-IN")
  else if jseqb code (js "fra") then Locale (js "fr-FR")
  else if jseqb code (js "spa") then Locale (js "es-ES")
  else if existsb (jseqb code) inherited_names then Inherited code
  else Locale (js "en-US").

(** The [language] member that [JSON.stringify] writes for it: the
    locale; nothing for a function; an empty object for the prototype. *)
Definition written_language (l : SpeechLang) : option JSON :=
  match l with
  | Locale locale => Some (JStr locale)
  | Inherited name =>
      if jseqb name (js "__proto__") then Some (JObj []) else None
  end.

(* ----------------------------------------------------------------- *)
(** ** Events, messages and the trace of a session *)

(** The events of the output channel: the object that each
    [res.write(`data: ${JSON.stringify(...)}\n\n`)] serialises. *)
Inductive Event :=
| EvToken (token : JSON) (language : SpeechLang)
| EvSentencePartial (sentence_partial : jsstring) (language : SpeechLang)
| EvDone
| EvError (error : jsstring).

Definition is_terminal (ev : Event) : bool :=
  match ev with EvDone | EvError _ => true | _ => false end.

Inductive Role := User | Assistant.

(** The document given to [Message.create] ([createdAt] left out). *)
Record Message := {
  text : jsstring;
  role : Role;
  language : jsstring
}.

(** What a session does to the world, in the order it does it. *)
Inductive Effect :=
| Wrote (ev : Event)            (* res.write returned *)
| WriteThrew (ev : Event)       (* res.write threw *)
| Created (m : Message)         (* Message.create resolved *)
| CreateRejected (m : Message)  (* Message.create rejected *)
| Looked (l : Lookup)           (* a step of getWeatherTimeCity *)
| Logged (label value : jsstring) (* console.log(label, value) *)
| Fetched                       (* the request to the backend was sent *)
| Warned (line : jsstring)      (* console.warn('Failed to parse line ...') *)
| LoggedError (e : Exn)         (* console.error('/stream error', err) *)
| Ended.                        (* res.end() *)

Definition Trace := list Effect.

(** The collaborators of a session.  [JSON_parse] answers [None] when the
    parser throws, [franc] when the detector throws; [res_write_throws],
    [Message_create_rejects] and [context_throws] (the two finds of lines
    127-130) tell, from what has happened so far, whether a call throws.
    For the lookup of the location: the cache as it is when the session
    calls [getWeatherTimeCity], the time, what the two services answer
    ([None] when a request or its [json()] throws) and the text that the
    engine prints for an inherited member.  [Intl_format_throws] tells
    whether [Intl.DateTimeFormat] refuses the time zone; [OLLAMA_HOST] and
    [OLLAMA_MODEL] are the variables of the environment. *)
Record Env := {
  JSON_parse : jsstring -> option JSON;
  franc : jsstring -> option jsstring;
  res_write_throws : Trace -> Event -> option Exn;
  Message_create_rejects : Trace -> Message -> option Exn;
  context_throws : Trace -> option Exn;
  locationCache : LocationCache;
  Date_now : Z;
  weather_service : option JSON;
  city_service : option JSON;
  member_text : jsstring -> jsstring;
  Intl_format_throws : JSON -> option Exn;
  OLLAMA_HOST : option jsstring;
  OLLAMA_MODEL : option jsstring
}.

(** The body of the request, as the parser of the server gives it:
    each member is absent or a value of JSON. *)
Record Request := {
  prompt : option JSON;
  location : option JSON;
  langOverride : option JSON
}.

(** What [fetch] on the backend gives: it throws, or it gives a response
    with its [ok] flag, its status line
    ([`${response.status} ${response.statusText}`]), the chunks of its body
    as decoded text, and the failure, if any, that ends the reading of the
    body. *)
Inductive FetchResult :=
| FetchThrows (e : Exn)
| FetchResponse (ok : bool) (status : jsstring) (chunks : list jsstring)
                (io_error : option Exn).

(* ----------------------------------------------------------------- *)
(** ** The monad of the handler

    The variables [buffer], [fullReply] and [speechBuffer] and the trace
    are threaded through; a computation ends normally, by the handler's
    [return], or by a thrown exception. *)

Record World := {
  buffer : jsstring;
  fullReply : jsstring;
  speechBuffer : jsstring;
  trace : Trace
}.

Inductive Outcome (A : Type) :=
| Normal (a : A)
| Returned
| Thrown (e : Exn).

Arguments Normal {A} a.
Arguments Returned {A}.
Arguments Thrown {A} e.

Definition M (A : Type) := World -> Outcome A * World.

Definition ret {A} (a : A) : M A := fun w => (Normal a, w).

Definition bind {A B} (m : M A) (k : A -> M B) : M B :=
  fun w =>
    match m w with
    | (Normal a, w') => k a w'
    | (Returned, w') => (Returned, w')
    | (Thrown e, w') => (Thrown e, w')
    end.

Declare Scope js_scope.
Delimit Scope js_scope with js.
Notation "x <- c1 ;; c2" := (bind c1 (fun x => c2))
  (at level 61, c1 at next level, right associativity) : js_scope.
Notation "c1 ;; c2" := (bind c1 (fun _ => c2))
  (at level 61, right associativity) : js_scope.
Open Scope js_scope.

Definition throw {A} (e : Exn) : M A := fun w => (Thrown e, w).

Definition return_ {A} : M A := fun w => (Returned, w).

(** [try { m } catch (e) { handler e }] *)
Definition try_catch {A} (m : M A) (handler : Exn -> M A) : M A :=
  fun w =>
    match m w with
    | (Thrown e, w') => handler e w'
    | r => r
    end.

Fixpoint for_each {A} (l : list A) (body : A -> M unit) : M unit :=
  match l with
  | [] => ret tt
  | x :: rest => body x ;; for_each rest body
  end.

Definition record (e : Effect) (w : World) : World :=
  {| buffer := buffer w; fullReply := fullReply w;
     speechBuffer := speechBuffer w; trace := trace w ++ [e] |}.

Definition effect (e : Effect) : M unit := fun w => (Normal tt, record e w).

(** Several effects, one after the other. *)
Definition extend (es : Trace) (w : World) : World :=
  {| buffer := buffer w; fullReply := fullReply w;
     speechBuffer := speechBuffer w; trace := trace w ++ es |}.

Definition get_buffer : M jsstring := fun w => (Normal (buffer w), w).
Definition get_fullReply : M jsstring := fun w => (Normal (fullReply w), w).
Definition get_speechBuffer : M jsstring :=
  fun w => (Normal (speechBuffer w), w).

Definition set_buffer (b : jsstring) : M unit :=
  fun w => (Normal tt, {| buffer := b; fullReply := fullReply w;
                          speechBuffer := speechBuffer w; trace := trace w |}).
Definition set_fullReply (r : jsstring) : M unit :=
  fun w => (Normal tt, {| buffer := buffer w; fullReply := r;
                          speechBuffer := speechBuffer w; trace := trace w |}).
Definition set_speechBuffer (s : jsstring) : M unit :=
  fun w => (Normal tt, {| buffer := buffer w; fullReply := fullReply w;
                          speechBuffer := s; trace := trace w |}).

Definition init : World :=
  {| buffer := []; fullReply := []; speechBuffer := []; trace := [] |}.

(* ----------------------------------------------------------------- *)
(** ** The handler of POST /stream (part_001, lines 96-280) *)

(** [userText?.trim()] (line 105): undefined for a prompt that is
    missing or null; for a value that is not a string, which has no [trim],
    the call throws a TypeError. *)
Definition NOT_A_FUNCTION : Exn := js "userText?.trim is not a function".

Definition prompt_trim (req : Request) : Exn + option jsstring :=
  match prompt req with
  | None | Some JNull => inr None
  | Some (JStr userText) => inr (Some (trim userText))
  | Some _ => inl NOT_A_FUNCTION
  end.

(** [!userText?.trim()], when the call returns. *)
Definition blank_prompt (req : Request) : bool :=
  match prompt_trim req with
  | inr None => true
  | inr (Some trimmed) => is_empty trimmed
  | inl _ => false
  end.

(** [userText.trim()] (line 111) *)
Definition trimmed_prompt (req : Request) : jsstring :=
  match prompt_trim req with
  | inr (Some trimmed) => trimmed
  | _ => []
  end.

(** [a || d] for a variable of the environment. *)
Definition env_or (v : option jsstring) (d : jsstring) : jsstring :=
  match v with
  | Some x => if is_empty x then d else x
  | None => d
  end.

(** What the handler knows of the place of the user before it asks
    (line 133). *)
Definition nowhere : jsstring * JSON * JSON :=
  ([], JStr (js "UTC"), JStr (js "Unknown")).

Section Handler.

Variable env : Env.

(** [res.write(...)] *)
Definition res_write (ev : Event) : M unit :=
  fun w =>
    match res_write_throws env (trace w) ev with
    | None => (Normal tt, record (Wrote ev) w)
    | Some e => (Thrown e, record (WriteThrew ev) w)
    end.

(** [try { res.write(...) } catch (e) {}] *)
Definition try_write (ev : Event) : M unit :=
  try_catch (res_write ev) (fun _ => ret tt).

Definition res_end : M unit := effect Ended.

(** [await Message.create(doc)]; the schema has [text] required, which
    for a string means non-empty (models/message.js). *)
Definition Message_create (doc : Message) : M unit :=
  fun w =>
    if is_empty (text doc)
    then (Thrown (js "Message validation failed: text: Path `text` is required."),
          record (CreateRejected doc) w)
    else
      match Message_create_rejects env (trace w) doc with
      | None => (Normal tt, record (Created doc) w)
      | Some e => (Thrown e, record (CreateRejected doc) w)
      end.

(** Lines 114-120: the value of [langCode].  The override of a request
    is used when it is a string, neither empty nor "auto". *)
Definition detect_language (req : Request) : jsstring :=
  let detected :=
    match franc env (trimmed_prompt req) with
    | Some code => if is_empty code then js "eng" else code
    | None => js "eng"
    end in
  match langOverride req with
  | Some (JStr o) =>
      if negb (is_empty o) && negb (jseqb o (js "auto"))
      then hd [] (split_on 45%N o)
      else detected
  | _ => detected
  end.

(** Line 120: on an override that is truthy and not a string,
    [langOverride.split] is not a function and the call throws. *)
Definition override_throws (req : Request) : bool :=
  match langOverride req with
  | Some (JStr _) | None => false
  | Some v => truthy v
  end.

Definition language_code (req : Request) : M jsstring :=
  if override_throws req
  then throw (js "langOverride.split is not a function")
  else ret (detect_language req).

(** Lines 127-130: [Message.find] and [Memory.find]. *)
Definition find_context : M unit :=
  fun w =>
    match context_throws env (trace w) with
    | None => (Normal tt, w)
    | Some e => (Thrown e, w)
    end.

(** Lines 133-139: the weather text, the time zone and the city, from
    [getWeatherTimeCity] when [location?.lat && location?.lon]. *)
Definition locate (req : Request) : M (jsstring * JSON * JSON) :=
  match opt_chain (location req) (js "lat"),
        opt_chain (location req) (js "lon") with
  | Some lat, Some lon =>
      if truthy lat && truthy lon then
        fun w =>
          let '(r, _, steps) :=
            getWeatherTimeCity (member_text env) (Date_now env)
              (weather_service env) (city_service env) (locationCache env)
              lat lon in
          let w' := extend (map Looked steps) w in
          match r with
          | inr locData =>
              (Normal (weatherText locData, timezone locData, city locData),
               w')
          | inl e => (Thrown e, w')
          end
      else ret nowhere
  | _, _ => ret nowhere
  end.

(** Lines 141-150: the local time and date in the time zone, and the
    prompt of the system, whose template prints the city. *)
Definition format_prompt (place : jsstring * JSON * JSON) : M unit :=
  let '(_, timezone, city) := place in
  match Intl_format_throws env timezone with
  | Some e => throw e
  | None =>
      match to_string city with
      | inl e => throw e
      | inr _ => ret tt
      end
  end.

(** Lines 126-159: what is read and written before the request. *)
Definition build_context (req : Request) : M unit :=
  find_context ;;
  place <- locate req ;;
  format_prompt place ;;
  let ollamaHost := env_or (OLLAMA_HOST env) (js "http://localhost:11434") in
  let model := env_or (OLLAMA_MODEL env) (js "llama2:7b-chat") in
  let requestUrl := ollamaHost ++ js "/api/generate" in
  effect (Logged (js "OLLAMA requestUrl=") requestUrl) ;;
  effect (Logged (js "OLLAMA model=") model).

(** [await response.text().catch(() => '<no-body>')] (line 176): the
    whole body, unless its reading fails. *)
Definition body_text (chunks : list jsstring) (io_error : option Exn)
  : jsstring :=
  match io_error with
  | None => concat chunks
  | Some _ => js "<no-body>"
  end.

(** Lines 168-178: the request, and the check of [response.ok]. *)
Definition fetch_backend (backend : FetchResult)
  : M (list jsstring * option Exn) :=
  effect Fetched ;;
  match backend with
  | FetchThrows e => throw e
  | FetchResponse ok status chunks io_error =>
      if ok then ret (chunks, io_error)
      else throw (js "Ollama API error: " ++ status ++ js " - "
                  ++ body_text chunks io_error)
  end.

(** [fullReply += parsed.response]: the string of the value, or the
    TypeError of a value that has none. *)
Definition primitive (v : JSON) : M jsstring :=
  match to_string v with
  | inr text => ret text
  | inl e => throw e
  end.

(** Lines 209-221: the words of the speech buffer and the groups. *)
Definition absorb_speech (speechLang : SpeechLang) (text : jsstring)
  : M unit :=
  sb <- get_speechBuffer ;;
  let '(groups, sb') := absorb WORDS_THRESHOLD sb text in
  set_speechBuffer sb' ;;
  for_each groups (fun g => try_write (EvSentencePartial g speechLang)).

(** Lines 225-229 and 263-267. *)
Definition flush_speech (speechLang : SpeechLang) : M unit :=
  sb <- get_speechBuffer ;;
  match flush sb with
  | (Some leftover, sb') =>
      try_write (EvSentencePartial leftover speechLang) ;;
      set_speechBuffer sb'
  | (None, _) => ret tt
  end.

Definition read_prop (parsed : JSON) (key : jsstring) : M (option JSON) :=
  match get_prop parsed key with
  | inl e => throw e
  | inr v => ret v
  end.

Definition is_truthy (v : option JSON) : bool :=
  match v with Some x => truthy x | None => false end.

(** Lines 202-222: [if (parsed.response) { ... }]. *)
Definition on_response (speechLang : SpeechLang) (response : option JSON)
  : M unit :=
  match response with
  | Some token =>
      if truthy token then
        res_write (EvToken token speechLang) ;;
        r <- get_fullReply ;;
        text <- primitive token ;;
        set_fullReply (r ++ text) ;;
        absorb_speech speechLang text
      else ret tt
  | None => ret tt
  end.

(** Lines 223-235: [if (parsed.done) { ... return res.end(); }]. *)
Definition on_done (langCode : jsstring) (speechLang : SpeechLang)
  (done : option JSON) : M unit :=
  if is_truthy done then
    flush_speech speechLang ;;
    r <- get_fullReply ;;
    Message_create {| text := r; role := Assistant; language := langCode |} ;;
    res_write EvDone ;;
    res_end ;;
    return_
  else ret tt.

(** Lines 197-239: one part of the split buffer. *)
Definition handle_part (langCode : jsstring) (speechLang : SpeechLang)
  (part : jsstring) : M unit :=
  let line := trim part in
  if is_empty line then ret tt
  else
    try_catch
      (match JSON_parse env line with
       | None => throw (js "Unexpected token in JSON")
       | Some parsed =>
           response <- read_prop parsed (js "response") ;;
           on_response speechLang response ;;
           done <- read_prop parsed (js "done") ;;
           on_done langCode speechLang done
       end)
      (fun _ => effect (Warned line)).

(** Lines 189-241: one chunk of the body. *)
Definition handle_chunk (langCode : jsstring) (speechLang : SpeechLang)
  (chunkText : jsstring) : M unit :=
  b <- get_buffer ;;
  let '(parts, b') := decode b chunkText in
  set_buffer b' ;;
  for_each parts (handle_part langCode speechLang).

(** Lines 244-260: the text left in the buffer when the body ends.  The
    token is appended to the speech buffer as it is: the loop of the word
    groups is not run here. *)
Definition trailing_fragment (speechLang : SpeechLang) : M unit :=
  b <- get_buffer ;;
  if is_empty b then ret tt
  else
    try_catch
      (match JSON_parse env b with
       | None => throw (js "Unexpected token in JSON")
       | Some parsed =>
           response <- read_prop parsed (js "response") ;;
           match response with
           | Some token =>
               if truthy token then
                 res_write (EvToken token speechLang) ;;
                 r <- get_fullReply ;;
                 text <- primitive token ;;
                 set_fullReply (r ++ text) ;;
                 sb <- get_speechBuffer ;;
                 set_speechBuffer (sb ++ text)
               else ret tt
           | None => ret tt
           end ;;
           _ <- read_prop parsed (js "done") ;;
           ret tt
       end)
      (fun _ => ret tt).

(** Lines 243-273: after the read loop. *)
Definition end_of_stream (langCode : jsstring) (speechLang : SpeechLang)
  : M unit :=
  trailing_fragment speechLang ;;
  flush_speech speechLang ;;
  r <- get_fullReply ;;
  (if is_empty r then ret tt
   else Message_create {| text := r; role := Assistant;
                          language := langCode |}) ;;
  res_end.

(** Lines 189-241: [for await (const chunk of response.body)]. *)
Definition read_body (langCode : jsstring) (speechLang : SpeechLang)
  (chunks : list jsstring) (io_error : option Exn) : M unit :=
  for_each chunks (handle_chunk langCode speechLang) ;;
  match io_error with
  | Some e => throw e
  | None => ret tt
  end.

(** Lines 110-273: the body of the [try]. *)
Definition stream_try (req : Request) (backend : FetchResult) : M unit :=
  let trimmed := trimmed_prompt req in
  langCode <- language_code req ;;
  let speechLang := francToSpeechLang langCode in
  Message_create {| text := trimmed; role := User; language := langCode |} ;;
  build_context req ;;
  body <- fetch_backend backend ;;
  read_body langCode speechLang (fst body) (snd body) ;;
  end_of_stream langCode speechLang.

(** Lines 275-279: the [catch]. *)
Definition stream_catch (err : Exn) : M unit :=
  effect (LoggedError err) ;;
  res_write (EvError (if is_empty err then js "Unknown error" else err)) ;;
  res_end.

(** Lines 104-108: the guard of the prompt, outside the [try]. *)
Definition guard_prompt (req : Request) : M unit :=
  match prompt_trim req with
  | inl e => throw e
  | inr _ =>
      if blank_prompt req
      then res_write (EvError (js "Empty prompt")) ;; res_end ;; return_
      else ret tt
  end.

(** Lines 96-280. *)
Definition stream (req : Request) (backend : FetchResult) : M unit :=
  guard_prompt req ;;
  try_catch (stream_try req backend) stream_catch.

(** A session: the handler run from the initial state. *)
Definition session (req : Request) (backend : FetchResult)
  : Outcome unit * World :=
  stream req backend init.

Definition session_trace (req : Request) (backend : FetchResult) : Trace :=
  trace (snd (session req backend)).

End Handler.

(* ----------------------------------------------------------------- *)
(** ** A parser and collaborators for concrete sessions

    [parse_frame] reads the frames the backend sends: an object, without
    white space, whose values are strings without escapes, [true], [false]
    or [null].  On such a frame it answers what [JSON.parse] answers, and
    the malformed lines of the sessions below are malformed for both. *)

Fixpoint strip_prefix (p s : jsstring) : option jsstring :=
  match p, s with
  | [], _ => Some s
  | x :: p', y :: s' => if N.eqb x y then strip_prefix p' s' else None
  | _ :: _, [] => None
  end.

(** The text after an opening quote, up to the closing one. *)
Fixpoint read_string (acc s : jsstring) : option (jsstring * jsstring) :=
  match s with
  | [] => None
  | c :: r =>
      if N.eqb c 34 then Some (rev acc, r)
      else if N.eqb c 92 || N.ltb c 32 then None
      else read_string (c :: acc) r
  end.

Definition read_value (s : jsstring) : option (JSON * jsstring) :=
  match s with
  | [] => None
  | c :: r =>
      if N.eqb c 34 then
        match read_string [] r with
        | Some (str, r') => Some (JStr str, r')
        | None => None
        end
      else
        match strip_prefix (js "true") s with
        | Some r' => Some (JBool true, r')
        | None =>
            match strip_prefix (js "false") s with
            | Some r' => Some (JBool false, r')
            | None =>
                match strip_prefix (js "null") s with
                | Some r' => Some (JNull, r')
                | None => None
                end
            end
        end
  end.

Fixpoint read_members (fuel : nat) (acc : list (jsstring * JSON))
  (s : jsstring) : option (list (jsstring * JSON)) :=
  match fuel with
  | O => None
  | S fuel' =>
      match strip_prefix [34%N] s with
      | None => None
      | Some r =>
          match read_string [] r with
          | None => None
          | Some (key, r1) =>
              match strip_prefix (js ":") r1 with
              | None => None
              | Some r2 =>
                  match read_value r2 with
                  | None => None
                  | Some (v, r3) =>
                      let acc' := acc ++ [(key, v)] in
                      match r3 with
                      | [c] => if N.eqb c 125 then Some acc' else None
                      | c :: r4 =>
                          if N.eqb c 44 then read_members fuel' acc' r4
                          else None
                      | [] => None
                      end
                  end
              end
          end
      end
  end.

Definition parse_frame (s : jsstring) : option JSON :=
  match strip_prefix (js "{") s with
  | None => None
  | Some r =>
      if jseqb r (js "}") then Some (JObj [])
      else
        match read_members (length r) [] r with
        | Some fields => Some (JObj fields)
        | None => None
        end
  end.

(** Collaborators that never fail, with a channel whose writes throw as
    [throws] tells; the cache is empty, the services are down and the
    variables of the environment are not set. *)
Definition channel_env (throws : Trace -> Event -> option Exn) : Env := {|
  JSON_parse := parse_frame;
  franc := fun _ => Some (js "eng");
  res_write_throws := throws;
  Message_create_rejects := fun _ _ => None;
  context_throws := fun _ => None;
  locationCache := [];
  Date_now := 0%Z;
  weather_service := None;
  city_service := None;
  member_text := fun name => name;
  Intl_format_throws := fun _ => None;
  OLLAMA_HOST := None;
  OLLAMA_MODEL := None
|}.

Definition quiet : Env := channel_env (fun _ _ => None).

Definition ask (s : string) : Request :=
  {| prompt := Some (JStr (js s)); location := None; langOverride := None |}.

(** The two lines that the handler logs before the request, when the
    variables of the environment are not set (lines 158-159). *)
Definition announced : Trace :=
  [Logged (js "OLLAMA requestUrl=") (js "http://localhost:11434/api/generate");
   Logged (js "OLLAMA model=") (js "llama2:7b-chat")].

Definition ok_body (chunks : list jsstring) : FetchResult :=
  FetchResponse true (js "200 OK") chunks None.

(** The frames of the backend, written out. *)
Definition quoted (s : string) : jsstring := [34%N] ++ js s ++ [34%N].

Definition response_frame (t : string) : jsstring :=
  js "{" ++ quoted "response" ++ js ":" ++ quoted t ++ js "}".

(** The frame whose response is the empty string. *)
Definition empty_response_frame : jsstring :=
  js "{" ++ quoted "response" ++ js ":" ++ [34%N; 34%N] ++ js "}".

Definition done_frame : jsstring :=
  js "{" ++ quoted "done" ++ js ":true}".

(** A frame whose response is an object with a member named "toString":
    the token is truthy and cannot be turned into a string. *)
Definition member_frame : jsstring :=
  js "{" ++ quoted "response" ++ js ":{" ++ quoted "toString" ++ js ":1}}".

Definition member_token : JSON := JObj [(js "toString", JNum (js "1") true)].

(** [quiet] with a parser that also reads that frame. *)
Definition quiet_members : Env := {|
  JSON_parse := fun line =>
    if jseqb line member_frame
    then Some (JObj [(js "response", member_token)])
    else parse_frame line;
  franc := franc quiet;
  res_write_throws := res_write_throws quiet;
  Message_create_rejects := Message_create_rejects quiet;
  context_throws := context_throws quiet;
  locationCache := locationCache quiet;
  Date_now := Date_now quiet;
  weather_service := weather_service quiet;
  city_service := city_service quiet;
  member_text := member_text quiet;
  Intl_format_throws := Intl_format_throws quiet;
  OLLAMA_HOST := OLLAMA_HOST quiet;
  OLLAMA_MODEL := OLLAMA_MODEL quiet
|}.

Definition sent (speechLang : string) (t : string) : Effect :=
  Wrote (EvToken (JStr (js t)) (Locale (js speechLang))).

Definition spoke (speechLang : string) (t : string) : Effect :=
  Wrote (EvSentencePartial (js t) (Locale (js speechLang))).

Definition saved (r : Role) (t : string) : Effect :=
  Created {| text := js t; role := r; language := js "eng" |}.

(* ----------------------------------------------------------------- *)
(** ** Reading a trace *)

(** The events written on the channel, in order. *)
Definition channel (t : Trace) : list Event :=
  flat_map (fun e => match e with Wrote ev => [ev] | _ => [] end) t.

(** The documents stored, in order. *)
Definition persisted (t : Trace) : list Message :=
  flat_map (fun e => match e with Created m => [m] | _ => [] end) t.

Definition is_assistant (m : Message) : bool :=
  match role m with Assistant => true | User => false end.

(** The stored replies of the assistant. *)
Definition assistant_writes (t : Trace) : list Message :=
  filter is_assistant (persisted t).

(** The text that a token written adds to the reply: its string; none
    when the value has no string (the append then throws). *)
Definition token_text (ev : Event) : jsstring :=
  match ev with
  | EvToken token _ =>
      match to_string token with
      | inr text => text
      | inl _ => []
      end
  | _ => []
  end.

(** The text of the tokens written on the channel, one after the other. *)
Definition reply_of (t : Trace) : jsstring :=
  concat (map token_text (channel t)).

(** An effect of a session that goes on: neither the close of the channel
    nor a terminal event written. *)
Definition live_effect (e : Effect) : bool :=
  match e with
  | Ended => false
  | Wrote ev => negb (is_terminal ev)
  | _ => true
  end.

Definition live (t : Trace) : bool := forallb live_effect t.

(** The entries of the log: [console.log], [console.warn] and
    [console.error]. *)
Definition is_log (e : Effect) : bool :=
  match e with
  | Warned _ | LoggedError _ | Logged _ _ | Looked LookupFailed => true
  | _ => false
  end.

Definition writes_never_throw (env : Env) : Prop :=
  forall t ev, res_write_throws env t ev = None.

Definition store_accepts (env : Env) : Prop :=
  forall t m, Message_create_rejects env t m = None.

Definition reply_message (langCode : jsstring) (t : Trace) : Message :=
  {| text := reply_of t; role := Assistant; language := langCode |}.

(** The ways a session ends once the guard of the prompt has read the
    prompt: the trace is a live body followed by the effects of the path
    that closed it.  An unhandled exception leaves the body alone; it needs
    a channel write that throws. *)
Inductive Closing (env : Env) (langCode : jsstring)
  : Outcome unit -> Trace -> Prop :=
| ClosedByGuard :
    Closing env langCode Returned [Wrote (EvError (js "Empty prompt")); Ended]
| ClosedByDone body :
    live body = true ->
    (writes_never_throw env -> assistant_writes body = []) ->
    Closing env langCode Returned
      (body ++ [Created (reply_message langCode body); Wrote EvDone; Ended])
| ClosedAtEnd body :
    live body = true ->
    (writes_never_throw env -> assistant_writes body = []) ->
    reply_of body <> [] ->
    Closing env langCode (Normal tt)
      (body ++ [Created (reply_message langCode body); Ended])
| ClosedAtEndEmpty body :
    live body = true ->
    (writes_never_throw env -> assistant_writes body = []) ->
    reply_of body = [] ->
    Closing env langCode (Normal tt) (body ++ [Ended])
| ClosedByError body msg :
    live body = true ->
    (writes_never_throw env -> assistant_writes body = []) ->
    Closing env langCode (Normal tt) (body ++ [Wrote (EvError msg); Ended])
| Unhandled body e :
    live body = true ->
    ~ writes_never_throw env ->
    Closing env langCode (Thrown e) body.

(* ----------------------------------------------------------------- *)
(** ** Weakest preconditions for the handler's monad *)

Definition wp {A} (m : M A)
  (Qn : A -> World -> Prop) (Qr : World -> Prop) (Qt : Exn -> World -> Prop)
  (w : World) : Prop :=
  match m w with
  | (Normal a, w') => Qn a w'
  | (Returned, w') => Qr w'
  | (Thrown e, w') => Qt e w'
  end.

(** What holds between the statements of the [try]: the session goes on,
    [fullReply] is the text of the tokens written, and no reply has been
    stored unless a channel write can throw. *)
Definition Inv (env : Env) (w : World) : Prop :=
  live (trace w) = true /\
  fullReply w = reply_of (trace w) /\
  (writes_never_throw env -> assistant_writes (trace w) = []).

(* ----------------------------------------------------------------- *)
(** ** Records as the read loop classifies them *)

Section Records.

Variable env : Env.

(** The token of a record that parses, has a truthy [response] and no
    truthy [done]. *)
Definition token_of (part : jsstring) : option JSON :=
  let line := trim part in
  if is_empty line then None
  else
    match JSON_parse env line with
    | Some parsed =>
        match get_prop parsed (js "response"), get_prop parsed (js "done") with
        | inr (Some token), inr done =>
            if truthy token && negb (is_truthy done) then Some token else None
        | _, _ => None
        end
    | None => None
    end.

Definition token_bearing (part : jsstring) : bool :=
  match token_of part with Some _ => true | None => false end.






End Records.


(** A body whose reading fails after its chunks. *)
Definition broken_body (chunks : list jsstring) (e : string) : FetchResult :=
  FetchResponse true (js "200 OK") chunks (Some (js e)).

(** A channel on which the sentence-group writes throw. *)
Definition no_speech : Env :=
  channel_env (fun _ ev =>
    match ev with
    | EvSentencePartial _ _ => Some (js "write after end")
    | _ => None
    end).

(** A channel on which the token writes throw. *)
Definition no_tokens : Env :=
  channel_env (fun _ ev =>
    match ev with
    | EvToken _ _ => Some (js "write after end")
    | _ => None
    end).

(** The write of a sentence group, done or thrown. *)
Definition is_speech_effect (e : Effect) : bool :=
  match e with
  | Wrote (EvSentencePartial _ _) | WriteThrew (EvSentencePartial _ _) => true
  | _ => false
  end.


(* ----------------------------------------------------------------- *)
(** ** The effects of a session, by phase *)

(** The document of the user's message (part_001, line 124). *)
Definition user_message (env : Env) (req : Request) : Message :=
  {| text := trimmed_prompt req; role := User;
     language := detect_language env req |}.

(** What the handler can do once the request to the backend is sent, and
    in its [catch]: channel events in the speech language, the reply in the
    language code, log entries and the close; never a second request, never
    another message of the user. *)
Definition relay_effect (langCode : jsstring) (speechLang : SpeechLang)
  (e : Effect) : Prop :=
  match e with
  | Wrote (EvToken _ l) | WriteThrew (EvToken _ l)
  | Wrote (EvSentencePartial _ l) | WriteThrew (EvSentencePartial _ l) =>
      l = speechLang
  | Wrote EvDone | WriteThrew EvDone => True
  | Wrote (EvError _) | WriteThrew (EvError _) => True
  | Created m | CreateRejected m =>
      role m = Assistant /\ language m = langCode
  | Fetched | Looked _ | Logged _ _ => False
  | Warned _ | LoggedError _ | Ended => True
  end.

(** What the handler does between the write of the user's message and
    the request: the steps of the lookup of the location and the two lines
    of the log. *)
Definition context_effect (e : Effect) : bool :=
  match e with
  | Looked _ | Logged _ _ => true
  | _ => false
  end.

(** The trace goes on from [p] with such effects only. *)
Definition After (langCode : jsstring) (speechLang : SpeechLang) (p : Trace)
  (w : World) : Prop :=
  exists es, trace w = p ++ es /\ Forall (relay_effect langCode speechLang) es.

(** A computation keeps [I] however it ends. *)
Definition keeps {A} (I : World -> Prop) (m : M A) : Prop :=
  forall w, I w -> wp m (fun _ => I) I (fun _ => I) w.

(** The language that an event carries, if it carries one. *)
Definition event_language (ev : Event) : option SpeechLang :=
  match ev with
  | EvToken _ l | EvSentencePartial _ l => Some l
  | EvDone | EvError _ => None
  end.

(** The message of the exception with which a request that fails ends
    (part_001, lines 168-178); [None] for a response that is [ok].  For a
    response that is not, the message ends with the body, read to its end,
    or with "<no-body>" when the reading fails. *)
Definition request_failure (backend : FetchResult) : option Exn :=
  match backend with
  | FetchThrows e => Some e
  | FetchResponse false status chunks None =>
      Some (js "Ollama API error: " ++ status ++ js " - " ++ concat chunks)
  | FetchResponse false status _ (Some _) =>
      Some (js "Ollama API error: " ++ status ++ js " - <no-body>")
  | FetchResponse true _ _ _ => None
  end.

(** [err.message || 'Unknown error'] (line 277) *)
Definition error_text (err : Exn) : jsstring :=
  if is_empty err then js "Unknown error" else err.

(** A trace without a request, a write, an error logged or a stored reply. *)
Definition Silent (tr : Trace) : Prop :=
  (forall ev, ~ In (Wrote ev) tr) /\
  (forall m, ~ In (Created m) tr \/ role m = User) /\
  ~ In Fetched tr /\
  (forall e, ~ In (LoggedError e) tr).

(** What the [catch] (part_001, lines 275-279) adds to the trace. *)
Definition caught (err : Exn) (tail : Trace) : Prop :=
  tail = [LoggedError err; Wrote (EvError (error_text err)); Ended] \/
  tail = [LoggedError err; WriteThrew (EvError (error_text err))].

(** A text without its white space. *)
Definition squeeze (s : jsstring) : jsstring :=
  filter (fun c => negb (is_space c)) s.

Definition HYPHEN : jschar := 45%N.

(** Whether [langOverride] is used (part_001, line 120): a string that
    is neither empty nor "auto". *)
Definition override_used (req : Request) : bool :=
  match langOverride req with
  | Some (JStr o) => negb (is_empty o) && negb (jseqb o (js "auto"))
  | _ => false
  end.

(* ----------------------------------------------------------------- *)
(** ** The handler of POST /message (part_000, lines 80-96 and 117-201) *)

(** *** [trimmed.match(/my name is (\w+)/i)] (lines 136-138) *)

(** [\w] *)
Definition is_word_char (c : jschar) : bool :=
  ((48 <=? c) && (c <=? 57) || (65 <=? c) && (c <=? 90) || (c =? 95)
   || (97 <=? c) && (c <=? 122))%N.

Definition is_lower (c : jschar) : bool := ((97 <=? c) && (c <=? 122))%N.

(** A code unit of the text against one of the pattern, case ignored: the
    letters of the pattern are ASCII and lower case, so each matches itself
    and its capital, and nothing else. *)
Definition matches_ci (p c : jschar) : bool :=
  N.eqb c p || (is_lower p && N.eqb c (p - 32)%N).

(** The text after the literal part of the pattern, if the text starts
    with it. *)
Fixpoint match_literal (pattern s : jsstring) : option jsstring :=
  match pattern, s with
  | [], _ => Some s
  | p :: pattern', c :: s' =>
      if matches_ci p c then match_literal pattern' s' else None
  | _ :: _, [] => None
  end.

(** [(\w+)], greedy: the longest run of word characters. *)
Fixpoint take_word (s : jsstring) : jsstring :=
  match s with
  | c :: r => if is_word_char c then c :: take_word r else []
  | [] => []
  end.

Definition NAME_PATTERN : jsstring := js "my name is ".

(** The match that starts at the first code unit, by its group 1. *)
Definition match_here (s : jsstring) : option jsstring :=
  match match_literal NAME_PATTERN s with
  | Some rest =>
      let name := take_word rest in
      if is_empty name then None else Some name
  | None => None
  end.

(** The leftmost match, by its group 1: [nameMatch[1]]. *)
Fixpoint nameMatch (s : jsstring) : option jsstring :=
  match match_here s with
  | Some name => Some name
  | None =>
      match s with
      | [] => None
      | _ :: r => nameMatch r
      end
  end.

(** Two texts equal up to the case of ASCII letters, the first one in
    lower case. *)
Definition equal_ci (pattern lit : jsstring) : Prop :=
  Forall2 (fun p c => matches_ci p c = true) pattern lit.

(** *** [runOllama] (lines 80-96) *)

(** What the child process does, in order. *)
Inductive ChildEvent :=
| Stdout (data : jsstring)
| Stderr (data : jsstring)
| Close
| ChildError (err : Exn).

Inductive ChildRun :=
| SpawnThrows (err : Exn)
| Spawned (events : list ChildEvent).

Definition FALLBACK_REPLY : jsstring :=
  js "Sorry, I couldn't generate a reply.".

(** The promise is settled by the first [close] or [error]: resolved with
    the output read so far, trimmed, or the fallback when that is empty;
    rejected with the error.  [None] when neither comes. *)
Fixpoint settle (output : jsstring) (events : list ChildEvent)
  : option (Exn + jsstring) :=
  match events with
  | [] => None
  | Stdout data :: rest => settle (output ++ data) rest
  | Stderr _ :: rest => settle output rest
  | Close :: _ =>
      let out := trim output in
      Some (inr (if is_empty out then FALLBACK_REPLY else out))
  | ChildError err :: _ => Some (inl err)
  end.

Definition runOllama (run : ChildRun) : option (Exn + jsstring) :=
  match run with
  | SpawnThrows err => Some (inl err)
  | Spawned events => settle [] events
  end.

(** The output on which the promise was settled. *)
Fixpoint output_before_close (events : list ChildEvent) : jsstring :=
  match events with
  | Stdout data :: rest => data ++ output_before_close rest
  | Stderr _ :: rest => output_before_close rest
  | _ => []
  end.

(** *** The language of a message (lines 124-125) *)

(** [/[ಀ-೿]/.test(trimmed)] *)
Definition has_kannada (s : jsstring) : bool :=
  existsb (fun c => (3200 <=? c) && (c <=? 3327))%N s.

(** *** The handler *)

(** A document given to [Message.create]; the role is a string here. *)
Record Doc := {
  doc_text : jsstring;
  doc_role : jsstring;
  doc_language : jsstring
}.

(** The [text] of the body: missing or null, a string, or another value
    of JSON (a number, a boolean, an array, an object), which has no
    [trim] method. *)
Inductive TextField :=
| NoText
| TextString (s : jsstring)
| OtherText.

(** The body of the request: [text]; [role] when it is truthy (a value
    that is not a string is cast by the schema: it stands here as its
    string); whether [location && location.lat && location.lon] is
    truthy. *)
Record MessageRequest := {
  msg_text : TextField;
  msg_role : option jsstring;
  msg_has_location : bool
}.

(** What [getWeatherAndTime] returns (part_000, lines 35-62): [timezone]
    is whatever truthy value the service gave, or "UTC"; [localTimeFromApi]
    is [None] when the answer has no [time]. *)
Record WeatherInfo := {
  info_text : jsstring;
  info_timezone : JSON;
  info_localTimeFromApi : option JSON
}.

(** Lines 41, 60 and 157. *)
Definition no_weather : WeatherInfo :=
  {| info_text := []; info_timezone := JStr (js "UTC");
     info_localTimeFromApi := Some JNull |}.

(** [`${v}`] of a value that may be undefined. *)
Definition interpolate (v : option JSON) : Exn + jsstring :=
  match v with
  | Some x => to_string x
  | None => inr (js "undefined")
  end.

(** The own keys of [map] (lines 48-54). *)
Definition climateMap (key : jsstring) : option jsstring :=
  if jseqb key (js "0") then Some (js "Clear")
  else if jseqb key (js "1") then Some (js "Mainly clear")
  else if jseqb key (js "2") then Some (js "Partly cloudy")
  else if jseqb key (js "3") then Some (js "Overcast")
  else if jseqb key (js "45") then Some (js "Fog")
  else if jseqb key (js "48") then Some (js "Rime fog")
  else if jseqb key (js "51") then Some (js "Drizzle light")
  else if jseqb key (js "53") then Some (js "Drizzle moderate")
  else if jseqb key (js "55") then Some (js "Drizzle dense")
  else if jseqb key (js "61") then Some (js "Rain slight")
  else if jseqb key (js "63") then Some (js "Rain moderate")
  else if jseqb key (js "65") then Some (js "Rain heavy")
  else if jseqb key (js "71") then Some (js "Snow slight")
  else if jseqb key (js "73") then Some (js "Snow moderate")
  else if jseqb key (js "75") then Some (js "Snow heavy")
  else if jseqb key (js "80") then Some (js "Rain showers slight")
  else if jseqb key (js "81") then Some (js "Rain showers moderate")
  else if jseqb key (js "82") then Some (js "Rain showers violent")
  else None.

Section WeatherAndTime.

(** The text that the engine prints for an inherited member. *)
Variable native_text : jsstring -> jsstring.

(** [map[code] || 'Unknown'], as printed in the template (line 55). *)
Definition climate_of (code : option JSON) : Exn + jsstring :=
  match property_key code with
  | inl e => inl e
  | inr key =>
      match climateMap key with
      | Some s => inr s
      | None =>
          if existsb (jseqb key) inherited_names then inr (native_text key)
          else inr (js "Unknown")
      end
  end.

(** Lines 43-57, on a truthy [data.current_weather]; the degree sign is
    U+00B0. *)
Definition weather_report (data current_weather : JSON)
  : Exn + WeatherInfo :=
  match get_prop current_weather (js "temperature"),
        get_prop current_weather (js "weathercode"),
        get_prop data (js "timezone"),
        get_prop current_weather (js "time") with
  | inr temp, inr code, inr zone, inr localTimeFromApi =>
      match climate_of code with
      | inl e => inl e
      | inr climate =>
          match interpolate temp,
                to_string (or_else localTimeFromApi (JStr (js "N/A"))) with
          | inr degrees, inr time =>
              inr {| info_text :=
                       js "Temperature: " ++ degrees ++ [176%N]
                       ++ js "C, Climate: " ++ climate
                       ++ js ", Local time (API): " ++ time;
                     info_timezone := or_else zone (JStr (js "UTC"));
                     info_localTimeFromApi := localTimeFromApi |}
          | inl e, _ | _, inl e => inl e
          end
      end
  | inl e, _, _, _ | _, inl e, _, _ | _, _, inl e, _ | _, _, _, inl e =>
      inl e
  end.

(** [getWeatherAndTime(lat, lon)]; [data] is the answer of the service
    parsed, [None] when the building of the address, the request or its
    [json()] throws. *)
Definition getWeatherAndTime (data : option JSON) : WeatherInfo :=
  match data with
  | None => no_weather
  | Some data =>
      if negb (truthy data) then no_weather
      else
        match get_prop data (js "current_weather") with
        | inr (Some current_weather) =>
            if truthy current_weather then
              match weather_report data current_weather with
              | inr info => info
              | inl _ => no_weather
              end
            else no_weather
        | _ => no_weather
        end
  end.

End WeatherAndTime.

Record Dates := {
  dateStr : jsstring;
  timeStr : jsstring;
  weekdayStr : jsstring
}.

Inductive Answer :=
| ErrorAnswer (error : jsstring)
| ReplyAnswer (reply weekday date time weather : jsstring)
              (language : SpeechLang).

Inductive Step :=
| Stored (d : Doc)             (* Message.create resolved *)
| StoreRejected (d : Doc)      (* Message.create rejected *)
| Remembered (name : jsstring) (* Memory.findOneAndUpdate resolved *)
| RememberFailed (name : jsstring)
| AskedModel (prompt : jsstring)
| LoggedFailure (err : Exn)    (* console.error('POST /message error:') *)
| Answered (status : nat) (body : Answer).

(** The collaborators of the handler.  [detect] answers [None] when the
    detector throws; the finds, when the query throws; [format_dates],
    when the time zone is refused.  [weather_data] is what the weather
    service answers, [engine_text] the text that the engine prints for an
    inherited member, [system_timezone] the time zone that [Intl] resolves
    by default. *)
Record MessageEnv := {
  detect : jsstring -> option jsstring;
  store_rejects : list Step -> Doc -> option Exn;
  remember_throws : list Step -> jsstring -> option Exn;
  find_memories : list Step -> option (list (jsstring * jsstring));
  find_messages : list Step -> option (list Doc);
  weather_data : option JSON;
  engine_text : jsstring -> jsstring;
  system_timezone : jsstring;
  format_dates : JSON -> option Dates;
  run_model : jsstring -> ChildRun
}.

(** The schema of messages (models/message.js): [text] required, [role]
    one of three. *)
Definition valid_doc (d : Doc) : bool :=
  negb (is_empty (doc_text d)) &&
  (jseqb (doc_role d) (js "user") || jseqb (doc_role d) (js "assistant")
   || jseqb (doc_role d) (js "system")).

(** How a run of the handler stands: ended, thrown, or waiting for a
    promise that is never settled. *)
Inductive Ending (A : Type) :=
| Ended_ (a : A)
| Threw (e : Exn)
| Waiting.

Arguments Ended_ {A} a.
Arguments Threw {A} e.
Arguments Waiting {A}.

Definition Run (A : Type) := list Step -> Ending A * list Step.

Definition retH {A} (a : A) : Run A := fun s => (Ended_ a, s).

Definition bindH {A B} (m : Run A) (k : A -> Run B) : Run B :=
  fun s =>
    match m s with
    | (Ended_ a, s') => k a s'
    | (Threw e, s') => (Threw e, s')
    | (Waiting, s') => (Waiting, s')
    end.

Definition tryH {A} (m : Run A) (handler : Exn -> Run A) : Run A :=
  fun s =>
    match m s with
    | (Threw e, s') => handler e s'
    | r => r
    end.

Definition step (x : Step) : Run unit := fun s => (Ended_ tt, s ++ [x]).

Definition liftH {A} (v : option A) (e : Exn) : Run A :=
  fun s => match v with Some a => (Ended_ a, s) | None => (Threw e, s) end.

Declare Scope handler_scope.
Delimit Scope handler_scope with handler.
Notation "x <~ c1 ;; c2" := (bindH c1 (fun x => c2))
  (at level 61, c1 at next level, right associativity) : handler_scope.
Notation "c1 ;;; c2" := (bindH c1 (fun _ => c2))
  (at level 61, right associativity) : handler_scope.

Section MessageHandler.

Variable env : MessageEnv.

Open Scope handler_scope.

(** [await Message.create(doc)] *)
Definition create_doc (d : Doc) : Run unit :=
  fun s =>
    if valid_doc d then
      match store_rejects env s d with
      | None => (Ended_ tt, s ++ [Stored d])
      | Some e => (Threw e, s ++ [StoreRejected d])
      end
    else (Threw (js "Message validation failed"), s ++ [StoreRejected d]).

(** Lines 139-143. *)
Definition remember (name : jsstring) : Run unit :=
  fun s =>
    match remember_throws env s name with
    | None => (Ended_ tt, s ++ [Remembered name])
    | Some e => (Threw e, s ++ [RememberFailed name])
    end.

(** Lines 124-125. *)
Definition message_language (trimmed : jsstring) : Run jsstring :=
  code <~ liftH (detect env trimmed) (js "franc failed") ;;
  let langCode := if is_empty code then js "eng" else code in
  retH (if has_kannada trimmed then js "kn" else langCode).

(** Lines 148-149. *)
Definition memory_context (memories : list (jsstring * jsstring)) : jsstring :=
  fold_left (fun acc m => acc ++ fst m ++ js ": " ++ snd m ++ js " | ")
            memories [].

(** [prev.slice(-5)] *)
Definition last5 (prev : list Doc) : list Doc :=
  skipn (length prev - 5) prev.

(** Line 154. *)
Definition context_line (m : Doc) : jsstring :=
  (if jseqb (doc_role m) (js "user") then js "User" else js "Assistant")
  ++ js ": " ++ doc_text m.

Definition message_context (prev : list Doc) : jsstring :=
  join (js " | ") (map context_line (last5 prev)).

(** Lines 173-175. *)
Definition build_prompt (memoryContext context trimmed : jsstring)
  (d : Dates) (weather : jsstring) : jsstring :=
  memoryContext ++ js " " ++ context ++ js " | User: " ++ trimmed
  ++ js " | Assistant (reply in same language)"
  ++ js " | Current weekday: " ++ weekdayStr d
  ++ js ", Current date: " ++ dateStr d
  ++ js ", Current time: " ++ timeStr d
  ++ (if is_empty weather then [] else js " | Weather info: " ++ weather).

(** Line 178. *)
Definition ask_model (prompt : jsstring) : Run jsstring :=
  fun s =>
    match runOllama (run_model env prompt) with
    | Some (inr reply) => (Ended_ reply, s ++ [AskedModel prompt])
    | Some (inl e) => (Threw e, s ++ [AskedModel prompt])
    | None => (Waiting, s ++ [AskedModel prompt])
    end.

(** [text?.trim()]: undefined on a missing text; a call of what is not
    a function on a text that is not a string. *)
Definition optional_trim (req : MessageRequest) : Run (option jsstring) :=
  match msg_text req with
  | NoText => retH None
  | TextString t => retH (Some (trim t))
  | OtherText => fun s => (Threw (js "text?.trim is not a function"), s)
  end.

Definition blank_text (req : MessageRequest) : bool :=
  match msg_text req with
  | TextString t => is_empty (trim t)
  | _ => true
  end.

Definition trimmed_text (req : MessageRequest) : jsstring :=
  match msg_text req with
  | TextString t => trim t
  | _ => []
  end.

(** [role || 'user'] *)
Definition role_or_user (req : MessageRequest) : jsstring :=
  match msg_role req with
  | Some r => if is_empty r then js "user" else r
  | None => js "user"
  end.

(** Lines 157-160. *)
Definition message_weather (req : MessageRequest) : WeatherInfo :=
  if msg_has_location req
  then getWeatherAndTime (engine_text env) (weather_data env)
  else no_weather.

(** Line 164:
    [weatherInfo.timezone || Intl.DateTimeFormat().resolvedOptions().timeZone || 'UTC'] *)
Definition message_timezone (req : MessageRequest) : JSON :=
  let weatherInfo := message_weather req in
  if truthy (info_timezone weatherInfo) then info_timezone weatherInfo
  else if negb (is_empty (system_timezone env))
       then JStr (system_timezone env)
       else JStr (js "UTC").

(** Lines 119-195: the body of the [try]. *)
Definition message_try (req : MessageRequest) : Run unit :=
  t <~ optional_trim req ;;
  if match t with Some t => is_empty t | None => true end
  then step (Answered 400 (ErrorAnswer (js "Empty text")))
  else
    let trimmed := trimmed_text req in
    langCode <~ message_language trimmed ;;
    create_doc {| doc_text := trimmed; doc_role := role_or_user req;
                  doc_language := langCode |} ;;;
    match nameMatch trimmed with
    | Some name => remember name
    | None => retH tt
    end ;;;
    memories <~ (fun s => liftH (find_memories env s) (js "find failed") s) ;;
    prev <~ (fun s => liftH (find_messages env s) (js "find failed") s) ;;
    let memoryContext := memory_context memories in
    let context := message_context prev in
    let weatherInfo := message_weather req in
    let tz := message_timezone req in
    d <~ liftH (format_dates env tz) (js "Invalid time zone") ;;
    let prompt :=
      build_prompt memoryContext context trimmed d (info_text weatherInfo) in
    reply <~ ask_model prompt ;;
    create_doc {| doc_text := reply; doc_role := js "assistant";
                  doc_language := langCode |} ;;;
    step (Answered 200
            (ReplyAnswer reply (weekdayStr d) (dateStr d) (timeStr d)
               (info_text weatherInfo) (francToSpeechLang langCode))).

(** Lines 197-200: the [catch]. *)
Definition message_catch (err : Exn) : Run unit :=
  step (LoggedFailure err) ;;;
  step (Answered 500 (ErrorAnswer (js "Server error"))).

(** Lines 117-201. *)
Definition message (req : MessageRequest) : Ending unit * list Step :=
  tryH (message_try req) message_catch [].

Definition message_steps (req : MessageRequest) : list Step :=
  snd (message req).

End MessageHandler.

(** Reading the steps. *)
Definition answers (steps : list Step) : list (nat * Answer) :=
  flat_map (fun x => match x with
                     | Answered status body => [(status, body)]
                     | _ => []
                     end) steps.

Definition stored (steps : list Step) : list Doc :=
  flat_map (fun x => match x with Stored d => [d] | _ => [] end) steps.

Definition remembered (steps : list Step) : list jsstring :=
  flat_map (fun x => match x with Remembered n => [n] | _ => [] end) steps.

Definition asked (steps : list Step) : list jsstring :=
  flat_map (fun x => match x with AskedModel p => [p] | _ => [] end) steps.

(** The language code of a message whose detection did not throw
    (part_000, lines 124-125). *)
Definition message_lang (env : MessageEnv) (req : MessageRequest) : jsstring :=
  if has_kannada (trimmed_text req) then js "kn"
  else
    match detect env (trimmed_text req) with
    | Some code => if is_empty code then js "eng" else code
    | None => js "eng"
    end.

Definition user_doc (env : MessageEnv) (req : MessageRequest) : Doc :=
  {| doc_text := trimmed_text req; doc_role := role_or_user req;
     doc_language := message_lang env req |}.

Definition reply_doc (env : MessageEnv) (req : MessageRequest)
  (reply : jsstring) : Doc :=
  {| doc_text := reply; doc_role := js "assistant";
     doc_language := message_lang env req |}.

Definition answer_language (body : Answer) : option SpeechLang :=
  match body with
  | ReplyAnswer _ _ _ _ _ language => Some language
  | ErrorAnswer _ => None
  end.

Definition answer_reply (body : Answer) : option jsstring :=
  match body with
  | ReplyAnswer reply _ _ _ _ _ => Some reply
  | ErrorAnswer _ => None
  end.

(** Collaborators of the message handler that never fail; the model
    answers with the given output. *)
Definition calm (output : string) : MessageEnv := {|
  detect := fun _ => Some (js "eng");
  store_rejects := fun _ _ => None;
  remember_throws := fun _ _ => None;
  find_memories := fun _ => Some [];
  find_messages := fun _ => Some [];
  weather_data := None;
  engine_text := fun name => name;
  system_timezone := js "UTC";
  format_dates := fun _ => Some {| dateStr := js "03 Nov 2026";
                                   timeStr := js "10:00:00 AM";
                                   weekdayStr := js "Tue" |};
  run_model := fun _ => Spawned [Stdout (js output); Close]
|}.

Definition says (s : string) : MessageRequest :=
  {| msg_text := TextString (js s); msg_role := None;
     msg_has_location := false |}.

(* ================================================================= *)
(** * Part II. Properties *)
(* ================================================================= *)

(* ----------------------------------------------------------------- *)
(** ** The chunk decoder *)

Section Decoder.

Let LF_free (s : jsstring) : Prop := ~ In LF s.

Lemma no_LF_sound s : no_LF s = true -> LF_free s.
Proof.
  unfold no_LF, LF_free; intros H Hin.
  rewrite forallb_forall in H. specialize (H _ Hin).
  now rewrite N.eqb_refl in H.
Qed.

Lemma split_lines_from_nonempty cur s : split_lines_from cur s <> [].
Proof.
  revert cur; induction s as [|c r IH]; intros cur; simpl.
  - discriminate.
  - destruct (N.eqb c LF); [discriminate | apply IH].
Qed.

(** Scanning text without a line feed only grows the current segment. *)
Lemma split_lines_from_LF_free x : forall cur b,
  LF_free x ->
  split_lines_from cur (x ++ b) = split_lines_from (rev x ++ cur) b.
Proof.
  induction x as [|c x IH]; intros cur b Hx; simpl.
  - reflexivity.
  - destruct (N.eqb_spec c LF) as [Hc|Hc]; [subst c|].
    + exfalso; apply Hx; left; reflexivity.
    + rewrite IH.
      * now rewrite <- app_assoc.
      * intros Hin; apply Hx; right; exact Hin.
Qed.

Lemma strip_cr_LF_free cur : LF_free cur -> LF_free (strip_cr cur).
Proof.
  unfold LF_free; destruct cur as [|c cur]; simpl; auto.
  destruct (N.eqb c CR); simpl; tauto.
Qed.

(** The scan of [a] leaves complete segments and a current segment, and
    the scan of [a ++ b] goes on from there. *)
Lemma split_lines_from_app a : forall cur,
  LF_free cur ->
  exists segs cur',
    LF_free cur' /\
    split_lines_from cur a = segs ++ [rev cur'] /\
    forall b, split_lines_from cur (a ++ b) = segs ++ split_lines_from cur' b.
Proof.
  induction a as [|c a IH]; intros cur Hcur; simpl.
  - exists [], cur; repeat split; auto.
  - destruct (N.eqb_spec c LF) as [Hc|Hc]; [subst c|].
    + destruct (IH []) as (segs & cur' & H1 & H2 & H3); [intros []|].
      exists (rev (strip_cr cur) :: segs), cur'; repeat split; auto.
      * simpl; now rewrite H2.
      * intros b; simpl; now rewrite H3.
    + destruct (IH (c :: cur)) as (segs & cur' & H1 & H2 & H3).
      { intros [E|Hin]; [now apply Hc | now apply Hcur]. }
      exists segs, cur'; repeat split; auto.
Qed.

Lemma LF_free_rev s : LF_free s -> LF_free (rev s).
Proof. unfold LF_free; intros H Hin; apply H; now apply in_rev. Qed.

Lemma removelast_snoc {A} (l : list A) x : removelast (l ++ [x]) = l.
Proof. apply removelast_last. Qed.

Lemma last_snoc {A} (l : list A) x d : last (l ++ [x]) d = x.
Proof. apply last_last. Qed.

(** Splitting [x ++ y] is splitting [x], then going on with its last,
    incomplete, segment put before [y]. *)
Lemma split_lines_app x y :
  split_lines (x ++ y) =
  removelast (split_lines x) ++ split_lines (last (split_lines x) [] ++ y).
Proof.
  unfold split_lines.
  destruct (split_lines_from_app x []) as (segs & cur' & H1 & H2 & H3);
    [intros []|].
  rewrite H3, H2, removelast_snoc, last_snoc.
  rewrite split_lines_from_LF_free by now apply LF_free_rev.
  now rewrite rev_involutive, app_nil_r.
Qed.

Lemma split_lines_last_LF_free x : LF_free (last (split_lines x) []).
Proof.
  unfold split_lines.
  destruct (split_lines_from_app x []) as (segs & cur' & H1 & H2 & _);
    [intros []|].
  rewrite H2, last_snoc. now apply LF_free_rev.
Qed.

Lemma split_lines_LF_free x : LF_free x -> split_lines x = [x].
Proof.
  intros Hx. unfold split_lines.
  rewrite <- (app_nil_r x) at 1.
  rewrite split_lines_from_LF_free by assumption.
  simpl. now rewrite app_nil_r, rev_involutive.
Qed.

(** However the text is cut into chunks, the decoder gives the segments
    of the whole text: all but the last as records, the last as buffer. *)
Lemma decode_all_split chunks : forall buffer,
  LF_free buffer ->
  decode_all buffer chunks =
  (removelast (split_lines (buffer ++ concat chunks)),
   last (split_lines (buffer ++ concat chunks)) []).
Proof.
  induction chunks as [|c rest IH]; intros b Hb; simpl.
  - rewrite app_nil_r, split_lines_LF_free by assumption. reflexivity.
  - unfold decode. cbv zeta.
    rewrite IH by apply split_lines_last_LF_free.
    rewrite (app_assoc b c), (split_lines_app (b ++ c)).
    set (P := split_lines (b ++ c)).
    set (Q := split_lines (last P [] ++ concat rest)).
    assert (HQ : Q <> []) by apply split_lines_from_nonempty.
    f_equal.
    + destruct (exists_last HQ) as (q & x & ->).
      now rewrite app_assoc, !removelast_snoc.
    + destruct (exists_last HQ) as (q & x & ->).
      now rewrite app_assoc, !last_snoc.
Qed.

Lemma split_lines_lay_out records : forall fragment,
  forallb well_terminated records = true ->
  LF_free fragment ->
  split_lines (lay_out records fragment) = map fst records ++ [fragment].
Proof.
  induction records as [|[r t] rest IH]; intros fragment Hall Hf; simpl.
  - now apply split_lines_LF_free.
  - simpl in Hall. apply andb_true_iff in Hall as [Hrt Hrest].
    unfold well_terminated in Hrt; simpl in Hrt.
    apply andb_true_iff in Hrt as [Hr Hcr]. apply no_LF_sound in Hr.
    unfold split_lines.
    rewrite split_lines_from_LF_free by assumption.
    rewrite app_nil_r.
    destruct t; simpl.
    + (* bare line feed *)
      fold (split_lines (lay_out rest fragment)).
      rewrite IH by assumption.
      f_equal.
      unfold ends_with_CR in Hcr.
      destruct (rev r) as [|c cur] eqn:E; simpl.
      * apply (f_equal (@rev _)) in E. rewrite rev_involutive in E.
        now rewrite E.
      * destruct (N.eqb c CR); [discriminate|].
        rewrite <- E. apply rev_involutive.
    + (* carriage return, line feed *)
      fold (split_lines (lay_out rest fragment)).
      rewrite IH by assumption.
      now rewrite rev_involutive.
Qed.

(** C4. For every stream made of N records, each ended by a line feed or
    by a carriage return and a line feed, followed by a fragment without
    line feed, and for every way of cutting the stream into chunks, the
    decode calls give exactly the N records, in order and once each, and
    leave the fragment in the buffer. *)
Theorem decoder_rechunking
  (records : list (jsstring * Terminator)) (fragment : jsstring)
  (chunks : list jsstring) :
  forallb well_terminated records = true ->
  no_LF fragment = true ->
  concat chunks = lay_out records fragment ->
  decode_all [] chunks = (map fst records, fragment).
Proof.
  intros Hrec Hfrag Hcat. apply no_LF_sound in Hfrag.
  rewrite decode_all_split by (intros []).
  simpl. rewrite Hcat, split_lines_lay_out by assumption.
  now rewrite removelast_snoc, last_snoc.
Qed.

Lemma decoder_rechunking_witness :
  decode_all [] [js "{a"; js "b}" ++ [LF] ++ js "{"; js "}" ++ [CR];
                 [LF] ++ js "{c"]
  = ([js "{ab}"; js "{}"], js "{c").
Proof.
  apply (decoder_rechunking
           [(js "{ab}", BareLF); (js "{}", CRLF)] (js "{c"));
    reflexivity.
Defined.

End Decoder.

(* ----------------------------------------------------------------- *)
(** ** Words *)

Section Words.

Let W := scan_words is_space.

Lemma is_empty_rev (s : jsstring) : is_empty (rev s) = is_empty s.
Proof.
  destruct s as [|c s]; simpl; [reflexivity|].
  destruct (rev s); reflexivity.
Qed.

Lemma is_empty_true (s : jsstring) : is_empty s = true <-> s = [].
Proof. destruct s; simpl; split; congruence. Qed.

Lemma is_empty_false (s : jsstring) : is_empty s = false <-> s <> [].
Proof. destruct s; simpl; split; congruence. Qed.

(** [split(' ').filter(Boolean)] is the one-pass reading with the space
    as only separator. *)
Lemma filter_split_on_scan sep s : forall cur,
  filter (fun w => negb (is_empty w)) (split_on_from sep cur s) =
  scan_words (fun c => N.eqb c sep) cur s.
Proof.
  induction s as [|c r IH]; intros cur; simpl.
  - unfold close_word. rewrite is_empty_rev.
    destruct (is_empty cur); reflexivity.
  - destruct (N.eqb c sep); simpl.
    + rewrite IH. unfold close_word. rewrite is_empty_rev.
      destruct (is_empty cur); reflexivity.
    + apply IH.
Qed.

Lemma is_space_SP : is_space SP = true.
Proof. reflexivity. Qed.

(** Collapsing the runs of white space does not change the words. *)
Lemma scan_collapse s :
  (forall acc, W acc (collapse_from false s) = W acc s) /\
  W [] (collapse_from true s) = W [] s.
Proof.
  unfold W.
  induction s as [|c r [IHf IHt]]; simpl; [split; reflexivity|].
  destruct (is_space c) eqn:Ec; simpl.
  - split.
    + intros acc. now rewrite IHt.
    + exact IHt.
  - rewrite Ec. split.
    + intros acc. apply IHf.
    + apply IHf.
Qed.

Lemma collapse_only_SP s : forall b, only_SP (collapse_from b s).
Proof.
  unfold only_SP.
  induction s as [|c r IH]; intros b; simpl; [constructor|].
  destruct (is_space c) eqn:Ec.
  - destruct b; [apply IH|]. constructor; [reflexivity | apply IH].
  - constructor; [congruence | apply IH].
Qed.

Lemma trimStart_only_SP s : only_SP s -> only_SP (trimStart s).
Proof.
  unfold only_SP. induction 1 as [|c r Hc Hr IH]; simpl; [constructor|].
  destruct (is_space c) eqn:E; [exact IH|].
  constructor; [intros E'; congruence | exact Hr].
Qed.

Lemma trim_only_SP s : only_SP s -> only_SP (trim s).
Proof.
  intros H. unfold trim, trimEnd, only_SP.
  apply Forall_rev. apply trimStart_only_SP.
  apply Forall_rev. now apply trimStart_only_SP.
Qed.

Lemma scan_only_SP s : forall acc,
  only_SP s ->
  scan_words (fun c => N.eqb c SP) acc s = W acc s.
Proof.
  unfold W. induction s as [|c r IH]; intros acc H; simpl; [reflexivity|].
  inversion H as [|? ? Hc Hr]; subst.
  destruct (N.eqb_spec c SP) as [E|E].
  - subst c. rewrite is_space_SP. now rewrite IH.
  - destruct (is_space c) eqn:Ec.
    + exfalso. now apply E, Hc.
    + now apply IH.
Qed.

(** White space at either end holds no word. *)
Lemma scan_trimStart s : W [] (trimStart s) = W [] s.
Proof.
  unfold W. induction s as [|c r IH]; simpl; [reflexivity|].
  destruct (is_space c) eqn:Ec; simpl.
  - exact IH.
  - now rewrite Ec.
Qed.

Lemma scan_spaces t : forall acc,
  forallb is_space t = true -> W acc t = close_word acc.
Proof.
  unfold W. induction t as [|c t IH]; intros acc H; simpl; [reflexivity|].
  simpl in H. apply andb_true_iff in H as [Hc Ht].
  rewrite Hc, IH by assumption. unfold close_word at 2. simpl.
  apply app_nil_r.
Qed.

Lemma scan_app_spaces x t : forall acc,
  forallb is_space t = true -> W acc (x ++ t) = W acc x.
Proof.
  unfold W. induction x as [|c x IH]; intros acc H; simpl.
  - now apply scan_spaces.
  - destruct (is_space c); [rewrite IH by assumption; reflexivity | apply IH; assumption].
Qed.

(** What [trimStart] removes is white space. *)
Lemma trimStart_split s :
  exists p, s = p ++ trimStart s /\ forallb is_space p = true.
Proof.
  induction s as [|c r (p & Hp & Hsp)]; simpl.
  - exists []; split; reflexivity.
  - destruct (is_space c) eqn:Ec.
    + exists (c :: p); split; simpl.
      * now rewrite <- Hp.
      * now rewrite Ec.
    + exists []; split; reflexivity.
Qed.

Lemma trimEnd_split s :
  exists t, s = trimEnd s ++ t /\ forallb is_space t = true.
Proof.
  destruct (trimStart_split (rev s)) as (p & Hp & Hsp).
  exists (rev p); split.
  - unfold trimEnd. rewrite <- rev_app_distr, <- Hp. now rewrite rev_involutive.
  - rewrite forallb_forall in *. intros c Hc. apply Hsp. now apply in_rev.
Qed.

Lemma scan_trimEnd s : forall acc, W acc (trimEnd s) = W acc s.
Proof.
  intros acc. destruct (trimEnd_split s) as (t & Ht & Hsp).
  rewrite Ht at 2. now rewrite scan_app_spaces.
Qed.

Lemma scan_trim s : W [] (trim s) = W [] s.
Proof. unfold trim. now rewrite scan_trimEnd, scan_trimStart. Qed.

(** The words that the handler computes are the words of the one-pass
    reading. *)
Lemma words_of_scan s : words_of s = W [] s.
Proof.
  unfold words_of, split_on, collapse_ws.
  rewrite filter_split_on_scan.
  rewrite scan_only_SP by apply trim_only_SP, collapse_only_SP.
  rewrite scan_trim. apply scan_collapse.
Qed.

Lemma words_of_trim s : words_of (trim s) = words_of s.
Proof. rewrite !words_of_scan. apply scan_trim. Qed.

End Words.

(* ----------------------------------------------------------------- *)
(** ** The word-group chunker *)

Section Chunker.

Let W := scan_words is_space.

Let no_space (w : jsstring) : bool := forallb (fun c => negb (is_space c)) w.

Lemma scan_word_run w : forall acc rest,
  no_space w = true -> W acc (w ++ rest) = W (rev w ++ acc) rest.
Proof.
  unfold W, no_space.
  induction w as [|c w IH]; intros acc rest H; simpl; [reflexivity|].
  simpl in H. apply andb_true_iff in H as [Hc Hw].
  apply negb_true_iff in Hc. rewrite Hc, IH by assumption.
  now rewrite <- app_assoc.
Qed.

Lemma scan_sep c r acc :
  is_space c = true -> W acc (c :: r) = close_word acc ++ W [] r.
Proof. unfold W; simpl; intros ->; reflexivity. Qed.


Lemma is_word_parts w :
  is_word w = true -> w <> [] /\ no_space w = true.
Proof.
  unfold is_word. intros H. apply andb_true_iff in H as [H1 H2].
  split; [|exact H2]. apply negb_true_iff in H1. now apply is_empty_false.
Qed.

Lemma scan_one_word w : is_word w = true -> W [] w = [w].
Proof.
  intros H. destruct (is_word_parts _ H) as [Hne Hns].
  rewrite <- (app_nil_r w) at 1.
  rewrite scan_word_run by assumption.
  unfold W; simpl. unfold close_word.
  rewrite app_nil_r, is_empty_rev.
  apply is_empty_false in Hne. now rewrite Hne, rev_involutive.
Qed.

(** Joining words with single spaces and reading the words again gives
    the words back. *)
Lemma scan_join ws : forallb is_word ws = true -> W [] (join [SP] ws) = ws.
Proof.
  induction ws as [|w ws IH]; intros H; [reflexivity|].
  simpl in H. apply andb_true_iff in H as [Hw Hws].
  destruct ws as [|w' ws'].
  - simpl. now apply scan_one_word.
  - change (join [SP] (w :: w' :: ws'))
      with (w ++ [SP] ++ join [SP] (w' :: ws')).
    destruct (is_word_parts _ Hw) as [Hne Hns].
    rewrite scan_word_run by assumption.
    change ([SP] ++ join [SP] (w' :: ws'))
      with (SP :: join [SP] (w' :: ws')).
    rewrite scan_sep by reflexivity. rewrite IH by assumption.
    unfold close_word. rewrite app_nil_r, is_empty_rev.
    apply is_empty_false in Hne. now rewrite Hne, rev_involutive.
Qed.

Lemma scan_are_words s : forall acc,
  no_space acc = true -> forallb is_word (W acc s) = true.
Proof.
  assert (Hclose : forall acc, no_space acc = true ->
                               forallb is_word (close_word acc) = true).
  { intros acc Hacc. unfold close_word.
    destruct (is_empty acc) eqn:E; [reflexivity|].
    simpl. rewrite andb_true_r. unfold is_word.
    rewrite is_empty_rev, E. simpl.
    unfold no_space in Hacc. rewrite forallb_forall in *.
    intros c Hc. apply Hacc. now apply in_rev. }
  unfold W. induction s as [|c s IH]; intros acc Hacc; simpl.
  - now apply Hclose.
  - destruct (is_space c) eqn:Ec.
    + rewrite forallb_app, Hclose by assumption. now apply IH.
    + apply IH. unfold no_space in *. simpl. now rewrite Ec.
Qed.

Lemma words_of_are_words s : forallb is_word (words_of s) = true.
Proof. rewrite words_of_scan. now apply scan_are_words. Qed.

(** A text without words is white space. *)
Lemma scan_nil s : forall acc,
  W acc s = [] -> acc = [] /\ forallb is_space s = true.
Proof.
  unfold W. induction s as [|c s IH]; intros acc H; simpl in *.
  - unfold close_word in H. destruct acc; [auto | discriminate].
  - destruct (is_space c) eqn:Ec.
    + apply app_eq_nil in H as [H1 H2].
      unfold close_word in H1. destruct acc; [|discriminate].
      split; [reflexivity|]. now apply IH in H2.
    + apply IH in H as [H _]. discriminate.
Qed.

Lemma trimStart_spaces s : forallb is_space s = true -> trimStart s = [].
Proof.
  induction s as [|c s IH]; simpl; [reflexivity|].
  intros H. apply andb_true_iff in H as [Hc Hs]. now rewrite Hc, IH.
Qed.

Lemma trim_nil_iff s : trim s = [] <-> words_of s = [].
Proof.
  split; intros H.
  - now rewrite <- words_of_trim, H.
  - rewrite words_of_scan in H. apply scan_nil in H as [_ H].
    unfold trim. now rewrite trimStart_spaces.
Qed.

(** The loop takes the words [T] at a time and stops with fewer than [T]
    words in the buffer. *)
Lemma group_loop_spec T : 0 < T -> forall fuel ws sb,
  length ws <= fuel ->
  forallb is_word ws = true ->
  W [] sb = ws ->
  let '(groups, sb') := group_loop fuel T ws sb in
  concat (map words_of groups) ++ W [] sb' = ws /\
  Forall (fun g => length (words_of g) = T) groups /\
  length (W [] sb') < T.
Proof.
  intros HT. induction fuel as [|fuel IH]; intros ws sb Hlen Hws Hsb; simpl.
  - destruct ws; [|simpl in Hlen; lia]. rewrite Hsb. simpl. auto.
  - destruct (Nat.leb_spec T (length ws)) as [Hge|Hlt].
    + assert (Hws' : forallb is_word (skipn T ws) = true).
      { rewrite forallb_forall in *. intros w Hw. apply Hws.
        rewrite <- (firstn_skipn T ws). apply in_or_app. now right. }
      assert (Hfst : forallb is_word (firstn T ws) = true).
      { rewrite forallb_forall in *. intros w Hw. apply Hws.
        rewrite <- (firstn_skipn T ws). apply in_or_app. now left. }
      specialize (IH (skipn T ws) (join [SP] (skipn T ws))).
      destruct (group_loop fuel T (skipn T ws) (join [SP] (skipn T ws)))
        as [out sb'].
      destruct IH as (H1 & H2 & H3).
      * rewrite length_skipn. lia.
      * exact Hws'.
      * now apply scan_join.
      * simpl. rewrite words_of_scan, scan_join by assumption.
        repeat split.
        -- rewrite <- app_assoc, H1. apply firstn_skipn.
        -- constructor; [|exact H2].
           rewrite words_of_scan, scan_join by assumption.
           rewrite length_firstn. lia.
        -- exact H3.
    + simpl. rewrite Hsb. auto.
Qed.

Lemma length_concat_groups T groups :
  Forall (fun g => length (words_of g) = T) groups ->
  length (concat (map words_of groups)) = T * length groups.
Proof.
  induction 1 as [|g gs Hg Hgs IH]; simpl; [lia|].
  rewrite length_app, IH, Hg. lia.
Qed.






End Chunker.

Section ChunkerClaims.

(** C8. A flush leaves a speech buffer that holds no word (the empty
    string whenever a group was emitted), so a second flush with nothing
    absorbed in between emits nothing and changes nothing; an emitted
    group is never empty, and flushing the empty buffer emits nothing. *)
Theorem flush_twice (speechBuffer : jsstring) :
  let '(group, after) := flush speechBuffer in
  words_of after = [] /\
  flush after = (None, after) /\
  (forall g, group = Some g -> g <> [] /\ after = []) /\
  flush [] = (None, []).
Proof.
  unfold flush.
  destruct (is_empty (trim speechBuffer)) eqn:E.
  - apply is_empty_true in E.
    split; [|split; [|split]].
    + now apply trim_nil_iff.
    + now rewrite E.
    + discriminate.
    + reflexivity.
  - split; [|split; [|split]].
    + reflexivity.
    + reflexivity.
    + intros g Hg. inversion Hg; subst. split; [|reflexivity].
      now apply is_empty_false.
    + reflexivity.
Qed.



(** The run of the witness: tokens that cut the words, aligned on the
    groups. *)
Example chunker_on_cut_words :
  chunker_run 2 cut_words None =
  ([js "one two"; js "three four"], Some (js "five")).
Proof. vm_compute. reflexivity. Qed.


End ChunkerClaims.

(* ----------------------------------------------------------------- *)
(** ** Rules for the handler's monad *)

Section Rules.

Context {A B : Type}.
Implicit Types (Qr : World -> Prop) (Qt : Exn -> World -> Prop).

Lemma wp_ret (a : A) (Qn : A -> World -> Prop) Qr Qt w :
  Qn a w -> wp (ret a) Qn Qr Qt w.
Proof. exact (fun H => H). Qed.

Lemma wp_throw e (Qn : A -> World -> Prop) Qr Qt w :
  Qt e w -> wp (throw e) Qn Qr Qt w.
Proof. exact (fun H => H). Qed.

Lemma wp_return (Qn : A -> World -> Prop) Qr Qt w :
  Qr w -> wp return_ Qn Qr Qt w.
Proof. exact (fun H => H). Qed.

Lemma wp_bind (m : M A) (k : A -> M B) (Qn : B -> World -> Prop) Qr Qt w :
  wp m (fun a w' => wp (k a) Qn Qr Qt w') Qr Qt w ->
  wp (bind m k) Qn Qr Qt w.
Proof. unfold wp, bind. destruct (m w) as [[a| |e] w']; auto. Qed.

Lemma wp_try_catch (m : M A) (h : Exn -> M A)
  (Qn : A -> World -> Prop) Qr Qt w :
  wp m Qn Qr (fun e w' => wp (h e) Qn Qr Qt w') w ->
  wp (try_catch m h) Qn Qr Qt w.
Proof. unfold wp, try_catch. destruct (m w) as [[a| |e] w']; auto. Qed.

Lemma wp_trivial (m : M A) w :
  wp m (fun _ _ => True) (fun _ => True) (fun _ _ => True) w.
Proof. unfold wp. destruct (m w) as [[a| |e] w']; exact I. Qed.

Lemma wp_mono (m : M A) (Qn Qn' : A -> World -> Prop) Qr Qr' Qt Qt' w :
  wp m Qn Qr Qt w ->
  (forall a w', Qn a w' -> Qn' a w') ->
  (forall w', Qr w' -> Qr' w') ->
  (forall e w', Qt e w' -> Qt' e w') ->
  wp m Qn' Qr' Qt' w.
Proof. unfold wp. destruct (m w) as [[a| |e] w']; auto. Qed.

End Rules.

(** A loop keeps what each of its turns keeps. *)
Lemma wp_for_each {A} (l : list A) (body : A -> M unit) (I : World -> Prop)
  (Qr : World -> Prop) (Qt : Exn -> World -> Prop) :
  (forall x w, In x l -> I w -> wp (body x) (fun _ => I) Qr Qt w) ->
  forall w, I w -> wp (for_each l body) (fun _ => I) Qr Qt w.
Proof.
  induction l as [|x l IH]; intros Hbody w Hw; simpl.
  - exact Hw.
  - apply wp_bind.
    eapply wp_mono; [apply Hbody; [now left | exact Hw] | | auto | auto].
    intros u w' Hw'. apply IH; [|exact Hw'].
    intros y w0 Hy. apply Hbody. now right.
Qed.

Section Primitives.

Variable env : Env.
Context {Qn : unit -> World -> Prop} {Qr : World -> Prop}
        {Qt : Exn -> World -> Prop}.

Lemma wp_effect e w : Qn tt (record e w) -> wp (effect e) Qn Qr Qt w.
Proof. exact (fun H => H). Qed.

Lemma wp_res_end w : Qn tt (record Ended w) -> wp (res_end) Qn Qr Qt w.
Proof. exact (fun H => H). Qed.

Lemma wp_res_write ev w :
  (res_write_throws env (trace w) ev = None -> Qn tt (record (Wrote ev) w)) ->
  (forall e, res_write_throws env (trace w) ev = Some e ->
             Qt e (record (WriteThrew ev) w)) ->
  wp (res_write env ev) Qn Qr Qt w.
Proof.
  unfold wp, res_write. intros H1 H2.
  destruct (res_write_throws env (trace w) ev); auto.
Qed.

Lemma wp_Message_create doc w :
  (text doc <> [] -> Message_create_rejects env (trace w) doc = None ->
   Qn tt (record (Created doc) w)) ->
  (forall e, Qt e (record (CreateRejected doc) w)) ->
  wp (Message_create env doc) Qn Qr Qt w.
Proof.
  unfold wp, Message_create. intros H1 H2.
  destruct (is_empty (text doc)) eqn:E; [apply H2|].
  apply is_empty_false in E.
  destruct (Message_create_rejects env (trace w) doc); auto.
Qed.

(** Building the context only adds steps of the lookup and lines of the
    log to the trace, whether it ends or throws. *)
Lemma wp_build_context req w :
  (forall ctx, forallb context_effect ctx = true -> Qn tt (extend ctx w)) ->
  (forall e ctx, forallb context_effect ctx = true -> Qt e (extend ctx w)) ->
  wp (build_context env req) Qn Qr Qt w.
Proof.
  intros H1 H2.
  assert (E0 : extend [] w = w)
    by (unfold extend; rewrite app_nil_r; now destruct w).
  assert (Hlooked : forall steps,
            forallb context_effect (map Looked steps) = true)
    by (induction steps; simpl; auto).
  unfold wp, build_context, bind, find_context.
  destruct (context_throws env (trace w)) as [e|];
    [rewrite <- E0; now apply H2|].
  assert (Hrest : forall place ctx,
            forallb context_effect ctx = true ->
            match
              (format_prompt env place ;;
               effect (Logged (js "OLLAMA requestUrl=")
                         (env_or (OLLAMA_HOST env) (js "http://localhost:11434")
                          ++ js "/api/generate")) ;;
               effect (Logged (js "OLLAMA model=")
                         (env_or (OLLAMA_MODEL env) (js "llama2:7b-chat"))))
                (extend ctx w)
            with
            | (Normal a, w') => Qn a w'
            | (Returned, w') => Qr w'
            | (Thrown e, w') => Qt e w'
            end).
  { intros [[weather zone] town] ctx Hctx.
    unfold bind, format_prompt, effect, throw, ret.
    destruct (Intl_format_throws env zone) as [e|]; [now apply H2|].
    destruct (to_string town) as [e|printed]; [now apply H2|].
    specialize (H1 (ctx ++ [Logged (js "OLLAMA requestUrl=")
                              (env_or (OLLAMA_HOST env)
                                 (js "http://localhost:11434")
                               ++ js "/api/generate");
                            Logged (js "OLLAMA model=")
                              (env_or (OLLAMA_MODEL env)
                                 (js "llama2:7b-chat"))])).
    unfold record, extend in *. simpl in *.
    rewrite <- !app_assoc. simpl. apply H1.
    rewrite forallb_app, Hctx. reflexivity. }
  assert (Hnowhere : match
              (format_prompt env nowhere ;;
               effect (Logged (js "OLLAMA requestUrl=")
                         (env_or (OLLAMA_HOST env) (js "http://localhost:11434")
                          ++ js "/api/generate")) ;;
               effect (Logged (js "OLLAMA model=")
                         (env_or (OLLAMA_MODEL env) (js "llama2:7b-chat"))))
                w
            with
            | (Normal a, w') => Qn a w'
            | (Returned, w') => Qr w'
            | (Thrown e, w') => Qt e w'
            end)
    by (pose proof (Hrest nowhere [] eq_refl) as Hn; rewrite E0 in Hn;
        exact Hn).
  unfold locate.
  destruct (opt_chain (location req) (js "lat")) as [lat|]; [|exact Hnowhere].
  destruct (opt_chain (location req) (js "lon")) as [lon|]; [|exact Hnowhere].
  destruct (truthy lat && truthy lon); [|exact Hnowhere].
  destruct (getWeatherTimeCity (member_text env) (Date_now env)
              (weather_service env) (city_service env) (locationCache env)
              lat lon) as [[[e|locData] cache'] steps].
  - apply H2, Hlooked.
  - apply Hrest, Hlooked.
Qed.

Lemma wp_set_buffer b w :
  Qn tt {| buffer := b; fullReply := fullReply w;
           speechBuffer := speechBuffer w; trace := trace w |} ->
  wp (set_buffer b) Qn Qr Qt w.
Proof. exact (fun H => H). Qed.

Lemma wp_set_fullReply r w :
  Qn tt {| buffer := buffer w; fullReply := r;
           speechBuffer := speechBuffer w; trace := trace w |} ->
  wp (set_fullReply r) Qn Qr Qt w.
Proof. exact (fun H => H). Qed.

Lemma wp_set_speechBuffer s w :
  Qn tt {| buffer := buffer w; fullReply := fullReply w;
           speechBuffer := s; trace := trace w |} ->
  wp (set_speechBuffer s) Qn Qr Qt w.
Proof. exact (fun H => H). Qed.

End Primitives.

Lemma wp_get_buffer (Qn : jsstring -> World -> Prop) Qr Qt w :
  Qn (buffer w) w -> wp get_buffer Qn Qr Qt w.
Proof. exact (fun H => H). Qed.

Lemma wp_get_fullReply (Qn : jsstring -> World -> Prop) Qr Qt w :
  Qn (fullReply w) w -> wp get_fullReply Qn Qr Qt w.
Proof. exact (fun H => H). Qed.

Lemma wp_get_speechBuffer (Qn : jsstring -> World -> Prop) Qr Qt w :
  Qn (speechBuffer w) w -> wp get_speechBuffer Qn Qr Qt w.
Proof. exact (fun H => H). Qed.

Lemma wp_read_prop parsed key (Qn : option JSON -> World -> Prop) Qr Qt w :
  (forall v, get_prop parsed key = inr v -> Qn v w) ->
  (forall e, get_prop parsed key = inl e -> Qt e w) ->
  wp (read_prop parsed key) Qn Qr Qt w.
Proof.
  unfold wp, read_prop. intros H1 H2.
  destruct (get_prop parsed key); simpl; auto.
Qed.

(* ----------------------------------------------------------------- *)
(** ** Traces *)

Section Traces.

Lemma live_app t u : live (t ++ u) = live t && live u.
Proof. apply forallb_app. Qed.

Lemma channel_app t u : channel (t ++ u) = channel t ++ channel u.
Proof. apply flat_map_app. Qed.

Lemma persisted_app t u : persisted (t ++ u) = persisted t ++ persisted u.
Proof. apply flat_map_app. Qed.

Lemma assistant_writes_app t u :
  assistant_writes (t ++ u) = assistant_writes t ++ assistant_writes u.
Proof. unfold assistant_writes. now rewrite persisted_app, filter_app. Qed.

Lemma reply_of_app t u : reply_of (t ++ u) = reply_of t ++ reply_of u.
Proof. unfold reply_of. now rewrite channel_app, map_app, concat_app. Qed.

Lemma live_no_terminal t ev :
  live t = true -> In (Wrote ev) t -> is_terminal ev = false.
Proof.
  unfold live. rewrite forallb_forall. intros H Hin.
  apply H in Hin. simpl in Hin. now apply negb_true_iff.
Qed.

Lemma live_not_ended t : live t = true -> ~ In Ended t.
Proof.
  unfold live. rewrite forallb_forall. intros H Hin.
  apply H in Hin. discriminate.
Qed.

(** An effect that is not live, found in a live body followed by a tail,
    lies in the tail. *)
Lemma live_split body : forall tail pre e post,
  live body = true ->
  body ++ tail = pre ++ e :: post ->
  live_effect e = false ->
  exists k, pre = body ++ k /\ tail = k ++ e :: post.
Proof.
  induction body as [|b body IH]; intros tail pre e post Hl Heq He.
  - exists pre. auto.
  - simpl in Hl. apply andb_true_iff in Hl as [Hb Hl].
    destruct pre as [|p pre]; simpl in Heq; inversion Heq; subst.
    + congruence.
    + destruct (IH _ _ _ _ Hl H1 He) as (k & -> & ->).
      exists k. auto.
Qed.

End Traces.

(* ----------------------------------------------------------------- *)
(** ** The invariant of the session *)

Section Invariant.

Variable env : Env.
Variable langCode : jsstring.
Variable speechLang : SpeechLang.

Implicit Types (Qr : World -> Prop) (Qt : Exn -> World -> Prop).

Lemma Inv_record e w :
  Inv env w ->
  live_effect e = true ->
  reply_of [e] = [] ->
  (writes_never_throw env -> assistant_writes [e] = []) ->
  Inv env (record e w).
Proof.
  intros (H1 & H2 & H3) He Hr Ha. unfold Inv, record; simpl.
  rewrite live_app, reply_of_app, assistant_writes_app, H1, H2, Hr.
  simpl. rewrite He, app_nil_r. repeat split; auto.
  intros Hw. now rewrite H3, Ha.
Qed.

Lemma Inv_set_buffer b w :
  Inv env w ->
  Inv env {| buffer := b; fullReply := fullReply w;
             speechBuffer := speechBuffer w; trace := trace w |}.
Proof. exact (fun H => H). Qed.

Lemma Inv_set_speechBuffer s w :
  Inv env w ->
  Inv env {| buffer := buffer w; fullReply := fullReply w;
             speechBuffer := s; trace := trace w |}.
Proof. exact (fun H => H). Qed.

(** Writing a token and appending its text keeps the invariant. *)
Lemma Inv_token token text w :
  to_string token = inr text ->
  Inv env w ->
  Inv env {| buffer := buffer w;
             fullReply := fullReply w ++ text;
             speechBuffer := speechBuffer w;
             trace := trace w ++ [Wrote (EvToken token speechLang)] |}.
Proof.
  intros Ht (H1 & H2 & H3). unfold Inv; simpl.
  rewrite live_app, reply_of_app, assistant_writes_app, H1, H2.
  repeat split.
  - unfold reply_of; simpl. now rewrite Ht, app_nil_r.
  - intros Hw. now rewrite H3.
Qed.

(** Writing a token that has no string adds nothing to the reply. *)
Lemma Inv_token_lost token e w :
  to_string token = inl e ->
  Inv env w ->
  Inv env (record (Wrote (EvToken token speechLang)) w).
Proof.
  intros Ht HI. apply Inv_record; auto.
  unfold reply_of; simpl. now rewrite Ht.
Qed.

(** The steps of the lookup and the lines of the log keep it too. *)
Lemma Inv_extend ctx w :
  forallb context_effect ctx = true -> Inv env w -> Inv env (extend ctx w).
Proof.
  intros Hctx (H1 & H2 & H3). unfold Inv, extend; simpl.
  assert (L : live ctx = true /\ reply_of ctx = [] /\
              assistant_writes ctx = []).
  { clear - Hctx. induction ctx as [|e ctx IH]; simpl in *; [auto|].
    apply andb_true_iff in Hctx as [He Hctx].
    destruct (IH Hctx) as (I1 & I2 & I3).
    destruct e; try discriminate He; simpl; auto. }
  destruct L as (L1 & L2 & L3).
  rewrite live_app, reply_of_app, assistant_writes_app, H1, H2, L1, L2, L3.
  rewrite !app_nil_r. auto.
Qed.

Lemma try_write_Inv ev (Qn : unit -> World -> Prop) Qr Qt w :
  is_terminal ev = false ->
  token_text ev = [] ->
  Inv env w ->
  (forall w', Inv env w' -> Qn tt w') ->
  wp (try_write env ev) Qn Qr Qt w.
Proof.
  intros Hterm Htok HI HQ. unfold try_write.
  apply wp_try_catch, wp_res_write.
  - intros _. apply HQ, Inv_record; auto.
    + simpl. now rewrite Hterm.
    + unfold reply_of; simpl. now rewrite Htok.
  - intros e _. apply wp_ret, HQ, Inv_record; auto.
Qed.

Lemma absorb_speech_Inv text (Qn : unit -> World -> Prop) Qr Qt w :
  Inv env w ->
  (forall w', Inv env w' -> Qn tt w') ->
  wp (absorb_speech env speechLang text) Qn Qr Qt w.
Proof.
  intros HI HQ. unfold absorb_speech.
  apply wp_bind, wp_get_speechBuffer.
  destruct (absorb WORDS_THRESHOLD (speechBuffer w) text) as [groups sb'].
  apply wp_bind, wp_set_speechBuffer.
  eapply wp_mono with (Qn := fun _ => Inv env) (Qr := fun _ => False)
                      (Qt := fun _ _ => False).
  - apply wp_for_each; [|now apply Inv_set_speechBuffer].
    intros g w0 _ Hw0. apply try_write_Inv; auto.
  - intros [] w'. apply HQ.
  - intros w' [].
  - intros e w' [].
Qed.

Lemma flush_speech_Inv (Qn : unit -> World -> Prop) Qr Qt w :
  Inv env w ->
  (forall w', Inv env w' -> Qn tt w') ->
  wp (flush_speech env speechLang) Qn Qr Qt w.
Proof.
  intros HI HQ. unfold flush_speech.
  apply wp_bind, wp_get_speechBuffer.
  destruct (flush (speechBuffer w)) as [[leftover|] sb'].
  - apply wp_bind, try_write_Inv; auto.
    intros w' Hw'. apply wp_set_speechBuffer, HQ.
    now apply Inv_set_speechBuffer.
  - apply wp_ret, HQ, HI.
Qed.

Lemma on_response_Inv response (Qn : unit -> World -> Prop) Qr Qt w :
  Inv env w ->
  (forall w', Inv env w' -> Qn tt w') ->
  (forall e w', Inv env w' -> Qt e w') ->
  wp (on_response env speechLang response) Qn Qr Qt w.
Proof.
  intros HI HQ HT. unfold on_response.
  destruct response as [token|]; [|apply wp_ret, HQ, HI].
  destruct (truthy token); [|apply wp_ret, HQ, HI].
  apply wp_bind, wp_res_write.
  - intros _. apply wp_bind, wp_get_fullReply.
    apply wp_bind. unfold primitive.
    destruct (to_string token) as [e|text] eqn:Ht.
    + apply wp_throw, HT. now apply (Inv_token_lost token e).
    + apply wp_ret, wp_bind, wp_set_fullReply.
      apply absorb_speech_Inv; [|exact HQ].
      exact (Inv_token token text w Ht HI).
  - intros e _. apply HT, Inv_record; auto.
Qed.

Lemma snoc3 {X} (t : list X) a b c :
  ((t ++ [a]) ++ [b]) ++ [c] = t ++ [a; b; c].
Proof. now rewrite <- !app_assoc. Qed.

Lemma snoc2 {X} (t : list X) a b : (t ++ [a]) ++ [b] = t ++ [a; b].
Proof. now rewrite <- !app_assoc. Qed.

Lemma on_done_Inv done (Qn : unit -> World -> Prop) Qr Qt w :
  Inv env w ->
  (forall w', Inv env w' -> Qn tt w') ->
  (forall w', Closing env langCode Returned (trace w') -> Qr w') ->
  (forall e w', Inv env w' -> Qt e w') ->
  wp (on_done env langCode speechLang done) Qn Qr Qt w.
Proof.
  intros HI HQ HR HT. unfold on_done.
  destruct (is_truthy done); [|apply wp_ret, HQ, HI].
  apply wp_bind, flush_speech_Inv; [exact HI|].
  intros w0 H0. apply wp_bind, wp_get_fullReply.
  apply wp_bind, wp_Message_create.
  - intros _ _. apply wp_bind, wp_res_write.
    + intros _. apply wp_bind, wp_res_end, wp_return, HR.
      simpl. rewrite snoc3.
      destruct H0 as (L & F & P). rewrite F.
      now apply ClosedByDone.
    + intros e He. apply HT.
      destruct H0 as (L & F & P). unfold Inv; simpl.
      rewrite snoc2, live_app, reply_of_app, L, F.
      repeat split.
      * unfold reply_of; simpl. now rewrite app_nil_r.
      * intros Hw. rewrite Hw in He. discriminate.
  - intros e. apply HT, Inv_record; auto.
Qed.

Lemma handle_part_Inv part (Qn : unit -> World -> Prop) Qr Qt w :
  Inv env w ->
  (forall w', Inv env w' -> Qn tt w') ->
  (forall w', Closing env langCode Returned (trace w') -> Qr w') ->
  wp (handle_part env langCode speechLang part) Qn Qr Qt w.
Proof.
  intros HI HQ HR. unfold handle_part.
  destruct (is_empty (trim part)); [apply wp_ret, HQ, HI|].
  assert (Hcatch : forall (e : Exn) w', Inv env w' ->
            wp (effect (Warned (trim part))) Qn Qr Qt w').
  { intros e w' Hw'. apply wp_effect, HQ, Inv_record; auto. }
  apply wp_try_catch.
  destruct (JSON_parse env (trim part)) as [parsed|];
    [|apply wp_throw, (Hcatch (js "Unexpected token in JSON")), HI].
  apply wp_bind, wp_read_prop; [|intros e _; apply (Hcatch e), HI].
  intros response _.
  apply wp_bind, on_response_Inv; [exact HI | | exact Hcatch].
  intros w1 H1.
  apply wp_bind, wp_read_prop; [|intros e _; apply (Hcatch e), H1].
  intros done _.
  apply on_done_Inv; auto.
Qed.

Lemma handle_chunk_Inv chunkText (Qn : unit -> World -> Prop) Qr Qt w :
  Inv env w ->
  (forall w', Inv env w' -> Qn tt w') ->
  (forall w', Closing env langCode Returned (trace w') -> Qr w') ->
  wp (handle_chunk env langCode speechLang chunkText) Qn Qr Qt w.
Proof.
  intros HI HQ HR. unfold handle_chunk.
  apply wp_bind, wp_get_buffer.
  destruct (decode (buffer w) chunkText) as [parts b'].
  apply wp_bind, wp_set_buffer.
  eapply wp_mono with (Qn := fun _ => Inv env)
                      (Qr := fun w' => Closing env langCode Returned (trace w'))
                      (Qt := fun _ _ => False).
  - apply wp_for_each; [|now apply Inv_set_buffer].
    intros p w0 _ Hw0. apply handle_part_Inv; auto.
  - intros [] w'. apply HQ.
  - exact HR.
  - intros e w' [].
Qed.

Lemma read_body_Inv chunks io_error (Qn : unit -> World -> Prop) Qr Qt w :
  Inv env w ->
  (forall w', Inv env w' -> Qn tt w') ->
  (forall w', Closing env langCode Returned (trace w') -> Qr w') ->
  (forall e w', Inv env w' -> Qt e w') ->
  wp (read_body env langCode speechLang chunks io_error) Qn Qr Qt w.
Proof.
  intros HI HQ HR HT. unfold read_body. apply wp_bind.
  eapply wp_mono with (Qn := fun _ => Inv env)
                      (Qr := fun w' => Closing env langCode Returned (trace w'))
                      (Qt := fun _ _ => False).
  - apply wp_for_each; [|exact HI].
    intros c w0 _ Hw0. apply handle_chunk_Inv; auto.
  - intros [] w' Hw'. destruct io_error as [e|].
    + apply wp_throw, HT, Hw'.
    + apply wp_ret, HQ, Hw'.
  - exact HR.
  - intros e w' [].
Qed.

Lemma trailing_fragment_Inv (Qn : unit -> World -> Prop) Qr Qt w :
  Inv env w ->
  (forall w', Inv env w' -> Qn tt w') ->
  wp (trailing_fragment env speechLang) Qn Qr Qt w.
Proof.
  intros HI HQ. unfold trailing_fragment.
  apply wp_bind, wp_get_buffer.
  destruct (is_empty (buffer w)); [apply wp_ret, HQ, HI|].
  assert (Hcatch : forall w', Inv env w' -> wp (ret tt) Qn Qr Qt w').
  { intros w' Hw'. apply wp_ret, HQ, Hw'. }
  apply wp_try_catch.
  destruct (JSON_parse env (buffer w)) as [parsed|];
    [|apply wp_throw, Hcatch, HI].
  apply wp_bind, wp_read_prop; [|intros e _; apply Hcatch, HI].
  intros response _.
  assert (Hdone : forall w', Inv env w' ->
            wp (_ <- read_prop parsed (js "done") ;; ret tt) Qn Qr
               (fun _ w'' => wp (ret tt) Qn Qr Qt w'') w').
  { intros w' Hw'. apply wp_bind, wp_read_prop.
    - intros v _. apply wp_ret, HQ, Hw'.
    - intros e _. apply Hcatch, Hw'. }
  apply wp_bind.
  destruct response as [token|]; [|apply wp_ret, Hdone, HI].
  destruct (truthy token); [|apply wp_ret, Hdone, HI].
  apply wp_bind, wp_res_write.
  - intros _. apply wp_bind, wp_get_fullReply.
    apply wp_bind. unfold primitive.
    destruct (to_string token) as [e|text] eqn:Ht.
    + apply wp_throw, Hcatch. now apply (Inv_token_lost token e).
    + apply wp_ret, wp_bind, wp_set_fullReply.
      apply wp_bind, wp_get_speechBuffer.
      apply wp_set_speechBuffer, Hdone.
      apply (Inv_token token text w Ht HI).
  - intros e _. apply Hcatch, Inv_record; auto.
Qed.

Lemma end_of_stream_Inv (Qn : unit -> World -> Prop) Qr Qt w :
  Inv env w ->
  (forall w', Closing env langCode (Normal tt) (trace w') -> Qn tt w') ->
  (forall e w', Inv env w' -> Qt e w') ->
  wp (end_of_stream env langCode speechLang) Qn Qr Qt w.
Proof.
  intros HI HQ HT. unfold end_of_stream.
  apply wp_bind, trailing_fragment_Inv; [exact HI|].
  intros w1 H1. apply wp_bind, flush_speech_Inv; [exact H1|].
  intros w2 H2. apply wp_bind, wp_get_fullReply.
  destruct H2 as (L & F & P).
  destruct (is_empty (fullReply w2)) eqn:E; apply wp_bind.
  - apply wp_ret, wp_res_end, HQ. simpl.
    apply ClosedAtEndEmpty; auto.
    rewrite <- F. now apply is_empty_true.
  - apply wp_Message_create.
    + intros _ _. apply wp_res_end, HQ. simpl. rewrite snoc2, F.
      apply ClosedAtEnd; auto.
      rewrite <- F. now apply is_empty_false.
    + intros e. apply HT, Inv_record; unfold Inv; auto.
Qed.

Lemma stream_try_Inv req backend (Qn : unit -> World -> Prop) Qr Qt w :
  langCode = detect_language env req ->
  speechLang = francToSpeechLang langCode ->
  Inv env w ->
  (forall w', Closing env langCode (Normal tt) (trace w') -> Qn tt w') ->
  (forall w', Closing env langCode Returned (trace w') -> Qr w') ->
  (forall e w', Inv env w' -> Qt e w') ->
  wp (stream_try env req backend) Qn Qr Qt w.
Proof.
  intros HlangCode HspeechLang HI HQ HR HT. unfold stream_try.
  apply wp_bind. unfold language_code.
  destruct (override_throws req); [apply wp_throw, HT, HI|].
  apply wp_ret. rewrite <- HlangCode, <- HspeechLang.
  apply wp_bind, wp_Message_create.
  - intros _ _.
    assert (H1 : Inv env (record (Created {| text := trimmed_prompt req;
                                             role := User;
                                             language := langCode |}) w))
      by (apply Inv_record; auto).
    apply wp_bind, wp_build_context;
      [|intros e ctx Hctx; now apply HT, Inv_extend].
    intros ctx Hctx.
    apply wp_bind. unfold fetch_backend.
    apply wp_bind, wp_effect.
    assert (H2 : Inv env (record Fetched (extend ctx (record (Created
                   {| text := trimmed_prompt req; role := User;
                      language := langCode |}) w))))
      by (apply Inv_record; auto; now apply Inv_extend).
    destruct backend as [e|ok status chunks io_error].
    + apply wp_throw, HT, H2.
    + destruct ok; [|apply wp_throw, HT, H2].
      apply wp_ret. simpl fst; simpl snd.
      apply wp_bind, read_body_Inv; auto.
      intros w' Hw'. apply end_of_stream_Inv; auto.
  - intros e. apply HT, Inv_record; auto.
Qed.

Lemma stream_catch_Inv err w :
  Inv env w ->
  wp (stream_catch env err)
     (fun _ w' => Closing env langCode (Normal tt) (trace w'))
     (fun _ => False)
     (fun e w' => Closing env langCode (Thrown e) (trace w')) w.
Proof.
  intros HI. unfold stream_catch.
  assert (H1 : Inv env (record (LoggedError err) w))
    by (apply Inv_record; auto).
  destruct H1 as (L & F & P).
  apply wp_bind, wp_effect, wp_bind, wp_res_write.
  - intros _. apply wp_res_end. simpl. rewrite snoc2.
    now apply ClosedByError.
  - intros e He. simpl. apply Unhandled.
    + simpl in L. rewrite live_app, L. reflexivity.
    + intros Hw. rewrite Hw in He. discriminate.
Qed.

Lemma Inv_init : Inv env init.
Proof. unfold Inv; simpl; auto. Qed.

End Invariant.

(** On a prompt that is not a string, and not missing, the guard throws
    before any effect. *)
Lemma guard_throws env req backend e :
  prompt_trim req = inl e -> session env req backend = (Thrown e, init).
Proof.
  intros He. unfold session, stream, bind, guard_prompt. now rewrite He.
Qed.

(** Every other session ends in one of the ways of [Closing]. *)
Lemma session_closing env req backend :
  (exists e, prompt_trim req = inl e /\
             session env req backend = (Thrown e, init)) \/
  ((forall e, prompt_trim req <> inl e) /\
   Closing env (detect_language env req)
     (fst (session env req backend)) (session_trace env req backend)).
Proof.
  destruct (prompt_trim req) as [e0|trimmed] eqn:Hp.
  { left. exists e0. split; [reflexivity|]. now apply guard_throws. }
  right. split; [discriminate|].
  unfold session_trace, session.
  set (langCode := detect_language env req).
  assert (H : wp (stream env req backend)
                 (fun u w' => Closing env langCode (Normal u) (trace w'))
                 (fun w' => Closing env langCode Returned (trace w'))
                 (fun e w' => Closing env langCode (Thrown e) (trace w'))
                 init).
  { unfold stream. apply wp_bind. unfold guard_prompt. rewrite Hp.
    destruct (blank_prompt req).
    - apply wp_bind, wp_res_write.
      + intros _. apply wp_bind, wp_res_end, wp_return. simpl.
        apply ClosedByGuard.
      + intros e He. simpl. apply (Unhandled env langCode [_] e).
        * reflexivity.
        * intros Hw. rewrite Hw in He. discriminate.
    - apply wp_ret, wp_try_catch.
      apply stream_try_Inv with (langCode := langCode)
                                (speechLang := francToSpeechLang langCode).
      + reflexivity.
      + reflexivity.
      + apply Inv_init.
      + intros w' Hw'. exact Hw'.
      + intros w' Hw'. exact Hw'.
      + intros e w' Hw'.
        eapply wp_mono;
          [ apply stream_catch_Inv, Hw'
          | intros [] w'' H; exact H
          | intros w'' []
          | intros e' w'' H; exact H ]. }
  unfold wp in H.
  destruct (stream env req backend init) as [[[]| |e] w']; exact H.
Qed.

(* ----------------------------------------------------------------- *)
(** ** Order of the effects and persistence of the reply *)

Section Sessions.

Variable env : Env.
Variable req : Request.
Variable backend : FetchResult.

Let t := session_trace env req backend.
Let langCode := detect_language env req.

Ltac tail_cases :=
  repeat match goal with
  | H : [] = ?k ++ _ :: _ |- _ => destruct k; discriminate H
  | H : _ :: _ = ?k ++ _ :: _ |- _ =>
      destruct k as [|? k]; simpl in H; inversion H; subst; try clear H
  end.

Lemma nothing_after_terminal body tail pre ev post :
  live body = true ->
  is_terminal ev = true ->
  body ++ tail = pre ++ Wrote ev :: post ->
  exists k, tail = k ++ Wrote ev :: post.
Proof.
  intros L T E.
  destruct (live_split body tail pre (Wrote ev) post L E) as (k & _ & Hk).
  - simpl. now rewrite T.
  - now exists k.
Qed.

Lemma nothing_after_end body tail pre post :
  live body = true ->
  body ++ tail = pre ++ Ended :: post ->
  exists k, tail = k ++ Ended :: post.
Proof.
  intros L E.
  destruct (live_split body tail pre Ended post L E) as (k & _ & Hk).
  - reflexivity.
  - now exists k.
Qed.

(** C6. In every session, a terminal event (done or error) that is
    written is followed by nothing but the close of the channel, so every
    token and sentence-group event is written before it; and the close is
    the last effect of the session, so every persistence write comes
    before it. *)
Theorem effects_in_order :
  (forall pre ev post,
     t = pre ++ Wrote ev :: post -> is_terminal ev = true -> post = [Ended]) /\
  (forall pre post, t = pre ++ Ended :: post -> post = []) /\
  (forall pre m post, t = pre ++ Created m :: post -> ~ In Ended pre).
Proof.
  assert (H1 : forall pre ev post,
             t = pre ++ Wrote ev :: post -> is_terminal ev = true ->
             post = [Ended]).
  { intros pre ev post E T. subst t.
    destruct (session_closing env req backend) as [(e0 & _ & G)|[_ C]].
    { unfold session_trace in E. rewrite G in E.
      destruct pre; discriminate E. }
    rewrite E in C. remember (pre ++ Wrote ev :: post) as tr eqn:Etr.
    destruct C as [|body L _|body L _ _|body L _ _|body msg L _|body e L _].
    - destruct (nothing_after_terminal [] _ pre ev post eq_refl T Etr)
        as (k & Hk).
      tail_cases; reflexivity.
    - destruct (nothing_after_terminal body _ pre ev post L T Etr)
        as (k & Hk).
      tail_cases; reflexivity.
    - destruct (nothing_after_terminal body _ pre ev post L T Etr)
        as (k & Hk).
      tail_cases.
    - destruct (nothing_after_terminal body _ pre ev post L T Etr)
        as (k & Hk).
      tail_cases.
    - destruct (nothing_after_terminal body _ pre ev post L T Etr)
        as (k & Hk).
      tail_cases; reflexivity.
    - rewrite <- (app_nil_r body) in Etr.
      destruct (nothing_after_terminal body _ pre ev post L T Etr)
        as (k & Hk).
      tail_cases. }
  assert (H2 : forall pre post, t = pre ++ Ended :: post -> post = []).
  { intros pre post E. subst t.
    destruct (session_closing env req backend) as [(e0 & _ & G)|[_ C]].
    { unfold session_trace in E. rewrite G in E.
      destruct pre; discriminate E. }
    rewrite E in C. remember (pre ++ Ended :: post) as tr eqn:Etr.
    destruct C as [|body L _|body L _ _|body L _ _|body msg L _|body e L _].
    - destruct (nothing_after_end [] _ pre post eq_refl Etr) as (k & Hk).
      tail_cases; reflexivity.
    - destruct (nothing_after_end body _ pre post L Etr) as (k & Hk).
      tail_cases; reflexivity.
    - destruct (nothing_after_end body _ pre post L Etr) as (k & Hk).
      tail_cases; reflexivity.
    - destruct (nothing_after_end body _ pre post L Etr) as (k & Hk).
      tail_cases; reflexivity.
    - destruct (nothing_after_end body _ pre post L Etr) as (k & Hk).
      tail_cases; reflexivity.
    - rewrite <- (app_nil_r body) in Etr.
      destruct (nothing_after_end body _ pre post L Etr) as (k & Hk).
      tail_cases. }
  split; [exact H1|]. split; [exact H2|].
  intros pre m post E Hin.
  apply in_split in Hin as (p1 & p2 & ->).
  rewrite <- app_assoc in E. simpl in E.
  apply H2 in E. destruct p2; discriminate.
Qed.

Lemma terminal_in_tail body tail ev :
  live body = true ->
  is_terminal ev = true ->
  In (Wrote ev) (body ++ tail) -> In (Wrote ev) tail.
Proof.
  intros L T Hin. apply in_app_or in Hin as [Hin|Hin]; [|exact Hin].
  apply (live_no_terminal _ _ L) in Hin. congruence.
Qed.

Lemma reply_message_tail lc body tail :
  reply_of tail = [] ->
  reply_message lc (body ++ tail) = reply_message lc body.
Proof.
  intros H. unfold reply_message. now rewrite reply_of_app, H, app_nil_r.
Qed.

Ltac in_tail L H :=
  apply terminal_in_tail in H;
  [ simpl in H;
    repeat (destruct H as [H|H]; try discriminate H); try contradiction
  | exact L
  | reflexivity ].

(** C2, as amended.  When no channel write throws, a session stores the
    reply at most once.  It stores it exactly once, with the text of the
    tokens written (of those whose value has a string), when it ends on a
    done record; it stores nothing when it ends on an error; and when the
    body ends without a done record and without error it stores the reply
    exactly when that text is not empty.  It closes the channel, unless the
    prompt is a value that is not a string: the guard of the prompt then
    throws before any effect, and nothing is stored, written or closed. *)
Theorem reply_stored_at_most_once :
  writes_never_throw env ->
  length (assistant_writes t) <= 1 /\
  (forall e, prompt_trim req = inl e ->
     session env req backend = (Thrown e, init)) /\
  ((forall e, prompt_trim req <> inl e) -> In Ended t) /\
  (In (Wrote EvDone) t ->
   assistant_writes t = [reply_message langCode t]) /\
  ((exists msg, In (Wrote (EvError msg)) t) -> assistant_writes t = []) /\
  (~ In (Wrote EvDone) t ->
   ~ (exists msg, In (Wrote (EvError msg)) t) ->
   assistant_writes t =
     if is_empty (reply_of t) then [] else [reply_message langCode t]).
Proof.
  intros W.
  split; [|split; [intros e; apply guard_throws|]]; subst t langCode.
  - destruct (session_closing env req backend) as [(e0 & _ & G)|[_ C]].
    { unfold session_trace. rewrite G. simpl. auto. }
    destruct C as [|body L A|body L A R|body L A R|body msg L A|body e L A];
      try (rewrite assistant_writes_app, (A W); simpl; auto).
    + simpl; auto.
    + contradiction.
  - destruct (session_closing env req backend) as [(e0 & He & G)|[_ C]].
    { unfold session_trace. rewrite G. simpl.
      split; [intros H; now elim (H e0)|].
      split; [intros []|]. split; reflexivity. }
    destruct C as [|body L A|body L A R|body L A R|body msg L A|body e L A].
    + simpl. split; [|split; [|split]].
      * auto.
      * intros [H|[H|[]]]; discriminate.
      * reflexivity.
      * intros _ H. exfalso. apply H. eexists. left. reflexivity.
    + specialize (A W).
      rewrite assistant_writes_app, A, reply_message_tail by reflexivity.
      simpl. split; [|split; [|split]].
      * intros _. apply in_or_app. right. simpl. auto.
      * reflexivity.
      * intros [msg H]. in_tail L H.
      * intros H. exfalso. apply H, in_or_app. right. simpl. auto.
    + specialize (A W).
      rewrite assistant_writes_app, A, reply_message_tail by reflexivity.
      rewrite reply_of_app. simpl. rewrite app_nil_r.
      apply is_empty_false in R. rewrite R.
      split; [|split; [|split]].
      * intros _. apply in_or_app. right. simpl. auto.
      * intros H. in_tail L H.
      * intros [msg H]. in_tail L H.
      * reflexivity.
    + specialize (A W).
      rewrite assistant_writes_app, A, reply_of_app, R. simpl.
      split; [|split; [|split]].
      * intros _. apply in_or_app. right. simpl. auto.
      * intros H. in_tail L H.
      * reflexivity.
      * reflexivity.
    + specialize (A W).
      rewrite assistant_writes_app, A. simpl.
      split; [|split; [|split]].
      * intros _. apply in_or_app. right. simpl. auto.
      * intros H. in_tail L H.
      * reflexivity.
      * intros _ H. exfalso. apply H. exists msg.
        apply in_or_app. right. simpl. auto.
    + contradiction.
Qed.

(** C1, as amended.  When no channel write throws and a session ends on
    an error, the error event and the close of the channel are its last
    effects and the reply is not stored, whatever text had been
    accumulated: the reply is stored only on a done record and at the end
    of the body. *)
Theorem failed_session_stores_no_reply (msg : jsstring) :
  writes_never_throw env ->
  In (Wrote (EvError msg)) t ->
  assistant_writes t = [] /\
  exists body, t = body ++ [Wrote (EvError msg); Ended] /\ live body = true.
Proof.
  intros W Hin. subst t langCode.
  destruct (session_closing env req backend) as [(e0 & _ & G)|[_ C]].
  { unfold session_trace in Hin. rewrite G in Hin. contradiction. }
  destruct C as [|body L A|body L A R|body L A R|body msg' L A|body e L A].
  - simpl in Hin. destruct Hin as [H|[H|[]]]; [|discriminate].
    inversion H; subst. split; [reflexivity|]. exists []. auto.
  - in_tail L Hin.
  - in_tail L Hin.
  - in_tail L Hin.
  - specialize (A W). rewrite assistant_writes_app, A.
    split; [reflexivity|].
    apply terminal_in_tail in Hin; [|exact L|reflexivity]. simpl in Hin.
    destruct Hin as [H|[H|[]]]; [|discriminate].
    inversion H; subst. exists body. auto.
  - contradiction.
Qed.

End Sessions.

(* ----------------------------------------------------------------- *)
(** ** Sessions that fail: what the trace shows *)

Section FailedSessions.

Lemma quiet_never_throws : writes_never_throw quiet.
Proof. intros t ev. reflexivity. Qed.

Lemma failed_session_stores_no_reply_witness :
  writes_never_throw quiet /\
  In (Wrote (EvError (js "socket hang up")))
     (session_trace quiet (ask "hi")
        (broken_body [response_frame "Hello " ++ [LF]] "socket hang up")) /\
  assistant_writes
    (session_trace quiet (ask "hi")
       (broken_body [response_frame "Hello " ++ [LF]] "socket hang up")) = [] /\
  exists body,
    session_trace quiet (ask "hi")
      (broken_body [response_frame "Hello " ++ [LF]] "socket hang up")
    = body ++ [Wrote (EvError (js "socket hang up")); Ended] /\
    live body = true.
Proof.
  pose proof quiet_never_throws as W.
  assert (I : In (Wrote (EvError (js "socket hang up")))
                (session_trace quiet (ask "hi")
                   (broken_body [response_frame "Hello " ++ [LF]]
                                "socket hang up"))).
  { vm_compute. do 6 right. left. reflexivity. }
  split; [exact W|]. split; [exact I|].
  exact (failed_session_stores_no_reply quiet (ask "hi")
           (broken_body [response_frame "Hello " ++ [LF]] "socket hang up")
           (js "socket hang up") W I).
Defined.

(** C1, as stated, fails: the body gives the token "Hello " and then its
    reading fails; the session writes the error event and closes the
    channel, and the text accumulated is stored nowhere. *)
Lemma failed_session_counterexample :
  let t := session_trace quiet (ask "hi")
             (broken_body [response_frame "Hello " ++ [LF]] "socket hang up") in
  t = saved User "hi" :: announced ++ [Fetched; sent "en-US" "Hello ";
       LoggedError (js "socket hang up");
       Wrote (EvError (js "socket hang up")); Ended] /\
  reply_of t = js "Hello " /\
  ~ (exists m, In (Created m) t /\ role m = Assistant).
Proof.
  vm_compute. split; [reflexivity|]. split; [reflexivity|].
  intros (m & Hin & R).
  repeat (destruct Hin as [Hin|Hin];
          [first [discriminate Hin | inversion Hin; subst; discriminate R]|]).
  contradiction.
Qed.

Lemma reply_stored_at_most_once_witness :
  writes_never_throw quiet /\
  let body := ok_body [response_frame "Hello " ++ [LF]
                       ++ response_frame "world"] in
  let t := session_trace quiet (ask "hi") body in
  assistant_writes t =
    [{| text := js "Hello world"; role := Assistant; language := js "eng" |}]
  /\
  length (assistant_writes t) <= 1 /\
  (forall e, prompt_trim (ask "hi") = inl e ->
     session quiet (ask "hi") body = (Thrown e, init)) /\
  ((forall e, prompt_trim (ask "hi") <> inl e) -> In Ended t) /\
  (In (Wrote EvDone) t ->
   assistant_writes t =
     [reply_message (detect_language quiet (ask "hi")) t]) /\
  ((exists msg, In (Wrote (EvError msg)) t) -> assistant_writes t = []) /\
  (~ In (Wrote EvDone) t ->
   ~ (exists msg, In (Wrote (EvError msg)) t) ->
   assistant_writes t =
     if is_empty (reply_of t) then []
     else [reply_message (detect_language quiet (ask "hi")) t]).
Proof.
  split; [exact quiet_never_throws|]. split; [vm_compute; reflexivity|].
  exact (reply_stored_at_most_once quiet (ask "hi")
           (ok_body [response_frame "Hello " ++ [LF]
                     ++ response_frame "world"])
           quiet_never_throws).
Defined.

(** A token that cannot be turned into a string: it is written on the
    channel, the append to FullReply throws and is caught with the parse
    failures, and the reply stored at the done record is the text of the
    other token. *)
Example member_token_session :
  session_trace quiet_members (ask "hi")
    (ok_body [member_frame ++ [LF] ++ response_frame "ok" ++ [LF]
              ++ done_frame ++ [LF]]) =
  saved User "hi" :: announced ++
  [Fetched; Wrote (EvToken member_token (Locale (js "en-US")));
   Warned member_frame; sent "en-US" "ok"; spoke "en-US" "ok";
   saved Assistant "ok"; Wrote EvDone; Ended].
Proof. vm_compute. reflexivity. Qed.

(** The session of that witness: the body ends without a done record and
    the reply is stored once, with the text of the two tokens. *)
Example reply_stored_at_end :
  session_trace quiet (ask "hi")
    (ok_body [response_frame "Hello " ++ [LF] ++ response_frame "world"]) =
  saved User "hi" :: announced ++
  [Fetched; sent "en-US" "Hello "; sent "en-US" "world";
   spoke "en-US" "Hello world"; saved Assistant "Hello world"; Ended].
Proof. vm_compute. reflexivity. Qed.

(** A prompt that is a number: the guard throws, and the session has no
    effect at all. *)
Example number_prompt_session :
  session quiet
    {| prompt := Some (JNum (js "5") true); location := None;
       langOverride := None |}
    (ok_body [done_frame ++ [LF]]) =
  (Thrown NOT_A_FUNCTION, init).
Proof. reflexivity. Qed.

(** C2, as stated, fails: after two tokens the reading of the body
    fails; an error occurred and the reply is not empty, yet it is stored
    zero times. *)
Lemma reply_stored_counterexample :
  let t := session_trace quiet (ask "hi")
             (broken_body [response_frame "Hello " ++ [LF]
                           ++ response_frame "world"; [LF]] "terminated") in
  t = saved User "hi" :: announced ++ [Fetched; sent "en-US" "Hello "; sent "en-US" "world";
       LoggedError (js "terminated");
       Wrote (EvError (js "terminated")); Ended] /\
  reply_of t = js "Hello world" /\
  length (assistant_writes t) <> 1.
Proof.
  vm_compute. split; [reflexivity|]. split; [reflexivity|]. discriminate.
Qed.

End FailedSessions.

(* ----------------------------------------------------------------- *)
(** ** Channel writes that throw *)

Section WriteFailures.

Variable env : Env.
Variable langCode : jsstring.
Variable speechLang : SpeechLang.

Let never_leaves (m : M unit) : Prop :=
  forall w, wp m (fun _ _ => True) (fun _ => False) (fun _ _ => False) w.

Lemma try_write_total ev : never_leaves (try_write env ev).
Proof.
  intros w. unfold try_write.
  apply wp_try_catch, wp_res_write; [exact (fun _ => I)|].
  intros e _. exact I.
Qed.

Lemma absorb_speech_total text :
  never_leaves (absorb_speech env speechLang text).
Proof.
  intros w. unfold absorb_speech.
  apply wp_bind, wp_get_speechBuffer.
  destruct (absorb WORDS_THRESHOLD (speechBuffer w) text) as [groups sb'].
  apply wp_bind, wp_set_speechBuffer.
  apply (wp_for_each groups _ (fun _ => True)); [|exact I].
  intros g w0 _ _. apply try_write_total.
Qed.

Lemma flush_speech_total : never_leaves (flush_speech env speechLang).
Proof.
  intros w. unfold flush_speech.
  apply wp_bind, wp_get_speechBuffer.
  destruct (flush (speechBuffer w)) as [[leftover|] sb']; [|exact I].
  apply wp_bind.
  eapply wp_mono; [apply try_write_total | | auto | auto].
  intros u w' _. exact I.
Qed.

Lemma handle_part_total part w :
  wp (handle_part env langCode speechLang part)
     (fun _ _ => True) (fun _ => True) (fun _ _ => False) w.
Proof.
  unfold handle_part.
  destruct (is_empty (trim part)); [exact I|].
  apply wp_try_catch.
  eapply wp_mono; [apply wp_trivial | auto | auto |].
  intros e w' _. exact I.
Qed.

Lemma trailing_fragment_total :
  never_leaves (trailing_fragment env speechLang).
Proof.
  intros w. unfold trailing_fragment.
  apply wp_bind, wp_get_buffer.
  destruct (is_empty (buffer w)); [exact I|].
  apply wp_try_catch.
  destruct (JSON_parse env (buffer w)) as [parsed|]; [|exact I].
  apply wp_bind, wp_read_prop; [|intros e _; exact I].
  intros response _.
  assert (Hdone : forall w',
            wp (_ <- read_prop parsed (js "done") ;; ret tt)
               (fun _ _ => True) (fun _ => False)
               (fun _ w'' => wp (ret tt) (fun _ _ => True) (fun _ => False)
                                (fun _ _ => False) w'') w').
  { intros w'. apply wp_bind, wp_read_prop; intros; exact I. }
  apply wp_bind.
  destruct response as [token|]; [|apply wp_ret, Hdone].
  destruct (truthy token); [|apply wp_ret, Hdone].
  apply wp_bind, wp_res_write; [|intros e _; exact I].
  intros _. apply wp_bind, wp_get_fullReply.
  apply wp_bind. unfold primitive.
  destruct (to_string token) as [e|text]; [exact I|].
  apply wp_ret, wp_bind, wp_set_fullReply.
  apply wp_bind, wp_get_speechBuffer.
  apply wp_set_speechBuffer, Hdone.
Qed.

(** The writes of the groups in the loop: each group is written, or its
    write throws, and nothing else is done. *)
Lemma speak_groups groups : forall w,
  exists es,
    for_each groups
      (fun g => try_write env (EvSentencePartial g speechLang)) w =
      (Normal tt, extend es w) /\
    Forall2 (fun g e => e = Wrote (EvSentencePartial g speechLang) \/
                        e = WriteThrew (EvSentencePartial g speechLang))
            groups es.
Proof.
  induction groups as [|g groups IH]; intros w; simpl.
  - exists []. split; [|constructor].
    unfold ret, extend. rewrite app_nil_r. now destruct w.
  - assert (Hw : try_write env (EvSentencePartial g speechLang) w =
                   (Normal tt, record (Wrote (EvSentencePartial g speechLang)) w)
                 \/ try_write env (EvSentencePartial g speechLang) w =
                   (Normal tt,
                    record (WriteThrew (EvSentencePartial g speechLang)) w)).
    { unfold try_write, try_catch, res_write.
      destruct (res_write_throws env (trace w)
                  (EvSentencePartial g speechLang)); auto. }
    unfold bind. destruct Hw as [Hw|Hw]; rewrite Hw.
    + destruct (IH (record (Wrote (EvSentencePartial g speechLang)) w))
        as (es & Hrun & Hes).
      exists (Wrote (EvSentencePartial g speechLang) :: es).
      split; [|constructor; auto].
      rewrite Hrun. unfold extend, record. simpl. now rewrite <- app_assoc.
    + destruct (IH (record (WriteThrew (EvSentencePartial g speechLang)) w))
        as (es & Hrun & Hes).
      exists (WriteThrew (EvSentencePartial g speechLang) :: es).
      split; [|constructor; auto].
      rewrite Hrun. unfold extend, record. simpl. now rewrite <- app_assoc.
Qed.

Lemma never_leaves_Normal (m : M unit) w :
  never_leaves m -> fst (m w) = Normal tt.
Proof.
  intros H. specialize (H w). unfold wp in H.
  destruct (m w) as [[[]| |e] w']; simpl; [reflexivity | | ]; contradiction.
Qed.

(** C7, as amended.  A channel write that throws on a token or on a
    sentence group never reaches the session's error path: the handling of
    a record never throws, and neither do the flush of the speech buffer
    and the handling of the trailing fragment.  Only the throwing write of
    a token in the read loop is logged, through the warning of the parse
    failure, and the text of that record is then not accumulated.  The
    throwing write of a sentence group, in the loop of the groups and in
    the flush, is swallowed and nothing is logged: the loop of the groups
    leaves in the trace the writes of its groups, done or thrown, and
    nothing else.  So is the throwing write of the token of the trailing
    fragment, whose text is not accumulated either. *)
Theorem write_failure_not_fatal :
  (forall part w e,
     fst (handle_part env langCode speechLang part w) <> Thrown e) /\
  (forall w, fst (flush_speech env speechLang w) = Normal tt) /\
  (forall w, fst (trailing_fragment env speechLang w) = Normal tt) /\
  (forall g w e,
     res_write_throws env (trace w) (EvSentencePartial g speechLang) = Some e ->
     try_write env (EvSentencePartial g speechLang) w =
       (Normal tt, record (WriteThrew (EvSentencePartial g speechLang)) w)) /\
  (forall text w,
   exists es,
     absorb_speech env speechLang text w =
       (Normal tt,
        {| buffer := buffer w; fullReply := fullReply w;
           speechBuffer := snd (absorb WORDS_THRESHOLD (speechBuffer w) text);
           trace := trace w ++ es |}) /\
     Forall2 (fun g e => e = Wrote (EvSentencePartial g speechLang) \/
                         e = WriteThrew (EvSentencePartial g speechLang))
             (fst (absorb WORDS_THRESHOLD (speechBuffer w) text)) es) /\
  (forall w leftover sb e,
     flush (speechBuffer w) = (Some leftover, sb) ->
     res_write_throws env (trace w) (EvSentencePartial leftover speechLang)
       = Some e ->
     flush_speech env speechLang w =
       (Normal tt,
        {| buffer := buffer w; fullReply := fullReply w; speechBuffer := sb;
           trace := trace w
                    ++ [WriteThrew (EvSentencePartial leftover speechLang)] |}))
  /\
  (forall part parsed token w e,
     is_empty (trim part) = false ->
     JSON_parse env (trim part) = Some parsed ->
     get_prop parsed (js "response") = inr (Some token) ->
     truthy token = true ->
     res_write_throws env (trace w) (EvToken token speechLang) = Some e ->
     handle_part env langCode speechLang part w =
       (Normal tt,
        record (Warned (trim part))
               (record (WriteThrew (EvToken token speechLang)) w))) /\
  (forall parsed token w e,
     is_empty (buffer w) = false ->
     JSON_parse env (buffer w) = Some parsed ->
     get_prop parsed (js "response") = inr (Some token) ->
     truthy token = true ->
     res_write_throws env (trace w) (EvToken token speechLang) = Some e ->
     trailing_fragment env speechLang w =
       (Normal tt, record (WriteThrew (EvToken token speechLang)) w)).
Proof.
  split; [|split; [|split; [|split; [|split; [|split; [|split]]]]]].
  - intros part w e H.
    pose proof (handle_part_total part w) as T. unfold wp in T.
    destruct (handle_part env langCode speechLang part w) as [[u| |e'] w'];
      simpl in H; [discriminate | discriminate | exact T].
  - intros w. apply never_leaves_Normal, flush_speech_total.
  - intros w. apply never_leaves_Normal, trailing_fragment_total.
  - intros g w e H. unfold try_write, try_catch, res_write.
    now rewrite H.
  - intros text w. unfold absorb_speech, bind, get_speechBuffer.
    destruct (absorb WORDS_THRESHOLD (speechBuffer w) text) as [groups sb'].
    unfold set_speechBuffer.
    destruct (speak_groups groups
                {| buffer := buffer w; fullReply := fullReply w;
                   speechBuffer := sb'; trace := trace w |})
      as (es & Hrun & Hes).
    exists es. rewrite Hrun. split; [reflexivity | exact Hes].
  - intros w leftover sb e Hf Hw.
    unfold flush_speech, bind, get_speechBuffer. rewrite Hf.
    unfold try_write, try_catch, res_write. rewrite Hw. reflexivity.
  - intros part parsed token w e H1 H2 H3 H4 H5.
    unfold handle_part. rewrite H1.
    unfold try_catch, bind, read_prop. rewrite H2, H3. simpl.
    rewrite H4. unfold bind, res_write. rewrite H5. reflexivity.
  - intros parsed token w e H1 H2 H3 H4 H5.
    unfold trailing_fragment, bind, get_buffer. rewrite H1.
    unfold try_catch, bind, read_prop. rewrite H2, H3. simpl.
    rewrite H4. unfold bind, res_write. rewrite H5. reflexivity.
Qed.

End WriteFailures.

Lemma write_failure_not_fatal_witness :
  handle_part no_tokens (js "eng") (Locale (js "en-US"))
    (response_frame "hi") init =
    (Normal tt,
     {| buffer := []; fullReply := []; speechBuffer := [];
        trace := [WriteThrew (EvToken (JStr (js "hi")) (Locale (js "en-US")));
                  Warned (response_frame "hi")] |})
  /\
  try_write no_speech (EvSentencePartial (js "hi") (Locale (js "en-US"))) init
  = (Normal tt,
     {| buffer := []; fullReply := []; speechBuffer := [];
        trace := [WriteThrew (EvSentencePartial (js "hi")
                                (Locale (js "en-US")))] |})
  /\
  trailing_fragment no_tokens (Locale (js "en-US"))
    {| buffer := response_frame "hi"; fullReply := js "Oh ";
       speechBuffer := js "Oh "; trace := [sent "en-US" "Oh "] |} =
    (Normal tt,
     {| buffer := response_frame "hi"; fullReply := js "Oh ";
        speechBuffer := js "Oh ";
        trace := [sent "en-US" "Oh ";
                  WriteThrew (EvToken (JStr (js "hi"))
                                (Locale (js "en-US")))] |}).
Proof.
  pose proof (write_failure_not_fatal no_tokens (js "eng")
                (Locale (js "en-US")))
    as (_ & _ & _ & _ & _ & _ & Hloop & Htail).
  pose proof (write_failure_not_fatal no_speech (js "eng")
                (Locale (js "en-US"))) as (_ & _ & _ & Hgroup & _).
  split; [|split].
  - apply (Hloop (response_frame "hi")
             (JObj [(js "response", JStr (js "hi"))])
             (JStr (js "hi")) init (js "write after end"));
      reflexivity.
  - apply (Hgroup (js "hi") init (js "write after end")). reflexivity.
  - apply (Htail (JObj [(js "response", JStr (js "hi"))]) (JStr (js "hi"))
             {| buffer := response_frame "hi"; fullReply := js "Oh ";
                speechBuffer := js "Oh "; trace := [sent "en-US" "Oh "] |}
             (js "write after end"));
      reflexivity.
Defined.

(** C7, as stated, fails for the sentence groups: the write of the group
    "hi" throws, the session goes on to the done event, and the log holds
    nothing but the two lines written before the request. *)
Lemma write_failure_counterexample :
  let t := session_trace no_speech (ask "hi")
             (ok_body [response_frame "hi" ++ [LF] ++ done_frame ++ [LF]]) in
  t = saved User "hi" :: announced ++
      [Fetched; sent "en-US" "hi";
       WriteThrew (EvSentencePartial (js "hi") (Locale (js "en-US")));
       saved Assistant "hi"; Wrote EvDone; Ended] /\
  filter is_log t = announced.
Proof. vm_compute. split; reflexivity. Qed.

(* ----------------------------------------------------------------- *)
(** ** Malformed records *)

Section Malformed.

Variable env : Env.
Variable langCode : jsstring.
Variable speechLang : SpeechLang.


Hypothesis W : writes_never_throw env.









End Malformed.



(** The run of the witness, written out: the malformed line between the
    two tokens leaves only a warning. *)
Example malformed_between_tokens :
  for_each [response_frame "Hello "; js "{resp"; response_frame "world"]
           (handle_part quiet (js "eng") (Locale (js "en-US"))) init =
  (Normal tt,
   {| buffer := []; fullReply := js "Hello world";
      speechBuffer := js "Hello world";
      trace := [sent "en-US" "Hello "; Warned (js "{resp");
                sent "en-US" "world"] |}).
Proof. vm_compute. reflexivity. Qed.

(* ----------------------------------------------------------------- *)
(** ** The end of the body and the guard of the prompt *)

Section Endings.

Variable env : Env.
Variable langCode : jsstring.
Variable speechLang : SpeechLang.

Lemma flush_speech_exact w :
  exists es sb,
    flush_speech env speechLang w =
      (Normal tt, {| buffer := buffer w; fullReply := fullReply w;
                     speechBuffer := sb; trace := trace w ++ es |}) /\
    forallb is_speech_effect es = true.
Proof.
  unfold flush_speech, bind, get_speechBuffer.
  destruct (flush (speechBuffer w)) as [[leftover|] sb'].
  - unfold try_write, try_catch, res_write.
    destruct (res_write_throws env (trace w)
                (EvSentencePartial leftover speechLang)); simpl.
    + exists [WriteThrew (EvSentencePartial leftover speechLang)], sb'.
      split; reflexivity.
    + exists [Wrote (EvSentencePartial leftover speechLang)], sb'.
      split; reflexivity.
  - exists [], (speechBuffer w). simpl. rewrite app_nil_r.
    split; [now destruct w | reflexivity].
Qed.

(** C9, as amended.  When the body ends without a done record and the
    buffer holds a fragment that parses and has a truthy response whose
    value has a string (as every string has), the token is written on the
    channel and its text appended to FullReply and to the speech buffer, so
    that, when the store accepts it, the reply stored ends with that text.
    A truthy response that has no string is written and nothing is
    appended; a response that is missing or falsy changes nothing; a
    fragment that does not parse, or that parses to null, changes nothing;
    and none of these is logged. *)
Theorem trailing_fragment_relayed (w : World) :
  is_empty (buffer w) = false ->
  (JSON_parse env (buffer w) = None ->
   trailing_fragment env speechLang w = (Normal tt, w)) /\
  (forall parsed token text,
     JSON_parse env (buffer w) = Some parsed ->
     get_prop parsed (js "response") = inr (Some token) ->
     truthy token = true ->
     res_write_throws env (trace w) (EvToken token speechLang) = None ->
     to_string token = inr text ->
     (forall s, token = JStr s -> text = s) /\
     trailing_fragment env speechLang w =
       (Normal tt,
        {| buffer := buffer w;
           fullReply := fullReply w ++ text;
           speechBuffer := speechBuffer w ++ text;
           trace := trace w ++ [Wrote (EvToken token speechLang)] |}) /\
     (store_accepts env ->
      fullReply w ++ text <> [] ->
      exists es w',
        forallb is_speech_effect es = true /\
        end_of_stream env langCode speechLang w = (Normal tt, w') /\
        trace w' =
          trace w ++ Wrote (EvToken token speechLang) :: es ++
          [Created {| text := fullReply w ++ text;
                      role := Assistant; language := langCode |};
           Ended])) /\
  (forall parsed token e,
     JSON_parse env (buffer w) = Some parsed ->
     get_prop parsed (js "response") = inr (Some token) ->
     truthy token = true ->
     res_write_throws env (trace w) (EvToken token speechLang) = None ->
     to_string token = inl e ->
     trailing_fragment env speechLang w =
       (Normal tt, record (Wrote (EvToken token speechLang)) w)) /\
  (forall parsed response,
     JSON_parse env (buffer w) = Some parsed ->
     get_prop parsed (js "response") = inr response ->
     is_truthy response = false ->
     trailing_fragment env speechLang w = (Normal tt, w)) /\
  (forall parsed e,
     JSON_parse env (buffer w) = Some parsed ->
     get_prop parsed (js "response") = inl e ->
     trailing_fragment env speechLang w = (Normal tt, w)).
Proof.
  intros Hb.
  assert (Hd : forall parsed v, get_prop parsed (js "response") = inr v ->
                 exists d, get_prop parsed (js "done") = inr d).
  { intros parsed v H. destruct parsed; simpl in *; try discriminate; eauto. }
  split; [|split; [|split; [|split]]].
  - intros Hp. unfold trailing_fragment, bind, get_buffer.
    rewrite Hb. unfold try_catch. now rewrite Hp.
  - intros parsed token text Hp Hr Ht Hw Hs.
    destruct (Hd _ _ Hr) as [d Hdone].
    assert (Htf : trailing_fragment env speechLang w =
       (Normal tt,
        {| buffer := buffer w;
           fullReply := fullReply w ++ text;
           speechBuffer := speechBuffer w ++ text;
           trace := trace w ++ [Wrote (EvToken token speechLang)] |})).
    { unfold trailing_fragment, bind, get_buffer.
      rewrite Hb. unfold try_catch, bind, read_prop.
      rewrite Hp, Hr, Hdone. simpl. rewrite Ht.
      unfold bind, res_write. rewrite Hw. simpl.
      unfold primitive. rewrite Hs. reflexivity. }
    split; [|split; [exact Htf|]].
    { intros s ->. unfold to_string in Hs. simpl in Hs. congruence. }
    intros Hst Hne. unfold end_of_stream, bind at 1. rewrite Htf.
    set (w1 := {| buffer := buffer w;
                  fullReply := fullReply w ++ text;
                  speechBuffer := speechBuffer w ++ text;
                  trace := trace w ++ [Wrote (EvToken token speechLang)] |}).
    destruct (flush_speech_exact w1) as (es & sb & Hf & Hes).
    unfold bind at 1. rewrite Hf. subst w1. simpl.
    unfold bind, get_fullReply. simpl.
    apply is_empty_false in Hne. rewrite Hne.
    unfold Message_create. simpl. rewrite Hne, Hst. simpl.
    eexists es, _. split; [exact Hes|]. split; [reflexivity|].
    simpl. now rewrite <- !app_assoc.
  - intros parsed token e Hp Hr Ht Hw Hs.
    unfold trailing_fragment, bind, get_buffer.
    rewrite Hb. unfold try_catch, bind, read_prop.
    rewrite Hp, Hr. simpl. rewrite Ht.
    unfold bind, res_write. rewrite Hw. simpl.
    unfold primitive. rewrite Hs. reflexivity.
  - intros parsed response Hp Hr Hf.
    destruct (Hd _ _ Hr) as [d Hdone].
    unfold trailing_fragment, bind, get_buffer.
    rewrite Hb. unfold try_catch, bind, read_prop.
    rewrite Hp, Hr, Hdone. simpl.
    destruct response as [v|]; simpl in *; [rewrite Hf|]; reflexivity.
  - intros parsed e Hp Hr.
    unfold trailing_fragment, bind, get_buffer.
    rewrite Hb. unfold try_catch, bind, read_prop.
    rewrite Hp, Hr. reflexivity.
Qed.

(** C10. A request whose prompt is missing or holds only white space
    sends nothing to the backend, stores nothing and writes no token,
    sentence group or done event; when the channel takes the write, the
    session is exactly the error event "Empty prompt" and the close. *)
Theorem blank_prompt_rejected (req : Request) (backend : FetchResult) :
  blank_prompt req = true ->
  (res_write_throws env [] (EvError (js "Empty prompt")) = None ->
   session env req backend =
     (Returned,
      {| buffer := []; fullReply := []; speechBuffer := [];
         trace := [Wrote (EvError (js "Empty prompt")); Ended] |})) /\
  ~ In Fetched (session_trace env req backend) /\
  persisted (session_trace env req backend) = [] /\
  (forall ev, In (Wrote ev) (session_trace env req backend) ->
              ev = EvError (js "Empty prompt")).
Proof.
  intros Hb.
  assert (Hs : session env req backend =
    match res_write_throws env [] (EvError (js "Empty prompt")) with
    | None =>
        (Returned,
         {| buffer := []; fullReply := []; speechBuffer := [];
            trace := [Wrote (EvError (js "Empty prompt")); Ended] |})
    | Some e =>
        (Thrown e,
         {| buffer := []; fullReply := []; speechBuffer := [];
            trace := [WriteThrew (EvError (js "Empty prompt"))] |})
    end).
  { unfold session, stream, bind, guard_prompt.
    assert (Hg : exists v, prompt_trim req = inr v).
    { unfold blank_prompt in Hb.
      destruct (prompt_trim req) as [e|v]; [discriminate | now exists v]. }
    destruct Hg as [v Hg]. rewrite Hg, Hb. unfold bind, res_write. simpl.
    destruct (res_write_throws env [] (EvError (js "Empty prompt")));
      reflexivity. }
  unfold session_trace. rewrite Hs.
  destruct (res_write_throws env [] (EvError (js "Empty prompt"))); simpl.
  - split; [discriminate|]. split; [intros [H|[]]; discriminate|].
    split; [reflexivity|]. intros ev [H|[]]. discriminate.
  - split; [reflexivity|]. split; [intros [H|[H|[]]]; discriminate|].
    split; [reflexivity|]. intros ev [H|[H|[]]]; [|discriminate].
    now inversion H.
Qed.

End Endings.

Lemma trailing_fragment_relayed_witness :
  let w := {| buffer := response_frame "bye"; fullReply := js "Good ";
              speechBuffer := js "Good "; trace := [sent "en-US" "Good "] |} in
  trailing_fragment quiet (Locale (js "en-US")) w =
    (Normal tt,
     {| buffer := response_frame "bye"; fullReply := js "Good bye";
        speechBuffer := js "Good bye";
        trace := [sent "en-US" "Good "; sent "en-US" "bye"] |}).
Proof.
  apply (proj1 (proj2 (proj1 (proj2
           (trailing_fragment_relayed quiet (js "eng") (Locale (js "en-US"))
              {| buffer := response_frame "bye"; fullReply := js "Good ";
                 speechBuffer := js "Good ";
                 trace := [sent "en-US" "Good "] |} eq_refl))
           (JObj [(js "response", JStr (js "bye"))]) (JStr (js "bye"))
           (js "bye") eq_refl eq_refl eq_refl eq_refl eq_refl))).
Defined.

(** C9, as stated, fails in two ways.  For a response field that is
    falsy: the fragment parses and has a response field, the empty string,
    and no token event is written; the session stores nothing.  And for a
    response field that cannot be turned into a string: the token event is
    written, nothing is appended to FullReply and the session stores
    nothing. *)
Lemma trailing_fragment_counterexample :
  (let w := {| buffer := empty_response_frame; fullReply := [];
               speechBuffer := []; trace := [] |} in
   parse_frame (buffer w) = Some (JObj [(js "response", JStr [])]) /\
   trailing_fragment quiet (Locale (js "en-US")) w = (Normal tt, w) /\
   session_trace quiet (ask "hi") (ok_body [empty_response_frame]) =
     saved User "hi" :: announced ++ [Fetched; Ended]) /\
  (let w := {| buffer := member_frame; fullReply := [];
               speechBuffer := []; trace := [] |} in
   JSON_parse quiet_members (buffer w) =
     Some (JObj [(js "response", member_token)]) /\
   trailing_fragment quiet_members (Locale (js "en-US")) w =
     (Normal tt,
      {| buffer := member_frame; fullReply := []; speechBuffer := [];
         trace := [Wrote (EvToken member_token (Locale (js "en-US")))] |}) /\
   session_trace quiet_members (ask "hi") (ok_body [member_frame]) =
     saved User "hi" :: announced ++
     [Fetched; Wrote (EvToken member_token (Locale (js "en-US"))); Ended]).
Proof. vm_compute. repeat split; reflexivity. Qed.

(** The whole session of such a body: the fragment was never ended by a
    line feed, and its text is in the reply stored. *)
Example unterminated_fragment_session :
  session_trace quiet (ask "hi")
    (ok_body [response_frame "Good " ++ [LF] ++ response_frame "bye"]) =
  saved User "hi" :: announced ++ [Fetched; sent "en-US" "Good "; sent "en-US" "bye";
   spoke "en-US" "Good bye"; saved Assistant "Good bye"; Ended].
Proof. vm_compute. reflexivity. Qed.

Lemma blank_prompt_rejected_witness :
  blank_prompt (ask "  ") = true /\
  session quiet (ask "  ") (ok_body [done_frame ++ [LF]]) =
    (Returned,
     {| buffer := []; fullReply := []; speechBuffer := [];
        trace := [Wrote (EvError (js "Empty prompt")); Ended] |}).
Proof.
  split; [reflexivity|].
  apply (proj1 (blank_prompt_rejected quiet (ask "  ")
                  (ok_body [done_frame ++ [LF]]) eq_refl)).
  reflexivity.
Defined.

(* ----------------------------------------------------------------- *)
(** ** The scenarios of the specification, run *)

Section Scenarios.

(** The fuel of the group loop is enough: more of it changes nothing. *)
Lemma group_loop_fuel T : 0 < T -> forall f1 f2 ws sb,
  length ws <= f1 -> length ws <= f2 ->
  group_loop f1 T ws sb = group_loop f2 T ws sb.
Proof.
  intros HT. induction f1 as [|f1 IH]; intros f2 ws sb H1 H2.
  - destruct ws; [|simpl in H1; lia].
    destruct f2; simpl; [reflexivity|].
    destruct (Nat.leb_spec T 0); [lia | reflexivity].
  - destruct f2 as [|f2].
    + destruct ws; [|simpl in H2; lia]. simpl.
      destruct (Nat.leb_spec T 0); [lia | reflexivity].
    + simpl. destruct (Nat.leb_spec T (length ws)); [|reflexivity].
      rewrite (IH f2); [reflexivity | |]; rewrite length_skipn; lia.
Qed.

(** Scenario A, on the chunker with threshold 2: the two words make one
    full group while absorbing, and the flush has nothing left. *)
Example scenario_A_chunker :
  chunker_run 2 [js "Hello "; js "world"] None = ([js "Hello world"], None).
Proof. vm_compute. reflexivity. Qed.

(** Scenario A, on the handler, whose threshold is 8: the group comes
    from the flush at the done record. *)
Example scenario_A_session :
  session_trace quiet (ask "hi")
    (ok_body [response_frame "Hello " ++ [LF] ++ response_frame "world"
              ++ [LF] ++ done_frame ++ [LF]]) =
  saved User "hi" :: announced ++ [Fetched; sent "en-US" "Hello "; sent "en-US" "world";
   spoke "en-US" "Hello world"; saved Assistant "Hello world";
   Wrote EvDone; Ended].
Proof. vm_compute. reflexivity. Qed.

(** Scenario B: the connection to the backend fails; the channel gets the
    error event and no reply is stored. *)
Example scenario_B_session :
  session_trace quiet (ask "hi") (FetchThrows (js "ECONNREFUSED")) =
  saved User "hi" :: announced ++ [Fetched; LoggedError (js "ECONNREFUSED");
   Wrote (EvError (js "ECONNREFUSED")); Ended].
Proof. vm_compute. reflexivity. Qed.

(** Scenario C: a record cut in two by the chunks. *)
Example scenario_C_decoder :
  decode_all [] [firstn 6 (response_frame "hi");
                 skipn 6 (response_frame "hi") ++ [LF] ++ done_frame ++ [LF]]
  = ([response_frame "hi"; done_frame], []).
Proof. vm_compute. reflexivity. Qed.

Example scenario_C_session :
  session_trace quiet (ask "hi")
    (ok_body [firstn 6 (response_frame "hi");
              skipn 6 (response_frame "hi") ++ [LF] ++ done_frame ++ [LF]]) =
  saved User "hi" :: announced ++ [Fetched; sent "en-US" "hi"; spoke "en-US" "hi";
   saved Assistant "hi"; Wrote EvDone; Ended].
Proof. vm_compute. reflexivity. Qed.

(** Scenario D: twenty tokens of one word each, threshold 8. *)
Example scenario_D_chunker :
  chunker_run 8 (repeat (js " w") 20) None =
  ([js "w w w w w w w w"; js "w w w w w w w w"], Some (js "w w w w")).
Proof. vm_compute. reflexivity. Qed.

(** A done record on an empty reply: the schema rejects the empty text,
    the rejection is caught with the parse failures, and the session ends
    at the end of the body without a done event. *)
Example done_on_empty_reply :
  session_trace quiet (ask "hi") (ok_body [done_frame ++ [LF]]) =
  saved User "hi" :: announced ++ [Fetched;
   CreateRejected {| text := []; role := Assistant; language := js "eng" |};
   Warned done_frame; Ended].
Proof. vm_compute. reflexivity. Qed.

End Scenarios.

(* ================================================================= *)
(** * Part III. Further properties of the code *)
(* ================================================================= *)

(* ----------------------------------------------------------------- *)
(** ** What a computation keeps *)

Section Keeps.

Variable I : World -> Prop.

Lemma keeps_ret {A} (a : A) : keeps I (ret a).
Proof. intros w H. exact H. Qed.

Lemma keeps_throw {A} e : keeps I (@throw A e).
Proof. intros w H. exact H. Qed.

Lemma keeps_return {A} : keeps I (@return_ A).
Proof. intros w H. exact H. Qed.

Lemma keeps_bind {A B} (m : M A) (k : A -> M B) :
  keeps I m -> (forall a, keeps I (k a)) -> keeps I (bind m k).
Proof.
  intros Hm Hk w H. apply wp_bind.
  eapply wp_mono; [apply Hm, H | | auto | auto].
  intros a w' H'. apply Hk, H'.
Qed.

Lemma keeps_try_catch {A} (m : M A) (h : Exn -> M A) :
  keeps I m -> (forall e, keeps I (h e)) -> keeps I (try_catch m h).
Proof.
  intros Hm Hh w H. apply wp_try_catch.
  eapply wp_mono; [apply Hm, H | auto | auto |].
  intros e w' H'. apply Hh, H'.
Qed.

Lemma keeps_for_each {A} (l : list A) (body : A -> M unit) :
  (forall x, keeps I (body x)) -> keeps I (for_each l body).
Proof.
  intros Hb. induction l as [|x l IH]; simpl.
  - apply keeps_ret.
  - apply keeps_bind; [apply Hb | intros _; exact IH].
Qed.

Lemma keeps_read_prop parsed key : keeps I (read_prop parsed key).
Proof.
  unfold read_prop. destruct (get_prop parsed key);
    [apply keeps_throw | apply keeps_ret].
Qed.

Lemma keeps_primitive v : keeps I (primitive v).
Proof.
  unfold primitive. destruct (to_string v);
    [apply keeps_throw | apply keeps_ret].
Qed.

Hypothesis I_state : forall w b r s,
  I w -> I {| buffer := b; fullReply := r; speechBuffer := s;
              trace := trace w |}.

Lemma keeps_get_buffer : keeps I get_buffer.
Proof. intros w H. exact H. Qed.

Lemma keeps_get_fullReply : keeps I get_fullReply.
Proof. intros w H. exact H. Qed.

Lemma keeps_get_speechBuffer : keeps I get_speechBuffer.
Proof. intros w H. exact H. Qed.

Lemma keeps_set_buffer b : keeps I (set_buffer b).
Proof. intros w H. apply wp_set_buffer, I_state, H. Qed.

Lemma keeps_set_fullReply r : keeps I (set_fullReply r).
Proof. intros w H. apply wp_set_fullReply, I_state, H. Qed.

Lemma keeps_set_speechBuffer s : keeps I (set_speechBuffer s).
Proof. intros w H. apply wp_set_speechBuffer, I_state, H. Qed.

End Keeps.

(* ----------------------------------------------------------------- *)
(** ** The effects of a session after the request to the backend *)

Section RelayEffects.

Variable env : Env.
Variable langCode : jsstring.
Variable speechLang : SpeechLang.
Variable p : Trace.

Let I := After langCode speechLang p.
Let ok := relay_effect langCode speechLang.

Lemma After_state w b r s :
  I w -> I {| buffer := b; fullReply := r; speechBuffer := s;
              trace := trace w |}.
Proof. exact (fun H => H). Qed.

Lemma After_record e w : ok e -> I w -> I (record e w).
Proof.
  intros He (es & E & F). exists (es ++ [e]). simpl. split.
  - now rewrite E, app_assoc.
  - apply Forall_app. split; [exact F | now constructor].
Qed.

Lemma keeps_effect e : ok e -> keeps I (effect e).
Proof. intros He w H. apply wp_effect, After_record; assumption. Qed.

Lemma keeps_res_write ev :
  ok (Wrote ev) -> ok (WriteThrew ev) -> keeps I (res_write env ev).
Proof.
  intros H1 H2 w H. apply wp_res_write; intros; apply After_record; assumption.
Qed.

Lemma keeps_try_write ev :
  ok (Wrote ev) -> ok (WriteThrew ev) -> keeps I (try_write env ev).
Proof.
  intros H1 H2. apply keeps_try_catch.
  - now apply keeps_res_write.
  - intros e. apply keeps_ret.
Qed.

Lemma keeps_reply r :
  keeps I (Message_create env {| text := r; role := Assistant;
                                 language := langCode |}).
Proof.
  intros w H. apply wp_Message_create; intros;
    apply After_record; try assumption; split; reflexivity.
Qed.

Lemma keeps_absorb_speech text : keeps I (absorb_speech env speechLang text).
Proof.
  unfold absorb_speech.
  apply keeps_bind; [apply keeps_get_speechBuffer|]. intros sb.
  destruct (absorb WORDS_THRESHOLD sb text) as [groups sb'].
  apply keeps_bind; [apply keeps_set_speechBuffer, After_state|]. intros _.
  apply keeps_for_each. intros g.
  apply keeps_try_write; reflexivity.
Qed.

Lemma keeps_flush_speech : keeps I (flush_speech env speechLang).
Proof.
  unfold flush_speech.
  apply keeps_bind; [apply keeps_get_speechBuffer|]. intros sb.
  destruct (flush sb) as [[leftover|] sb']; [|apply keeps_ret].
  apply keeps_bind; [apply keeps_try_write; reflexivity|]. intros _.
  apply keeps_set_speechBuffer, After_state.
Qed.

Lemma keeps_on_response response :
  keeps I (on_response env speechLang response).
Proof.
  unfold on_response.
  destruct response as [token|]; [|apply keeps_ret].
  destruct (truthy token); [|apply keeps_ret].
  apply keeps_bind; [apply keeps_res_write; reflexivity|]. intros _.
  apply keeps_bind; [apply keeps_get_fullReply|]. intros r.
  apply keeps_bind; [apply keeps_primitive|]. intros text.
  apply keeps_bind; [apply keeps_set_fullReply, After_state|]. intros _.
  apply keeps_absorb_speech.
Qed.

Lemma keeps_on_done done : keeps I (on_done env langCode speechLang done).
Proof.
  unfold on_done. destruct (is_truthy done); [|apply keeps_ret].
  apply keeps_bind; [apply keeps_flush_speech|]. intros _.
  apply keeps_bind; [apply keeps_get_fullReply|]. intros r.
  apply keeps_bind; [apply keeps_reply|]. intros _.
  apply keeps_bind; [apply keeps_res_write; exact Logic.I|]. intros _.
  apply keeps_bind; [apply keeps_effect; exact Logic.I|]. intros _.
  apply keeps_return.
Qed.

Lemma keeps_handle_part part :
  keeps I (handle_part env langCode speechLang part).
Proof.
  unfold handle_part. destruct (is_empty (trim part)); [apply keeps_ret|].
  apply keeps_try_catch; [|intros e; apply keeps_effect; exact Logic.I].
  destruct (JSON_parse env (trim part)) as [parsed|]; [|apply keeps_throw].
  apply keeps_bind; [apply keeps_read_prop|]. intros response.
  apply keeps_bind; [apply keeps_on_response|]. intros _.
  apply keeps_bind; [apply keeps_read_prop|]. intros done.
  apply keeps_on_done.
Qed.

Lemma keeps_handle_chunk chunkText :
  keeps I (handle_chunk env langCode speechLang chunkText).
Proof.
  unfold handle_chunk.
  apply keeps_bind; [apply keeps_get_buffer|]. intros b.
  destruct (decode b chunkText) as [parts b'].
  apply keeps_bind; [apply keeps_set_buffer, After_state|]. intros _.
  apply keeps_for_each, keeps_handle_part.
Qed.

Lemma keeps_read_body chunks io_error :
  keeps I (read_body env langCode speechLang chunks io_error).
Proof.
  unfold read_body.
  apply keeps_bind; [apply keeps_for_each, keeps_handle_chunk|]. intros _.
  destruct io_error; [apply keeps_throw | apply keeps_ret].
Qed.

Lemma keeps_trailing_fragment :
  keeps I (trailing_fragment env speechLang).
Proof.
  unfold trailing_fragment.
  apply keeps_bind; [apply keeps_get_buffer|]. intros b.
  destruct (is_empty b); [apply keeps_ret|].
  apply keeps_try_catch; [|intros e; apply keeps_ret].
  destruct (JSON_parse env b) as [parsed|]; [|apply keeps_throw].
  apply keeps_bind; [apply keeps_read_prop|]. intros response.
  apply keeps_bind.
  - destruct response as [token|]; [|apply keeps_ret].
    destruct (truthy token); [|apply keeps_ret].
    apply keeps_bind; [apply keeps_res_write; reflexivity|]. intros _.
    apply keeps_bind; [apply keeps_get_fullReply|]. intros r.
    apply keeps_bind; [apply keeps_primitive|]. intros text.
    apply keeps_bind; [apply keeps_set_fullReply, After_state|]. intros _.
    apply keeps_bind; [apply keeps_get_speechBuffer|]. intros sb.
    apply keeps_set_speechBuffer, After_state.
  - intros _. apply keeps_bind; [apply keeps_read_prop|]. intros _.
    apply keeps_ret.
Qed.

Lemma keeps_end_of_stream : keeps I (end_of_stream env langCode speechLang).
Proof.
  unfold end_of_stream.
  apply keeps_bind; [apply keeps_trailing_fragment|]. intros _.
  apply keeps_bind; [apply keeps_flush_speech|]. intros _.
  apply keeps_bind; [apply keeps_get_fullReply|]. intros r.
  apply keeps_bind.
  - destruct (is_empty r); [apply keeps_ret | apply keeps_reply].
  - intros _. apply keeps_effect. exact Logic.I.
Qed.

Lemma keeps_stream_catch err : keeps I (stream_catch env err).
Proof.
  unfold stream_catch.
  apply keeps_bind; [apply keeps_effect; exact Logic.I|]. intros _.
  apply keeps_bind; [apply keeps_res_write; exact Logic.I|]. intros _.
  apply keeps_effect. exact Logic.I.
Qed.

End RelayEffects.

(* ----------------------------------------------------------------- *)
(** ** The building of the context *)

Section Contexts.

Lemma jseqb_eq a : forall b, jseqb a b = true <-> a = b.
Proof.
  induction a as [|x a IH]; intros [|y b]; simpl; split; intros H;
    try reflexivity; try discriminate.
  - apply andb_true_iff in H as [H1 H2].
    apply N.eqb_eq in H1. apply IH in H2. now subst.
  - inversion H; subst. rewrite N.eqb_refl. now apply IH.
Qed.

Lemma context_effects_inert ctx :
  forallb context_effect ctx = true ->
  (forall ev, ~ In (Wrote ev) ctx) /\
  (forall m, ~ In (Created m) ctx) /\
  ~ In Fetched ctx /\
  (forall e, ~ In (LoggedError e) ctx).
Proof.
  intros H. rewrite forallb_forall in H.
  repeat split; intros; intros Hin; apply H in Hin; discriminate Hin.
Qed.

Variable env : Env.
Variable req : Request.

(** The context is built or the building throws; either way the trace
    only gets steps of the lookup and lines of the log. *)
Lemma build_context_result w :
  exists ctx,
    forallb context_effect ctx = true /\
    snd (build_context env req w) = extend ctx w /\
    (fst (build_context env req w) = Normal tt \/
     exists e, fst (build_context env req w) = Thrown e).
Proof.
  assert (H : wp (build_context env req)
                 (fun _ w' => exists ctx,
                    forallb context_effect ctx = true /\ w' = extend ctx w)
                 (fun _ => False)
                 (fun _ w' => exists ctx,
                    forallb context_effect ctx = true /\ w' = extend ctx w)
                 w).
  { apply wp_build_context;
      [intros ctx Hctx; now exists ctx | intros e ctx Hctx; now exists ctx]. }
  unfold wp in H.
  destruct (build_context env req w) as [[[]| |e] w']; [| contradiction |];
    destruct H as (ctx & Hctx & ->); exists ctx; simpl; eauto.
Qed.

Lemma wp_build_context_outcome w
  (Qn : unit -> World -> Prop) (Qr : World -> Prop) (Qt : Exn -> World -> Prop) :
  (forall ctx, forallb context_effect ctx = true ->
     fst (build_context env req w) = Normal tt -> Qn tt (extend ctx w)) ->
  (forall e ctx, forallb context_effect ctx = true ->
     fst (build_context env req w) = Thrown e -> Qt e (extend ctx w)) ->
  wp (build_context env req) Qn Qr Qt w.
Proof.
  intros H1 H2.
  destruct (build_context_result w) as (ctx & Hctx & Hw & Ho).
  unfold wp. destruct (build_context env req w) as [o w']. simpl in *.
  subst w'. destruct Ho as [->|[e ->]]; auto.
Qed.

End Contexts.

(* ----------------------------------------------------------------- *)
(** ** The phases of a session *)

Section Phases.

Variable env : Env.
Variable req : Request.
Variable backend : FetchResult.

Let t := session_trace env req backend.
Let u := user_message env req.
Let langCode := detect_language env req.
Let speechLang := francToSpeechLang langCode.

(** A session on a prompt that is not a string. *)
Lemma guard_session e : prompt_trim req = inl e -> t = [].
Proof.
  intros He. subst t. unfold session_trace.
  now rewrite (guard_throws env req backend e He).
Qed.

(** A session on a blank prompt. *)
Lemma blank_session :
  blank_prompt req = true ->
  t = [Wrote (EvError (js "Empty prompt")); Ended] \/
  t = [WriteThrew (EvError (js "Empty prompt"))].
Proof.
  intros Hb. subst t.
  unfold session_trace, session, stream, bind, guard_prompt.
  assert (Hg : exists v, prompt_trim req = inr v).
  { unfold blank_prompt in Hb.
    destruct (prompt_trim req) as [e|v]; [discriminate | now exists v]. }
  destruct Hg as [v Hg]. rewrite Hg, Hb. unfold bind, res_write. simpl.
  destruct (res_write_throws env [] (EvError (js "Empty prompt")));
    simpl; auto.
Qed.

(** A session on a prompt that is a string and is not blank.  It ends in
    the catch at once when the override is not a string; else it starts
    with the write of the user's message, builds the context, which only
    looks the location up and writes the log, sends the request to the
    backend right after that, when nothing threw, and goes on with effects
    of the relay only. *)
Lemma session_phases :
  blank_prompt req = false ->
  (forall e, prompt_trim req <> inl e) ->
  exists ctx es,
    forallb context_effect ctx = true /\
    Forall (relay_effect langCode speechLang) es /\
    ((t = es /\ override_throws req = true) \/
     (t = CreateRejected u :: es /\ override_throws req = false) \/
     (t = Created u :: ctx ++ es /\ override_throws req = false /\
      Message_create_rejects env [] u = None /\
      exists e, fst (build_context env req (record (Created u) init))
                = Thrown e) \/
     (t = Created u :: ctx ++ Fetched :: es /\ override_throws req = false /\
      Message_create_rejects env [] u = None /\
      fst (build_context env req (record (Created u) init)) = Normal tt)).
Proof.
  intros Hb Hp. subst t.
  set (Q := fun w : World => exists ctx es,
    forallb context_effect ctx = true /\
    Forall (relay_effect langCode speechLang) es /\
    ((trace w = es /\ override_throws req = true) \/
     (trace w = CreateRejected u :: es /\ override_throws req = false) \/
     (trace w = Created u :: ctx ++ es /\ override_throws req = false /\
      Message_create_rejects env [] u = None /\
      exists e, fst (build_context env req (record (Created u) init))
                = Thrown e) \/
     (trace w = Created u :: ctx ++ Fetched :: es /\
      override_throws req = false /\
      Message_create_rejects env [] u = None /\
      fst (build_context env req (record (Created u) init)) = Normal tt))).
  assert (Hcatch : forall p e w,
            After langCode speechLang p w ->
            (forall w', After langCode speechLang p w' -> Q w') ->
            wp (stream_catch env e) (fun _ => Q) Q (fun _ => Q) w).
  { intros p e w Hw HQ.
    eapply wp_mono; [apply (keeps_stream_catch env langCode speechLang p e w Hw)
                    | | | ]; auto. }
  assert (H : wp (stream env req backend) (fun _ => Q) Q (fun _ => Q) init).
  { unfold stream. apply wp_bind. unfold guard_prompt.
    destruct (prompt_trim req) as [e|v]; [now elim (Hp e)|].
    rewrite Hb. apply wp_ret, wp_try_catch.
    unfold stream_try. apply wp_bind. unfold language_code.
    destruct (override_throws req) eqn:Ho.
    { apply wp_throw.
      apply (Hcatch [] _ init); [exists []; split; [reflexivity|constructor]|].
      intros w' (es & E & F). exists [], es. split; [reflexivity|].
      split; [exact F|]. left. auto. }
    apply wp_ret. fold u langCode speechLang.
    change {| text := trimmed_prompt req; role := User;
              language := langCode |} with u.
    apply wp_bind, wp_Message_create.
    - intros _ Hrej. simpl in Hrej.
      apply wp_bind, wp_build_context_outcome.
      + intros ctx Hctx Hbc.
        apply wp_bind. unfold fetch_backend. apply wp_bind, wp_effect.
        set (p := Created u :: ctx ++ [Fetched]).
        assert (Q3 : forall w, After langCode speechLang p w -> Q w).
        { intros w (es & E & F). exists ctx, es. split; [exact Hctx|].
          split; [exact F|]. do 3 right. split; [|auto].
          rewrite E. unfold p. simpl. now rewrite <- app_assoc. }
        assert (A2 : After langCode speechLang p
                       (record Fetched (extend ctx (record (Created u) init))))
          by (exists []; split; [simpl; now rewrite app_nil_r | constructor]).
        destruct backend as [e|ok status chunks io_error].
        * apply wp_throw. now apply (Hcatch _ e _ A2).
        * destruct ok; [|apply wp_throw; now apply (Hcatch _ _ _ A2)].
          apply wp_ret. simpl fst; simpl snd.
          apply wp_bind.
          eapply wp_mono;
            [ apply (keeps_read_body env langCode speechLang
                       p chunks io_error _ A2)
            | | exact Q3 | ].
          -- intros x w1 H1.
             eapply wp_mono;
               [ apply (keeps_end_of_stream env langCode speechLang
                          p w1 H1)
               | intros y; exact Q3 | exact Q3 | ].
             intros e w2 H2. now apply (Hcatch _ e _ H2).
          -- intros e w1 H1. now apply (Hcatch _ e _ H1).
      + intros e ctx Hctx Hbc.
        apply (Hcatch (Created u :: ctx) e).
        * exists []. split; [simpl; now rewrite app_nil_r | constructor].
        * intros w' (es & E & F). exists ctx, es. split; [exact Hctx|].
          split; [exact F|]. do 2 right. left. split; [exact E|]. eauto.
    - intros e.
      apply (Hcatch [CreateRejected u] e).
      * exists []. split; [reflexivity | constructor].
      * intros w' (es & E & F). exists [], es. split; [reflexivity|].
        split; [exact F|]. right. left. auto. }
  unfold wp in H. unfold session_trace, session.
  destruct (stream env req backend init) as [[[]| |e] w']; exact H.
Qed.

End Phases.

(* ----------------------------------------------------------------- *)
(** ** Trimming *)

Section Trimming.

Lemma trimStart_head s c r : trimStart s = c :: r -> is_space c = false.
Proof.
  induction s as [|x s IH]; simpl; [discriminate|].
  destruct (is_space x) eqn:E; [exact IH|].
  intros H. inversion H; subst. exact E.
Qed.

Lemma trimStart_fixed s :
  (forall c r, s = c :: r -> is_space c = false) -> trimStart s = s.
Proof.
  destruct s as [|c r]; intros H; simpl; [reflexivity|].
  now rewrite (H c r eq_refl).
Qed.

Lemma trimStart_idem s : trimStart (trimStart s) = trimStart s.
Proof. apply trimStart_fixed. intros c r. apply trimStart_head. Qed.

Lemma trimStart_snoc x c :
  is_space c = false -> trimStart (x ++ [c]) = trimStart x ++ [c].
Proof.
  intros Hc. induction x as [|y x IH]; simpl.
  - now rewrite Hc.
  - destruct (is_space y); [exact IH | reflexivity].
Qed.

Lemma trimEnd_cons c r :
  is_space c = false -> trimEnd (c :: r) = c :: trimEnd r.
Proof.
  intros Hc. unfold trimEnd. simpl.
  rewrite trimStart_snoc by assumption.
  now rewrite rev_app_distr.
Qed.

Lemma trimEnd_idem s : trimEnd (trimEnd s) = trimEnd s.
Proof. unfold trimEnd. now rewrite rev_involutive, trimStart_idem. Qed.

Lemma trimEnd_last s r c : trimEnd s = r ++ [c] -> is_space c = false.
Proof.
  unfold trimEnd. intros H.
  apply (f_equal (@rev _)) in H. rewrite rev_involutive, rev_app_distr in H.
  simpl in H. now apply trimStart_head in H.
Qed.

Lemma trim_head s c r : trim s = c :: r -> is_space c = false.
Proof.
  unfold trim. destruct (trimStart s) as [|x y] eqn:E.
  - discriminate.
  - pose proof (trimStart_head _ _ _ E) as Hx.
    rewrite trimEnd_cons by assumption.
    intros H. inversion H; subst. exact Hx.
Qed.

Lemma trim_last s r c : trim s = r ++ [c] -> is_space c = false.
Proof. unfold trim. apply trimEnd_last. Qed.

Lemma trim_idem s : trim (trim s) = trim s.
Proof.
  unfold trim at 1.
  rewrite (trimStart_fixed (trim s)) by (intros c r; apply trim_head).
  unfold trim. apply trimEnd_idem.
Qed.

End Trimming.

(* ----------------------------------------------------------------- *)
(** ** The request to the backend and the message of the user *)

Section Requests.

Variable env : Env.
Variable req : Request.
Variable backend : FetchResult.

Let t := session_trace env req backend.
Let u := user_message env req.
Let langCode := detect_language env req.
Let speechLang := francToSpeechLang langCode.


Lemma relay_created es m :
  Forall (relay_effect langCode speechLang) es ->
  In (Created m) es -> role m = Assistant /\ language m = langCode.
Proof.
  intros F Hin. rewrite Forall_forall in F. exact (F _ Hin).
Qed.

Lemma relay_wrote es ev :
  Forall (relay_effect langCode speechLang) es ->
  In (Wrote ev) es ->
  event_language ev = None \/ event_language ev = Some speechLang.
Proof.
  intros F Hin. rewrite Forall_forall in F. specialize (F _ Hin).
  destruct ev; simpl in *; subst; auto.
Qed.

Lemma inherited_speech code :
  In code inherited_names -> francToSpeechLang code = Inherited code.
Proof.
  unfold inherited_names. simpl. intros H.
  repeat (destruct H as [<-|H]; [reflexivity|]). contradiction.
Qed.

Lemma locale_speech code :
  ~ In code inherited_names ->
  exists locale, francToSpeechLang code = Locale locale.
Proof.
  intros H. unfold francToSpeechLang.
  repeat match goal with
         | |- context [if jseqb code ?k then _ else _] =>
             destruct (jseqb code k); [eexists; reflexivity|]
         end.
  destruct (existsb (jseqb code) inherited_names) eqn:E;
    [|eexists; reflexivity].
  exfalso. apply H. apply existsb_exists in E as (name & Hin & Heq).
  apply jseqb_eq in Heq. now subst.
Qed.


(** X2. Every token and sentence-group event of a session is built with
    one and the same language, francToSpeechLang of the language code of
    the request, and every document stored carries that language code.
    That language is a locale, a string, unless the language code, which
    the override of the request can set, names a member that objects
    inherit (constructor, toString, __proto__, ...): the language is then
    that member, and what the client reads in the events is no string. *)
Theorem one_language :
  (forall ev, In (Wrote ev) t ->
     event_language ev = None \/ event_language ev = Some speechLang) /\
  (forall m, In (Created m) t -> language m = langCode) /\
  (~ In langCode inherited_names ->
   exists locale, speechLang = Locale locale /\
                  written_language speechLang = Some (JStr locale)) /\
  (In langCode inherited_names ->
   speechLang = Inherited langCode /\
   forall locale, written_language speechLang <> Some (JStr locale)).
Proof.
  assert (Hlang :
    (~ In langCode inherited_names ->
     exists locale, speechLang = Locale locale /\
                    written_language speechLang = Some (JStr locale)) /\
    (In langCode inherited_names ->
     speechLang = Inherited langCode /\
     forall locale, written_language speechLang <> Some (JStr locale))).
  { split; intros H.
    - destruct (locale_speech langCode H) as [locale Hl].
      exists locale. unfold speechLang. rewrite Hl. auto.
    - unfold speechLang. rewrite (inherited_speech langCode H).
      split; [reflexivity|]. intros locale. simpl.
      destruct (jseqb langCode (js "__proto__")); discriminate. }
  destruct Hlang as [Hl1 Hl2].
  assert (Hmain :
    (forall ev, In (Wrote ev) t ->
       event_language ev = None \/ event_language ev = Some speechLang) /\
    (forall m, In (Created m) t -> language m = langCode));
    [|destruct Hmain; auto].
  destruct (prompt_trim req) as [e0|v] eqn:Hp.
  { pose proof (guard_session env req backend e0 Hp) as H.
    fold t in H. rewrite H. split; intros ? []. }
  destruct (blank_prompt req) eqn:Hb.
  - destruct (blank_session env req backend Hb) as [H|H];
      fold t in H; rewrite H; split.
    + intros ev [E|[E|[]]]; inversion E; subst. now left.
    + intros m [E|[E|[]]]; discriminate.
    + intros ev [E|[]]; discriminate.
    + intros m [E|[]]; discriminate.
  - destruct (session_phases env req backend Hb) as (ctx & es & Hctx & F & H).
    { intros e. rewrite Hp. discriminate. }
    fold t u langCode speechLang in H, F.
    destruct (context_effects_inert ctx Hctx) as (NW & NC & _ & _).
    assert (Hw : forall ev, In (Wrote ev) es ->
              event_language ev = None \/ event_language ev = Some speechLang)
      by (intros ev; now apply relay_wrote).
    assert (Hc : forall m, In (Created m) es -> language m = langCode)
      by (intros m Hm; now apply (relay_created es m F)).
    destruct H as [[H _]|[[H _]|[(H & _)|(H & _)]]]; rewrite H; split.
    + exact Hw.
    + exact Hc.
    + intros ev [E|Hin]; [discriminate | auto].
    + intros m [E|Hin]; [discriminate | auto].
    + intros ev [E|Hin]; [discriminate|].
      apply in_app_or in Hin as [Hin|Hin]; [now elim (NW ev) | auto].
    + intros m [E|Hin]; [inversion E; reflexivity|].
      apply in_app_or in Hin as [Hin|Hin]; [now elim (NC m) | auto].
    + intros ev [E|Hin]; [discriminate|].
      apply in_app_or in Hin as [Hin|[E|Hin]];
        [now elim (NW ev) | discriminate | auto].
    + intros m [E|Hin]; [inversion E; reflexivity|].
      apply in_app_or in Hin as [Hin|[E|Hin]];
        [now elim (NC m) | discriminate | auto].
Qed.

(** X3. A session stores at most one message of the user, as its first
    effect; its text is the trimmed prompt: it is not empty and has no
    white space at either end, so trimming it again changes nothing. *)
Theorem user_message_first (m : Message) :
  In (Created m) t ->
  role m = User ->
  (exists rest, t = Created m :: rest /\
     forall m', In (Created m') rest -> role m' = Assistant) /\
  text m = trimmed_prompt req /\
  text m <> [] /\
  trim (text m) = text m.
Proof.
  intros Hin Hrole.
  destruct (prompt_trim req) as [e0|v] eqn:Hp.
  { exfalso. pose proof (guard_session env req backend e0 Hp) as H.
    fold t in H. rewrite H in Hin. contradiction. }
  destruct (blank_prompt req) eqn:Hb.
  - exfalso. destruct (blank_session env req backend Hb) as [H|H];
      fold t in H; rewrite H in Hin; simpl in Hin;
      repeat (destruct Hin as [Hin|Hin]; try discriminate Hin); contradiction.
  - destruct (session_phases env req backend Hb) as (ctx & es & Hctx & F & H).
    { intros e. rewrite Hp. discriminate. }
    fold t u langCode speechLang in H, F.
    destruct (context_effects_inert ctx Hctx) as (_ & NC & _ & _).
    assert (Hes : forall m', In (Created m') es -> role m' = Assistant)
      by (intros m' Hm; now apply (relay_created es m' F)).
    assert (Hu : m = u -> text m = trimmed_prompt req /\ text m <> [] /\
                          trim (text m) = text m).
    { intros ->. unfold u, user_message, trimmed_prompt. simpl.
      unfold blank_prompt in Hb. rewrite Hp in *.
      destruct v as [trimmed|]; [|discriminate].
      split; [reflexivity|]. split; [now apply is_empty_false|].
      unfold prompt_trim in Hp.
      destruct (prompt req) as [[| | |userText| |]|]; try discriminate Hp.
      inversion Hp; subst. apply trim_idem. }
    destruct H as [[H _]|[[H _]|[(H & _)|(H & _)]]]; rewrite H in Hin |- *.
    + apply Hes in Hin. congruence.
    + destruct Hin as [E|Hin]; [discriminate|].
      apply Hes in Hin. congruence.
    + destruct Hin as [E|Hin].
      * inversion E; subst m. split; [|now apply Hu].
        exists (ctx ++ es). split; [reflexivity|].
        intros m' Hm. apply in_app_or in Hm as [Hm|Hm];
          [now elim (NC m') | auto].
      * apply in_app_or in Hin as [Hin|Hin]; [now elim (NC m)|].
        apply Hes in Hin. congruence.
    + destruct Hin as [E|Hin].
      * inversion E; subst m. split; [|now apply Hu].
        exists (ctx ++ Fetched :: es). split; [reflexivity|].
        intros m' Hm. apply in_app_or in Hm as [Hm|[E'|Hm]];
          [now elim (NC m') | discriminate | auto].
      * apply in_app_or in Hin as [Hin|[E|Hin]];
          [now elim (NC m) | discriminate |].
        apply Hes in Hin. congruence.
Qed.

End Requests.


(** A session whose override of the language is "constructor": the
    language of the events is the inherited member, and the client reads no
    language in them. *)
Example inherited_language_session :
  let req := {| prompt := Some (JStr (js "hi")); location := None;
                langOverride := Some (JStr (js "constructor")) |} in
  session_trace quiet req (ok_body [response_frame "yo" ++ [LF]]) =
  Created {| text := js "hi"; role := User; language := js "constructor" |}
  :: announced ++
  [Fetched;
   Wrote (EvToken (JStr (js "yo")) (Inherited (js "constructor")));
   Wrote (EvSentencePartial (js "yo") (Inherited (js "constructor")));
   Created {| text := js "yo"; role := Assistant;
              language := js "constructor" |};
   Ended] /\
  written_language (Inherited (js "constructor")) = None.
Proof. vm_compute. split; reflexivity. Qed.

Lemma user_message_first_witness :
  let t := session_trace quiet (ask "  hi ")
             (ok_body [response_frame "yo" ++ [LF]]) in
  let m := {| text := js "hi"; role := User; language := js "eng" |} in
  In (Created m) t /\
  role m = User /\
  (exists rest, t = Created m :: rest /\
     forall m', In (Created m') rest -> role m' = Assistant) /\
  text m = trimmed_prompt (ask "  hi ") /\
  text m <> [] /\
  trim (text m) = text m.
Proof.
  assert (Hin : In (Created {| text := js "hi"; role := User;
                               language := js "eng" |})
                   (session_trace quiet (ask "  hi ")
                      (ok_body [response_frame "yo" ++ [LF]])))
    by (vm_compute; left; reflexivity).
  split; [exact Hin|]. split; [reflexivity|].
  exact (user_message_first quiet (ask "  hi ")
           (ok_body [response_frame "yo" ++ [LF]]) _ Hin eq_refl).
Defined.

(* ----------------------------------------------------------------- *)
(** ** Requests that fail *)

Section FailedRequests.

Variable env : Env.
Variable req : Request.
Variable backend : FetchResult.

Let t := session_trace env req backend.

Lemma Silent_nil : Silent [].
Proof. unfold Silent. simpl. repeat split; auto. Qed.

Lemma Silent_app tr tr' : Silent tr -> Silent tr' -> Silent (tr ++ tr').
Proof.
  intros (W & C & F & L) (W' & C' & F' & L').
  unfold Silent. repeat split.
  - intros ev H. apply in_app_or in H as [H|H]; [now elim (W ev) | now elim (W' ev)].
  - intros m. destruct (C m) as [H|H]; [|now right].
    destruct (C' m) as [H'|H']; [|now right].
    left. intros Hin. apply in_app_or in Hin as [Hin|Hin]; auto.
  - intros H. apply in_app_or in H as [H|H]; auto.
  - intros e H. apply in_app_or in H as [H|H]; [now elim (L e) | now elim (L' e)].
Qed.

Lemma Silent_context ctx : forallb context_effect ctx = true -> Silent ctx.
Proof.
  intros H. destruct (context_effects_inert ctx H) as (W & C & F & L).
  unfold Silent. repeat split; auto.
Qed.

Lemma Silent_user m : role m = User -> Silent [Created m].
Proof.
  intros Hm. unfold Silent. simpl. repeat split.
  - intros ev [H|[]]; discriminate.
  - intros m'. destruct (role m') eqn:E; [now right|].
    left. intros [H|[]]. inversion H; subst. congruence.
  - intros [H|[]]; discriminate.
  - intros e [H|[]]; discriminate.
Qed.

Lemma Silent_rejected m : Silent [CreateRejected m].
Proof.
  unfold Silent. simpl. repeat split.
  - intros ev [H|[]]; discriminate.
  - intros m'. left. intros [H|[]]; discriminate.
  - intros [H|[]]; discriminate.
  - intros e [H|[]]; discriminate.
Qed.

Lemma Silent_assistant_writes tr : Silent tr -> assistant_writes tr = [].
Proof.
  intros (_ & C & _). unfold assistant_writes, persisted.
  induction tr as [|x tr IH]; [reflexivity|].
  assert (IH' : filter is_assistant
                  (flat_map (fun e => match e with
                                      | Created m => [m]
                                      | _ => []
                                      end) tr) = []).
  { apply IH. intros m. destruct (C m) as [H|H]; [|now right].
    left. intros Hin. apply H. now right. }
  destruct x; simpl; auto.
  destruct (C m) as [H|H]; [exfalso; apply H; now left|].
  unfold is_assistant at 1. rewrite H. exact IH'.
Qed.

Lemma wp_stream_catch err w (Q : Trace -> Prop) :
  (forall tail, caught err tail -> Q (trace w ++ tail)) ->
  wp (stream_catch env err)
     (fun _ w' => Q (trace w')) (fun w' => Q (trace w'))
     (fun _ w' => Q (trace w')) w.
Proof.
  intros H. unfold stream_catch.
  apply wp_bind, wp_effect, wp_bind, wp_res_write.
  - intros _. apply wp_res_end. simpl. rewrite <- !app_assoc. simpl.
    apply H. left. reflexivity.
  - intros e _. simpl. rewrite <- !app_assoc. simpl.
    apply H. right. reflexivity.
Qed.

(** X4. When the request to the backend throws, or is answered with a
    status that is not a success, the session relays nothing of the answer:
    it writes no token, no sentence group and no done event, and stores no
    reply.  The body of an answer that is not a success is read, to its
    end, only for the message of the error: once the request is sent, the
    error logged is the failure of the request, which for such an answer is
    made of the status and of the body read ("<no-body>" when the reading
    fails), and the only event written is the error event with that
    message. *)
Theorem failed_request_relays_nothing (msg : Exn) :
  request_failure backend = Some msg ->
  (forall ev, In (Wrote ev) t -> exists m, ev = EvError m) /\
  assistant_writes t = [] /\
  (In Fetched t ->
   In (LoggedError msg) t /\
   (forall e, In (LoggedError e) t -> e = msg) /\
   (forall ev, In (Wrote ev) t -> ev = EvError (error_text msg))) /\
  (forall status chunks io_error,
     backend = FetchResponse false status chunks io_error ->
     msg = js "Ollama API error: " ++ status ++ js " - "
           ++ match io_error with
              | None => concat chunks
              | Some _ => js "<no-body>"
              end).
Proof.
  intros Hf.
  assert (Hmsg : forall status chunks io_error,
     backend = FetchResponse false status chunks io_error ->
     msg = js "Ollama API error: " ++ status ++ js " - "
           ++ match io_error with
              | None => concat chunks
              | Some _ => js "<no-body>"
              end).
  { intros status chunks io_error ->. simpl in Hf.
    destruct io_error; inversion Hf; reflexivity. }
  set (Q := fun tr : Trace =>
              (forall ev, In (Wrote ev) tr -> exists m, ev = EvError m) /\
              assistant_writes tr = [] /\
              (In Fetched tr ->
               In (LoggedError msg) tr /\
               (forall e, In (LoggedError e) tr -> e = msg) /\
               (forall ev, In (Wrote ev) tr ->
                           ev = EvError (error_text msg)))).
  assert (Hquiet : forall tr err tail,
            Silent tr -> caught err tail -> Q (tr ++ tail)).
  { intros tr err tail Hs Hc.
    assert (Ha : assistant_writes tail = [])
      by (destruct Hc as [->| ->]; reflexivity).
    assert (Hw : forall ev, In (Wrote ev) tail ->
                            ev = EvError (error_text err)).
    { intros ev Hin. destruct Hc as [->| ->]; simpl in Hin;
        repeat (destruct Hin as [Hin|Hin];
                [first [discriminate Hin | now inversion Hin]|]);
        contradiction. }
    assert (Hnf : ~ In Fetched tail).
    { intros Hin. destruct Hc as [->| ->]; simpl in Hin;
        repeat (destruct Hin as [Hin|Hin]; [discriminate Hin|]);
        contradiction. }
    pose proof (Silent_assistant_writes tr Hs) as Ha'.
    destruct Hs as (W & _ & F & _).
    unfold Q. repeat split.
    - intros ev Hin. apply in_app_or in Hin as [Hin|Hin];
        [now elim (W ev) | eexists; now apply Hw].
    - now rewrite assistant_writes_app, Ha, Ha'.
    - exfalso. apply in_app_or in H as [H|H]; auto.
    - exfalso. apply in_app_or in H as [H|H]; auto.
    - exfalso. apply in_app_or in H as [H|H]; auto. }
  assert (Hsent : forall tr tail,
            Silent tr -> caught msg tail -> Q (tr ++ Fetched :: tail)).
  { intros tr tail Hs Hc.
    assert (Ha : assistant_writes (Fetched :: tail) = [])
      by (destruct Hc as [->| ->]; reflexivity).
    assert (Hw : forall ev, In (Wrote ev) (Fetched :: tail) ->
                            ev = EvError (error_text msg)).
    { intros ev Hin. destruct Hc as [->| ->]; simpl in Hin;
        repeat (destruct Hin as [Hin|Hin];
                [first [discriminate Hin | now inversion Hin]|]);
        contradiction. }
    assert (Hl : forall e, In (LoggedError e) (Fetched :: tail) -> e = msg).
    { intros e Hin. destruct Hc as [->| ->]; simpl in Hin;
        repeat (destruct Hin as [Hin|Hin];
                [first [discriminate Hin | now inversion Hin]|]);
        contradiction. }
    assert (Hin : In (LoggedError msg) (Fetched :: tail))
      by (destruct Hc as [->| ->]; right; left; reflexivity).
    pose proof (Silent_assistant_writes tr Hs) as Ha'.
    destruct Hs as (W & _ & F & L).
    unfold Q. repeat split.
    - intros ev H. apply in_app_or in H as [H|H];
        [now elim (W ev) | eexists; now apply Hw].
    - now rewrite assistant_writes_app, Ha, Ha'.
    - apply in_or_app. now right.
    - intros e H0. apply in_app_or in H0 as [H0|H0];
        [now elim (L e) | now apply Hl].
    - intros ev H0. apply in_app_or in H0 as [H0|H0];
        [now elim (W ev) | now apply Hw]. }
  assert (H : wp (stream env req backend)
                 (fun _ w => Q (trace w)) (fun w => Q (trace w))
                 (fun _ w => Q (trace w)) init).
  { unfold stream. apply wp_bind. unfold guard_prompt.
    destruct (prompt_trim req) as [e0|v].
    { apply wp_throw. unfold Q. simpl. repeat split; intros; contradiction. }
    destruct (blank_prompt req).
    - apply wp_bind, wp_res_write;
        [intros _; apply wp_bind, wp_res_end, wp_return | intros e _];
        unfold Q; simpl; (repeat split);
        try (intros ev Hin;
             repeat (destruct Hin as [Hin|Hin];
                     [first [discriminate Hin
                            | inversion Hin; eexists; reflexivity]|]);
             contradiction);
        intros; exfalso;
        repeat match goal with
               | H : _ \/ _ |- _ => destruct H; try discriminate
               end; auto.
    - apply wp_ret, wp_try_catch. unfold stream_try.
      apply wp_bind. unfold language_code.
      destruct (override_throws req).
      { apply wp_throw, wp_stream_catch. intros tail Hc.
        apply (Hquiet [] _ tail Silent_nil Hc). }
      apply wp_ret, wp_bind, wp_Message_create.
      + intros _ _. apply wp_bind, wp_build_context.
        * intros ctx Hctx. apply wp_bind. unfold fetch_backend.
          apply wp_bind, wp_effect.
          assert (Hs : Silent ([Created {| text := trimmed_prompt req;
                                           role := User;
                                           language := detect_language env req
                                        |}] ++ ctx))
            by (apply Silent_app;
                [now apply Silent_user | now apply Silent_context]).
          destruct backend as [e|[|] status chunks io_error];
            simpl in Hf; try discriminate Hf.
          -- inversion Hf; subst. apply wp_throw, wp_stream_catch.
             intros tail Hc. simpl. rewrite <- !app_assoc. simpl.
             apply (Hsent (_ :: ctx) tail Hs Hc).
          -- assert (E : js "Ollama API error: " ++ status ++ js " - "
                         ++ body_text chunks io_error = msg)
               by (destruct io_error; inversion Hf; reflexivity).
             rewrite E. apply wp_throw, wp_stream_catch.
             intros tail Hc. simpl. rewrite <- !app_assoc. simpl.
             apply (Hsent (_ :: ctx) tail Hs Hc).
        * intros e ctx Hctx. apply wp_stream_catch. intros tail Hc.
          simpl.
          apply (Hquiet (_ :: ctx) e tail); [|exact Hc].
          apply (Silent_app [_] ctx);
            [now apply Silent_user | now apply Silent_context].
      + intros e. apply wp_stream_catch. intros tail Hc. simpl.
        apply (Hquiet [_] e tail); [apply Silent_rejected | exact Hc]. }
  unfold wp in H. subst t. unfold session_trace, session.
  destruct (stream env req backend init) as [[[]| |e] w'];
    destruct H as (H1 & H2 & H3); auto.
Qed.

End FailedRequests.

Lemma failed_request_relays_nothing_witness :
  let backend := FetchResponse false (js "500 Internal Server Error")
                   [js "model "; js "not found"] None in
  let msg := js "Ollama API error: 500 Internal Server Error - model not found"
  in
  let t := session_trace quiet (ask "hi") backend in
  request_failure backend = Some msg /\
  t = saved User "hi" :: announced ++
      [Fetched; LoggedError msg; Wrote (EvError msg); Ended] /\
  (forall ev, In (Wrote ev) t -> exists m, ev = EvError m) /\
  assistant_writes t = [] /\
  (In Fetched t ->
   In (LoggedError msg) t /\
   (forall e, In (LoggedError e) t -> e = msg) /\
   (forall ev, In (Wrote ev) t -> ev = EvError (error_text msg))) /\
  (forall status chunks io_error,
     FetchResponse false (js "500 Internal Server Error")
       [js "model "; js "not found"] None
     = FetchResponse false status chunks io_error ->
     msg = js "Ollama API error: " ++ status ++ js " - "
           ++ match io_error with
              | None => concat chunks
              | Some _ => js "<no-body>"
              end).
Proof.
  split; [reflexivity|]. split; [vm_compute; reflexivity|].
  exact (failed_request_relays_nothing quiet (ask "hi")
           (FetchResponse false (js "500 Internal Server Error")
              [js "model "; js "not found"] None)
           (js "Ollama API error: 500 Internal Server Error - model not found")
           eq_refl).
Defined.

(** The body of an answer that is not a success cannot be read to its
    end: the message says so. *)
Example failed_request_unread_body :
  session_trace quiet (ask "hi")
    (FetchResponse false (js "404 Not Found") [js "part"]
       (Some (js "socket hang up"))) =
  saved User "hi" :: announced ++
  [Fetched;
   LoggedError (js "Ollama API error: 404 Not Found - <no-body>");
   Wrote (EvError (js "Ollama API error: 404 Not Found - <no-body>"));
   Ended].
Proof. vm_compute. reflexivity. Qed.

(* ----------------------------------------------------------------- *)
(** ** More on the decoder and the chunker *)

Section DecoderMore.

Lemma split_lines_from_segments s : forall cur,
  ~ In LF cur ->
  Forall (fun seg => ~ In LF seg) (split_lines_from cur s).
Proof.
  induction s as [|c r IH]; intros cur Hcur; simpl.
  - constructor; [|constructor]. intros Hin. apply Hcur. now apply in_rev.
  - destruct (N.eqb_spec c LF) as [E|E].
    + constructor; [|apply IH; intros []].
      intros Hin. apply in_rev in Hin.
      destruct cur as [|x cur]; simpl in Hin; [contradiction|].
      destruct (N.eqb x CR); apply Hcur; simpl; auto.
    + apply IH. intros [H|H]; [now apply E | now apply Hcur].
Qed.

Lemma no_LF_complete s : ~ In LF s -> no_LF s = true.
Proof.
  intros H. unfold no_LF. apply forallb_forall. intros c Hc.
  apply negb_true_iff. apply N.eqb_neq. intros ->. now apply H.
Qed.

Lemma parts_of_split s :
  removelast (split_lines s) ++ [last (split_lines s) []] = split_lines s.
Proof.
  symmetry. apply app_removelast_last. apply split_lines_from_nonempty.
Qed.

(** X5. Whatever the buffer and the chunk, a decode call gives records
    that hold no line feed and keeps a buffer that holds none: no complete
    record is ever left in the buffer. *)
Theorem decode_leaves_no_record (buffer chunk : jsstring) :
  forallb no_LF (fst (decode buffer chunk)) = true /\
  no_LF (snd (decode buffer chunk)) = true.
Proof.
  unfold decode; simpl.
  pose proof (split_lines_from_segments (buffer ++ chunk) [] (fun H => H)) as F.
  fold (split_lines (buffer ++ chunk)) in F.
  rewrite <- parts_of_split in F. apply Forall_app in F as [F1 F2].
  split.
  - apply forallb_forall. intros r Hr. apply no_LF_complete.
    rewrite Forall_forall in F1. now apply F1.
  - apply no_LF_complete. now inversion F2.
Qed.

Lemma join_cons sep x l :
  l <> [] -> join sep (x :: l) = x ++ sep ++ join sep l.
Proof. destruct l; [congruence | reflexivity]. Qed.

Lemma join_split_lines_from s : forall cur,
  ~ In CR cur -> ~ In CR s ->
  join [LF] (split_lines_from cur s) = rev cur ++ s.
Proof.
  induction s as [|c r IH]; intros cur Hcur Hs; simpl.
  - now rewrite app_nil_r.
  - destruct (N.eqb_spec c LF) as [E|E].
    + subst c. rewrite join_cons by apply split_lines_from_nonempty.
      rewrite IH; [|intros []|intros H; apply Hs; now right].
      assert (Hstrip : strip_cr cur = cur).
      { destruct cur as [|x cur]; [reflexivity|]. simpl.
        destruct (N.eqb_spec x CR) as [Ex|Ex]; [|reflexivity].
        exfalso. apply Hcur. now left. }
      now rewrite Hstrip.
    + rewrite IH.
      * simpl. now rewrite <- app_assoc.
      * intros [H|H]; [apply Hs; now left | now apply Hcur].
      * intros H. apply Hs. now right.
Qed.

(** X6. On a text without carriage return a decode call loses nothing but
    the line feeds: the records and the new buffer, joined by line feeds,
    are the old buffer followed by the chunk. *)
Theorem decode_join_round_trip (buffer chunk : jsstring) :
  ~ In CR (buffer ++ chunk) ->
  join [LF] (fst (decode buffer chunk) ++ [snd (decode buffer chunk)]) =
  buffer ++ chunk.
Proof.
  intros H. unfold decode; simpl. rewrite parts_of_split.
  unfold split_lines. now rewrite join_split_lines_from.
Qed.

Lemma decode_join_round_trip_witness :
  ~ In CR (js "ab" ++ js "c" ++ [LF; LF] ++ js "de") /\
  join [LF] (fst (decode (js "ab") (js "c" ++ [LF; LF] ++ js "de"))
             ++ [snd (decode (js "ab") (js "c" ++ [LF; LF] ++ js "de"))]) =
  js "ab" ++ js "c" ++ [LF; LF] ++ js "de".
Proof.
  assert (H : ~ In CR (js "ab" ++ js "c" ++ [LF; LF] ++ js "de")).
  { vm_compute. intros H.
    repeat (destruct H as [H|H]; [discriminate H|]). exact H. }
  split; [exact H|].
  exact (decode_join_round_trip (js "ab") (js "c" ++ [LF; LF] ++ js "de") H).
Defined.

End DecoderMore.

Section ChunkerMore.

Let W := scan_words is_space.

(** X7. Whatever the speech buffer and the text absorbed, with a positive
    threshold T: every group emitted has exactly T words, fewer than T
    words are kept in the buffer, the number of groups is the number of
    words of the buffer with the text appended divided by T, and the words
    of the groups followed by the words kept are those words, in order. *)
Theorem absorb_keeps_threshold (T : nat) (speechBuffer text : jsstring) :
  0 < T ->
  let words := words_of (speechBuffer ++ text) in
  let '(groups, kept) := absorb T speechBuffer text in
  Forall (fun g => length (words_of g) = T) groups /\
  length (words_of kept) < T /\
  length groups = length words / T /\
  concat (map words_of groups) ++ words_of kept = words.
Proof.
  intros HT. cbv zeta. unfold absorb.
  pose proof (group_loop_spec T HT (length (words_of (speechBuffer ++ text)))
                (words_of (speechBuffer ++ text)) (speechBuffer ++ text)
                (le_n _) (words_of_are_words _)) as H.
  rewrite <- words_of_scan in H. specialize (H eq_refl).
  destruct (group_loop _ T _ _) as [groups kept].
  rewrite <- words_of_scan in H. destruct H as (H1 & H2 & H3).
  split; [exact H2|]. split; [exact H3|]. split; [|exact H1].
  apply Nat.div_unique with (r := length (words_of kept)); [exact H3|].
  rewrite <- H1 at 1. rewrite length_app, (length_concat_groups T) by exact H2.
  reflexivity.
Qed.

Lemma absorb_keeps_threshold_witness :
  0 < 2 /\
  let words := words_of (js "so " ++ js "it  goes on") in
  let '(groups, kept) := absorb 2 (js "so ") (js "it  goes on") in
  Forall (fun g => length (words_of g) = 2) groups /\
  length (words_of kept) < 2 /\
  length groups = length words / 2 /\
  concat (map words_of groups) ++ words_of kept = words.
Proof.
  split; [lia|].
  apply (absorb_keeps_threshold 2 (js "so ") (js "it  goes on")). lia.
Defined.

Lemma concat_scan s : forall acc,
  concat (W acc s) = rev acc ++ squeeze s.
Proof.
  unfold W.
  assert (Hc : forall acc, concat (close_word acc) = rev acc).
  { intros acc. unfold close_word. destruct acc; simpl; [reflexivity|].
    apply app_nil_r. }
  induction s as [|c s IH]; intros acc; simpl.
  - now rewrite Hc, app_nil_r.
  - destruct (is_space c); simpl.
    + now rewrite concat_app, Hc, IH.
    + rewrite IH. simpl. now rewrite <- app_assoc.
Qed.

Lemma concat_words_of s : concat (words_of s) = squeeze s.
Proof. rewrite words_of_scan. apply concat_scan. Qed.

Lemma squeeze_app a b : squeeze (a ++ b) = squeeze a ++ squeeze b.
Proof. apply filter_app. Qed.

Lemma squeeze_concat l : squeeze (concat l) = concat (map squeeze l).
Proof.
  induction l as [|x l IH]; simpl; [reflexivity|].
  now rewrite squeeze_app, IH.
Qed.

Lemma squeeze_groups l :
  squeeze (concat l) = concat (concat (map words_of l)).
Proof.
  rewrite squeeze_concat. induction l as [|x l IH]; simpl; [reflexivity|].
  now rewrite concat_app, concat_words_of, IH.
Qed.

Lemma absorb_squeeze T sb text : 0 < T ->
  squeeze (concat (fst (absorb T sb text))) ++ squeeze (snd (absorb T sb text))
  = squeeze (sb ++ text).
Proof.
  intros HT. unfold absorb.
  pose proof (group_loop_spec T HT (length (words_of (sb ++ text)))
                (words_of (sb ++ text)) (sb ++ text)
                (le_n _) (words_of_are_words _)) as H.
  rewrite <- words_of_scan in H. specialize (H eq_refl).
  destruct (group_loop _ T _ _) as [groups kept].
  rewrite <- words_of_scan in H. destruct H as (H & _ & _). simpl.
  rewrite squeeze_groups, <- (concat_words_of kept), <- concat_app.
  transitivity (concat (words_of (sb ++ text)));
    [f_equal; exact H | apply concat_words_of].
Qed.

Lemma absorb_all_squeeze T texts : 0 < T -> forall sb,
  squeeze (concat (fst (absorb_all T sb texts)))
  ++ squeeze (snd (absorb_all T sb texts))
  = squeeze (sb ++ concat texts).
Proof.
  intros HT. induction texts as [|x texts IH]; intros sb; simpl.
  - now rewrite app_nil_r.
  - pose proof (absorb_squeeze T sb x HT) as H.
    destruct (absorb T sb x) as [groups sb1]. simpl in H.
    specialize (IH sb1).
    destruct (absorb_all T sb1 texts) as [more final]. simpl in *.
    rewrite concat_app, squeeze_app, <- app_assoc, IH.
    rewrite squeeze_app, app_assoc, H.
    now rewrite !squeeze_app, app_assoc.
Qed.

Lemma flush_squeeze sb :
  squeeze (concat (flush_groups (fst (flush sb)))) = squeeze sb.
Proof.
  unfold flush. destruct (is_empty (trim sb)) eqn:E; simpl.
  - apply is_empty_true, trim_nil_iff in E.
    now rewrite <- concat_words_of, E.
  - rewrite app_nil_r, <- !concat_words_of. now rewrite words_of_trim.
Qed.

(** X8. Whatever the token texts, and whatever the text of the fragment
    left at the end of the body, if any, with a positive threshold, the
    groups emitted and the group of the flush hold, in order, exactly the
    code units of the texts that are not white space: the chunker can glue
    or split words, but it neither drops, nor repeats, nor reorders what
    they are made of. *)
Theorem chunker_keeps_characters (T : nat) (texts : list jsstring)
  (trailing : option jsstring) :
  0 < T ->
  squeeze (concat (fst (chunker_run T texts trailing)
                   ++ flush_groups (snd (chunker_run T texts trailing)))) =
  squeeze (concat texts ++ match trailing with
                           | Some text => text
                           | None => []
                           end).
Proof.
  intros HT. unfold chunker_run.
  pose proof (absorb_all_squeeze T texts HT []) as H.
  destruct (absorb_all T [] texts) as [groups sb]. simpl in *.
  rewrite concat_app, squeeze_app, flush_squeeze.
  destruct trailing as [text|].
  - now rewrite !squeeze_app, app_assoc, H.
  - now rewrite app_nil_r.
Qed.

Lemma chunker_keeps_characters_witness :
  0 < 8 /\
  squeeze (concat (fst (chunker_run 8 [js "a b c d e f g h i "; js "j"]
                          (Some (js " k")))
                   ++ flush_groups
                        (snd (chunker_run 8 [js "a b c d e f g h i ";
                                             js "j"] (Some (js " k")))))) =
  squeeze (concat [js "a b c d e f g h i "; js "j"] ++ js " k").
Proof.
  split; [lia|].
  apply (chunker_keeps_characters 8 [js "a b c d e f g h i "; js "j"]
           (Some (js " k"))).
  lia.
Defined.

End ChunkerMore.

(* ----------------------------------------------------------------- *)
(** ** The language of a request *)

Section Languages.

Lemma jseqb_length a : forall b, jseqb a b = true -> length a = length b.
Proof. intros b H. apply jseqb_eq in H. now subst. Qed.

(** The first segment of a split is what comes before the first
    separator. *)
Lemma split_on_from_head sep s : forall cur,
  exists before,
    hd [] (split_on_from sep cur s) = rev cur ++ before /\
    ~ In sep before /\
    (s = before \/ exists rest, s = before ++ sep :: rest).
Proof.
  induction s as [|c r IH]; intros cur; simpl.
  - exists []. rewrite app_nil_r. auto.
  - destruct (N.eqb_spec c sep) as [E|E].
    + subst c. exists []. simpl. rewrite app_nil_r.
      split; [reflexivity|]. split; [auto|]. right. now exists r.
    + destruct (IH (c :: cur)) as (before & H1 & H2 & H3).
      exists (c :: before). simpl in H1. rewrite <- app_assoc in H1.
      split; [exact H1|]. split.
      * intros [H|H]; [now apply E | now apply H2].
      * destruct H3 as [->|(rest & ->)]; [now left|].
        right. now exists rest.
Qed.

(** X9. The language code of a request.  When the request carries an
    override that is a string, neither empty nor "auto", the language code
    is the part of the override before its first hyphen, whatever the
    detector says, and holds no hyphen.  Otherwise it is the answer of the
    detector on the trimmed prompt whenever that answer is not empty, and
    "eng" when the detector throws or answers the empty string; it is never
    empty.  An override that is truthy and is not a string (a number, true,
    an array, an object) has no split: line 120 throws, and a session on a
    prompt that is not blank then ends in the catch, with that error logged
    and written and nothing else done. *)
Theorem language_code_of_request (env : Env) (req : Request) :
  (override_used req = true ->
   exists o, langOverride req = Some (JStr o) /\
     ~ In HYPHEN (detect_language env req) /\
     (o = detect_language env req \/
      exists rest, o = detect_language env req ++ HYPHEN :: rest)) /\
  (override_used req = false ->
   detect_language env req <> [] /\
   (forall code, franc env (trimmed_prompt req) = Some code -> code <> [] ->
                 detect_language env req = code) /\
   (franc env (trimmed_prompt req) = None \/
    franc env (trimmed_prompt req) = Some [] ->
    detect_language env req = js "eng")) /\
  (override_throws req = true <->
   exists v, langOverride req = Some v /\ truthy v = true /\
             forall o, v <> JStr o) /\
  (override_throws req = false ->
   forall w, language_code env req w = (Normal (detect_language env req), w)) /\
  (override_throws req = true ->
   override_used req = false /\
   (forall w, language_code env req w =
              (Thrown (js "langOverride.split is not a function"), w)) /\
   forall backend,
     blank_prompt req = false ->
     (forall e, prompt_trim req <> inl e) ->
     caught (js "langOverride.split is not a function")
       (session_trace env req backend)).
Proof.
  split; [|split; [|split; [|split]]].
  - unfold override_used, detect_language.
    destruct (langOverride req) as [[| | |o| |]|]; try discriminate.
    intros H. rewrite H. exists o. split; [reflexivity|].
    destruct (split_on_from_head HYPHEN o []) as (before & H1 & H2 & H3).
    unfold split_on. fold HYPHEN. rewrite H1. simpl. auto.
  - intros H.
    assert (Hd : detect_language env req =
                 match franc env (trimmed_prompt req) with
                 | Some code => if is_empty code then js "eng" else code
                 | None => js "eng"
                 end).
    { unfold override_used in H. unfold detect_language.
      destruct (langOverride req) as [[| | |o| |]|]; try reflexivity.
      now rewrite H. }
    rewrite Hd. clear Hd.
    destruct (franc env (trimmed_prompt req)) as [code|].
    + destruct (is_empty code) eqn:E.
      * apply is_empty_true in E. subst code.
        split; [discriminate|]. split; [|reflexivity].
        intros code Hc Hn. inversion Hc; subst. now elim Hn.
      * split; [now apply is_empty_false|]. split.
        -- intros code' Hc _. now inversion Hc.
        -- intros [Hc|Hc]; [discriminate|]. inversion Hc; subst.
           vm_compute in E. discriminate E.
    + split; [discriminate|]. split; [discriminate | reflexivity].
  - unfold override_throws. split.
    + destruct (langOverride req) as [v|]; [|discriminate].
      intros H. exists v. split; [reflexivity|].
      destruct v; try discriminate H; (split; [exact H|]); discriminate.
    + intros (v & -> & Hv & Hs).
      destruct v; try exact Hv. now elim (Hs s).
  - intros H w. unfold language_code. now rewrite H.
  - intros H. split; [|split].
    + unfold override_throws in H. unfold override_used.
      destruct (langOverride req) as [[| | |o| |]|];
        try reflexivity; discriminate H.
    + intros w. unfold language_code. now rewrite H.
    + intros backend Hb Hp.
      unfold session_trace, session, stream, bind, guard_prompt.
      destruct (prompt_trim req) as [e|v]; [now elim (Hp e)|].
      rewrite Hb. unfold ret, try_catch, stream_try, bind, language_code.
      rewrite H. unfold throw, stream_catch, bind, effect, res_write, res_end.
      simpl. unfold caught, error_text. simpl.
      destruct (res_write_throws env _ _); simpl; auto.
Qed.

(** A session whose override is the number 5. *)
Example number_override_session :
  session quiet {| prompt := Some (JStr (js "hi")); location := None;
                   langOverride := Some (JNum (js "5") true) |}
          (ok_body [response_frame "yo" ++ [LF]]) =
  (Normal tt,
   {| buffer := []; fullReply := []; speechBuffer := [];
      trace := [LoggedError (js "langOverride.split is not a function");
                Wrote (EvError (js "langOverride.split is not a function"));
                Ended] |}).
Proof. vm_compute. reflexivity. Qed.

(** X10. The table of speech locales is keyed by codes of three letters
    and by "kn": a language code of two letters other than "kn", such as
    the part before the hyphen of an override like "hi-IN", gets the
    default locale "en-US". *)
Theorem two_letter_code_gets_default (code : jsstring) :
  length code = 2 ->
  code <> js "kn" ->
  francToSpeechLang code = Locale (js "en-US").
Proof.
  intros Hlen Hkn. unfold francToSpeechLang.
  assert (H3 : forall k, length k <> 2 -> jseqb code k = false).
  { intros k Hk. destruct (jseqb code k) eqn:E; [|reflexivity].
    apply jseqb_length in E. lia. }
  rewrite !H3 by (vm_compute; discriminate).
  destruct (jseqb code (js "kn")) eqn:E.
  - apply jseqb_eq in E. contradiction.
  - rewrite !H3 by (vm_compute; discriminate).
    assert (Hi : existsb (jseqb code) inherited_names = false).
    { unfold inherited_names. simpl.
      rewrite !H3 by (vm_compute; discriminate). reflexivity. }
    rewrite Hi. reflexivity.
Qed.

Lemma two_letter_code_gets_default_witness :
  let req := {| prompt := Some (JStr (js "namaste")); location := None;
                langOverride := Some (JStr (js "hi-IN")) |} in
  detect_language quiet req = js "hi" /\
  length (detect_language quiet req) = 2 /\
  detect_language quiet req <> js "kn" /\
  francToSpeechLang (detect_language quiet req) = Locale (js "en-US").
Proof.
  split; [reflexivity|]. split; [reflexivity|].
  assert (H : detect_language quiet
                {| prompt := Some (JStr (js "namaste")); location := None;
                   langOverride := Some (JStr (js "hi-IN")) |} <> js "kn")
    by (vm_compute; discriminate).
  split; [exact H|].
  apply (two_letter_code_gets_default
           (detect_language quiet
              {| prompt := Some (JStr (js "namaste")); location := None;
                 langOverride := Some (JStr (js "hi-IN")) |}));
    [reflexivity | exact H].
Defined.

End Languages.

(* ----------------------------------------------------------------- *)
(** ** The cache of locations *)

Section Locations.

Open Scope Z_scope.

Lemma jseqb_refl a : jseqb a a = true.
Proof. now apply jseqb_eq. Qed.

Lemma jseqb_neq a b : a <> b -> jseqb a b = false.
Proof.
  intros H. destruct (jseqb a b) eqn:E; [|reflexivity].
  apply jseqb_eq in E. contradiction.
Qed.

Lemma cache_get_none key c :
  cache_get key c = None -> ~ In key (map fst c).
Proof.
  unfold cache_get. induction c as [|[k v] c IH]; simpl; [auto|].
  destruct (jseqb key k) eqn:E; [discriminate|].
  intros H [Hk|Hin]; [|now apply IH].
  subst k. now rewrite jseqb_refl in E.
Qed.

Lemma cache_get_app_none key c d :
  cache_get key c = None -> cache_get key (c ++ d) = cache_get key d.
Proof.
  unfold cache_get. induction c as [|[k v] c IH]; simpl; [reflexivity|].
  destruct (jseqb key k); [discriminate | exact IH].
Qed.

Lemma cache_get_app_some key c d v :
  cache_get key c = Some v -> cache_get key (c ++ d) = Some v.
Proof.
  unfold cache_get. induction c as [|[k x] c IH]; simpl; [discriminate|].
  destruct (jseqb key k); [auto | exact IH].
Qed.

Lemma cache_get_replace key v c :
  cache_get key c <> None ->
  cache_get key
    (map (fun kv => if jseqb key (fst kv) then (key, v) else kv) c) = Some v.
Proof.
  unfold cache_get. induction c as [|[k x] c IH]; simpl; [congruence|].
  destruct (jseqb key k) eqn:E; simpl.
  - now rewrite jseqb_refl.
  - rewrite E. exact IH.
Qed.

Lemma cache_get_replace_other key key' v c :
  key' <> key ->
  cache_get key'
    (map (fun kv => if jseqb key (fst kv) then (key, v) else kv) c) =
  cache_get key' c.
Proof.
  intros Hne. unfold cache_get.
  induction c as [|[k x] c IH]; simpl; [reflexivity|].
  destruct (jseqb key k) eqn:E; simpl.
  - apply jseqb_eq in E. subst k. rewrite (jseqb_neq _ _ Hne). exact IH.
  - destruct (jseqb key' k); [reflexivity | exact IH].
Qed.

(** What is set is what is got. *)
Lemma cache_get_set key v c : cache_get key (cache_set key v c) = Some v.
Proof.
  unfold cache_set, cache_has.
  destruct (cache_get key c) eqn:E.
  - apply cache_get_replace. congruence.
  - rewrite cache_get_app_none by assumption.
    unfold cache_get. simpl. now rewrite jseqb_refl.
Qed.

Lemma cache_get_set_other key key' v c :
  key' <> key -> cache_get key' (cache_set key v c) = cache_get key' c.
Proof.
  intros Hne. unfold cache_set, cache_has.
  destruct (cache_get key c) eqn:E.
  - now apply cache_get_replace_other.
  - destruct (cache_get key' c) eqn:E'.
    + now apply cache_get_app_some.
    + rewrite cache_get_app_none by assumption.
      unfold cache_get. simpl. now rewrite (jseqb_neq _ _ Hne).
Qed.

Lemma unique_keys_set key v c :
  unique_keys c -> unique_keys (cache_set key v c).
Proof.
  unfold unique_keys, cache_set, cache_has. intros H.
  destruct (cache_get key c) eqn:E.
  - assert (Hk : map fst (map (fun kv => if jseqb key (fst kv)
                                         then (key, v) else kv) c)
                 = map fst c).
    { clear. induction c as [|[k x] c IH]; simpl; [reflexivity|].
      rewrite IH. destruct (jseqb key k) eqn:E; [|reflexivity].
      apply jseqb_eq in E. now subst. }
    now rewrite Hk.
  - rewrite map_app. simpl.
    apply NoDup_app; [exact H | repeat constructor; auto |].
    intros k Hin [Hk|[]]. subst k.
    now apply (cache_get_none _ _ E).
Qed.

Variable native_text : jsstring -> jsstring.

Lemma fetch_location_result now weather geo key c :
  let '(r, c', asks) := fetch_location native_text now weather geo key c in
  lastUpdated r = now /\
  ((r = no_location now /\ c' = c) \/
   (c' = cache_set key r c /\
    asks = [AskedWeather; AskedCity; CacheSet key r] /\
    weather <> None /\ geo <> None)).
Proof.
  unfold fetch_location.
  destruct weather as [wd|]; [|simpl; auto].
  destruct (read_weather native_text wd); [simpl; auto|].
  destruct geo as [gd|]; [|simpl; auto].
  destruct (read_city gd); [simpl; auto|].
  simpl. split; [reflexivity|]. right. repeat split; congruence.
Qed.

(** A call that returns was given coordinates that print. *)
Lemma location_returned_printable now weather geo c lat lon :
  forall r, fst (fst (getWeatherTimeCity native_text now weather geo c lat lon))
            = inr r ->
  prints lat = true /\ prints lon = true.
Proof.
  intros r. unfold getWeatherTimeCity, to_string.
  destruct (prints lat); [|discriminate].
  destruct (prints lon); [|discriminate]. auto.
Qed.

(** X11. A call of getWeatherTimeCity returns either the record that the
    cache holds for the coordinates when it ends, or, when a lookup
    failed, the default record stamped with the time of the call, the cache
    being then left as it was.  It throws only when a coordinate cannot be
    turned into a string, before any service is asked.  It never touches
    the entry of other coordinates and keeps one entry for each key. *)
Theorem location_returned_is_cached (now : Z) (weather geo : option JSON)
  (c : LocationCache) (lat lon : JSON) :
  let key := location_key lat lon in
  let '(r, c', asks) :=
    getWeatherTimeCity native_text now weather geo c lat lon in
  match r with
  | inr r => prints lat = true /\ prints lon = true /\
             (cache_get key c' = Some r \/ (r = no_location now /\ c' = c))
  | inl e => (prints lat = false \/ prints lon = false) /\
             e = NOT_PRIMITIVE /\ c' = c /\ asks = []
  end /\
  (forall key', key' <> key -> cache_get key' c' = cache_get key' c) /\
  (unique_keys c -> unique_keys c').
Proof.
  cbv zeta. unfold getWeatherTimeCity, to_string.
  destruct (prints lat) eqn:Hlat; [|simpl; auto 6].
  destruct (prints lon) eqn:Hlon; [|simpl; auto 6].
  set (key := location_key lat lon).
  assert (Hf : let '(r, c', asks) :=
                 returned (fetch_location native_text now weather geo key c) in
               match r with
               | inr r => true = true /\ true = true /\
                   (cache_get key c' = Some r \/ (r = no_location now /\ c' = c))
               | inl e => (true = false \/ true = false) /\
                   e = NOT_PRIMITIVE /\ c' = c /\ asks = []
               end /\
               (forall key', key' <> key ->
                             cache_get key' c' = cache_get key' c) /\
               (unique_keys c -> unique_keys c')).
  { pose proof (fetch_location_result now weather geo key c) as H.
    destruct (fetch_location native_text now weather geo key c)
      as [[r c'] asks].
    simpl. destruct H as (_ & [(Hr & Hc)|(Hc & _)]); subst.
    - auto 6.
    - split; [split; [reflexivity|]; split; [reflexivity|];
              left; apply cache_get_set|].
      split; [intros; now apply cache_get_set_other|].
      apply unique_keys_set. }
  destruct (cache_get key c) as [cached|] eqn:E; [|exact Hf].
  destruct (now - lastUpdated cached <? 5 * 60 * 1000); [|exact Hf].
  auto 6.
Qed.

(** X12. A record returned by a call, unless it is the default of a
    failed lookup, is served again for the same coordinates by every call
    made less than five minutes after its stamp: the services are not
    asked, whatever they would answer, and the cache is left as it is. *)
Theorem cached_location_reused (now0 now1 : Z)
  (weather0 geo0 weather1 geo1 : option JSON)
  (c : LocationCache) (lat lon : JSON) :
  let '(r, c0, _) :=
    getWeatherTimeCity native_text now0 weather0 geo0 c lat lon in
  forall r0, r = inr r0 ->
  cache_get (location_key lat lon) c0 = Some r0 ->
  now1 - lastUpdated r0 < 5 * 60 * 1000 ->
  getWeatherTimeCity native_text now1 weather1 geo1 c0 lat lon =
    (inr r0, c0, []).
Proof.
  pose proof (location_returned_printable now0 weather0 geo0 c lat lon) as Hp.
  destruct (getWeatherTimeCity native_text now0 weather0 geo0 c lat lon)
    as [[r c0] asks0].
  intros r0 -> Hget Hfresh. destruct (Hp r0 eq_refl) as [Hlat Hlon].
  unfold getWeatherTimeCity, to_string. rewrite Hlat, Hlon, Hget.
  apply Z.ltb_lt in Hfresh. now rewrite Hfresh.
Qed.

(** X13. For coordinates that can be turned into strings: when no fresh
    record is kept for them and a service fails (its request or the
    parsing of its answer throws, or its answer is null), the call returns
    the default record, empty weather text,
    "UTC" and "Unknown", and the cache is left as it was: the failure is not
    remembered, and a record that has gone stale is neither refreshed nor
    removed. *)
Theorem failed_lookup_not_cached (now : Z) (weather geo : option JSON)
  (c : LocationCache) (lat lon : JSON) :
  prints lat = true -> prints lon = true ->
  fresh now (location_key lat lon) c = false ->
  weather = None \/ weather = Some JNull \/ geo = None \/ geo = Some JNull ->
  fst (getWeatherTimeCity native_text now weather geo c lat lon) =
    (inr (no_location now), c).
Proof.
  intros Hlat Hlon Hfresh Hfail.
  unfold getWeatherTimeCity, to_string, fresh in *. rewrite Hlat, Hlon.
  assert (Hf : fst (returned (fetch_location native_text now weather geo
                      (location_key lat lon) c)) = (inr (no_location now), c)).
  { unfold fetch_location.
    destruct Hfail as [-> | [-> | [-> | ->]]]; simpl; try reflexivity.
    - destruct weather as [wd|]; [|reflexivity].
      destruct (read_weather native_text wd); reflexivity.
    - destruct weather as [wd|]; [|reflexivity].
      destruct (read_weather native_text wd); reflexivity. }
  destruct (cache_get (location_key lat lon) c) as [cached|]; [|exact Hf].
  now rewrite Hfresh.
Qed.

Close Scope Z_scope.

End Locations.

Lemma cached_location_reused_witness :
  getWeatherTimeCity (fun name => name) 200000 None None
    [(js "12.3,76.6",
      {| weatherText := js "Temp: 21" ++ [172%N; 8734%N] ++ js "C, Overcast";
         timezone := JStr (js "Asia/Kolkata");
         city := JStr (js "Mysuru"); lastUpdated := 1000 |})]
    (coordinate "12.3") (coordinate "76.6") =
  (inr {| weatherText :=
            js "Temp: 21" ++ [172%N; 8734%N] ++ js "C, Overcast";
          timezone := JStr (js "Asia/Kolkata");
          city := JStr (js "Mysuru"); lastUpdated := 1000 |},
   [(js "12.3,76.6",
     {| weatherText := js "Temp: 21" ++ [172%N; 8734%N] ++ js "C, Overcast";
        timezone := JStr (js "Asia/Kolkata");
        city := JStr (js "Mysuru"); lastUpdated := 1000 |})],
   []).
Proof.
  exact (cached_location_reused (fun name => name) 1000 200000
           (Some (weather_answer "21" "3" "Asia/Kolkata"))
           (Some (city_answer "Mysuru")) None None []
           (coordinate "12.3") (coordinate "76.6") _ eq_refl eq_refl eq_refl).
Defined.

Lemma failed_lookup_not_cached_witness :
  let stale :=
    [(js "12.3,76.6",
      {| weatherText := []; timezone := JStr (js "Asia/Kolkata");
         city := JStr (js "Mysuru"); lastUpdated := 1000 |})] in
  prints (coordinate "12.3") = true /\ prints (coordinate "76.6") = true /\
  fresh 900000 (location_key (coordinate "12.3") (coordinate "76.6")) stale
    = false /\
  fst (getWeatherTimeCity (fun name => name) 900000
         (Some (weather_answer "21" "3" "Asia/Kolkata")) None stale
         (coordinate "12.3") (coordinate "76.6")) =
    (inr (no_location 900000), stale).
Proof.
  split; [reflexivity|]. split; [reflexivity|]. split; [reflexivity|].
  apply (failed_lookup_not_cached (fun name => name) 900000
           (Some (weather_answer "21" "3" "Asia/Kolkata")) None
           [(js "12.3,76.6",
             {| weatherText := []; timezone := JStr (js "Asia/Kolkata");
                city := JStr (js "Mysuru"); lastUpdated := 1000 |})]
           (coordinate "12.3") (coordinate "76.6"));
    [reflexivity | reflexivity | reflexivity
     | right; right; left; reflexivity].
Defined.

Section LocationKeys.

Lemma comma_split a : forall a' b b',
  ~ In COMMA a -> ~ In COMMA a' ->
  a ++ COMMA :: b = a' ++ COMMA :: b' -> a = a' /\ b = b'.
Proof.
  induction a as [|x a IH]; intros [|y a'] b b' Ha Ha' E;
    simpl in E; inversion E; subst.
  - auto.
  - exfalso. apply Ha'. now left.
  - exfalso. apply Ha. now left.
  - destruct (IH a' b b') as [-> ->]; auto.
    + intros H. apply Ha. now right.
    + intros H. apply Ha'. now right.
Qed.

(** X14. The key of the cache tells coordinates apart as far as they
    print differently: when the latitudes print without a comma, as
    numbers do, two calls share a key only if their latitudes print alike
    and their longitudes print alike. *)
Theorem location_key_injective (lat lon lat' lon' : JSON) :
  ~ In COMMA (ToString lat) ->
  ~ In COMMA (ToString lat') ->
  location_key lat lon = location_key lat' lon' ->
  ToString lat = ToString lat' /\ ToString lon = ToString lon'.
Proof.
  intros H H' E. unfold location_key in E.
  now apply (comma_split _ _ _ _ H H').
Qed.

Lemma location_key_injective_witness :
  ~ In COMMA (ToString (coordinate "12.3")) /\
  ~ In COMMA (ToString (JStr (js "12.3"))) /\
  location_key (coordinate "12.3") (coordinate "76.6") =
    location_key (JStr (js "12.3")) (JStr (js "76.6")) /\
  ToString (coordinate "12.3") = ToString (JStr (js "12.3")) /\
  ToString (coordinate "76.6") = ToString (JStr (js "76.6")).
Proof.
  assert (H : ~ In COMMA (js "12.3")).
  { vm_compute. intros H.
    repeat (destruct H as [H|H]; [discriminate H|]). exact H. }
  split; [exact H|]. split; [exact H|]. split; [reflexivity|].
  apply (location_key_injective (coordinate "12.3") (coordinate "76.6")
           (JStr (js "12.3")) (JStr (js "76.6")) H H eq_refl).
Defined.

(** With a comma in a latitude given as a string, two locations do share
    a key. *)
Example location_key_collision :
  location_key (JStr (js "1,2")) (JStr (js "3")) =
  location_key (JStr (js "1")) (JStr (js "2,3")).
Proof. reflexivity. Qed.

(** A latitude parsed from an object with a member named "toString": the
    key cannot be built, the call throws and no service is asked. *)
Example unprintable_coordinate :
  getWeatherTimeCity (fun name => name) 1000
    (Some (weather_answer "21" "3" "Asia/Kolkata"))
    (Some (city_answer "Mysuru")) []
    (JObj [(js "toString", JNum (js "1") true)]) (coordinate "76.6") =
  (inl NOT_PRIMITIVE, [], []).
Proof. reflexivity. Qed.

(** A temperature that cannot be printed: the template throws inside the
    try, and the default record is returned. *)
Example unprintable_temperature :
  getWeatherTimeCity (fun name => name) 1000
    (Some (JObj [(js "current_weather",
                  JObj [(js "temperature",
                         JArr [JObj [(js "toString", JNull)]])])]))
    (Some (city_answer "Mysuru")) []
    (coordinate "12.3") (coordinate "76.6") =
  (inr (no_location 1000), [], [AskedWeather; LookupFailed]).
Proof. reflexivity. Qed.

(** A successful lookup, run: both services are asked and the record is
    kept under the key of the coordinates. *)
Example first_lookup :
  getWeatherTimeCity (fun name => name) 1000
    (Some (weather_answer "21" "3" "Asia/Kolkata"))
    (Some (city_answer "Mysuru")) []
    (coordinate "12.3") (coordinate "76.6") =
  (let r := {| weatherText :=
                 js "Temp: 21" ++ [172%N; 8734%N] ++ js "C, Overcast";
               timezone := JStr (js "Asia/Kolkata");
               city := JStr (js "Mysuru"); lastUpdated := 1000 |} in
   (inr r, [(js "12.3,76.6", r)],
    [AskedWeather; AskedCity; CacheSet (js "12.3,76.6") r])).
Proof. vm_compute. reflexivity. Qed.

End LocationKeys.

(* ----------------------------------------------------------------- *)
(** ** The name in a message (part_000, lines 136-138) *)

Section Names.

Lemma match_literal_sound pattern : forall s rest,
  match_literal pattern s = Some rest ->
  exists lit, s = lit ++ rest /\ equal_ci pattern lit.
Proof.
  induction pattern as [|p pattern IH]; intros s rest H; simpl in H.
  - inversion H; subst. exists []. split; [reflexivity | constructor].
  - destruct s as [|c s]; [discriminate|].
    destruct (matches_ci p c) eqn:E; [|discriminate].
    destruct (IH _ _ H) as (lit & -> & Hl).
    exists (c :: lit). split; [reflexivity | now constructor].
Qed.

Lemma match_literal_complete pattern lit rest :
  equal_ci pattern lit -> match_literal pattern (lit ++ rest) = Some rest.
Proof.
  induction 1 as [|p c pattern lit Hpc _ IH]; simpl; [reflexivity|].
  now rewrite Hpc.
Qed.

Lemma take_word_spec s :
  exists post,
    s = take_word s ++ post /\
    forallb is_word_char (take_word s) = true /\
    (forall c r, post = c :: r -> is_word_char c = false).
Proof.
  induction s as [|c s (post & H1 & H2 & H3)]; simpl.
  - exists []. split; [reflexivity|]. split; [reflexivity|].
    intros c r Hc. discriminate.
  - destruct (is_word_char c) eqn:E.
    + exists post. simpl. rewrite E, H2. rewrite <- H1.
      split; [reflexivity|]. split; [reflexivity | exact H3].
    + exists (c :: s). split; [reflexivity|]. split; [reflexivity|].
      intros c' r Hc. inversion Hc; subst. exact E.
Qed.

Lemma take_word_app name post :
  forallb is_word_char name = true ->
  take_word (name ++ post) = name ++ take_word post.
Proof.
  induction name as [|c name IH]; simpl; [reflexivity|].
  intros H. apply andb_true_iff in H as [Hc Hn]. now rewrite Hc, IH.
Qed.

Lemma match_here_sound s name :
  match_here s = Some name ->
  exists lit post,
    s = lit ++ name ++ post /\
    equal_ci NAME_PATTERN lit /\
    name <> [] /\
    forallb is_word_char name = true /\
    (forall c r, post = c :: r -> is_word_char c = false).
Proof.
  unfold match_here. intros H.
  destruct (match_literal NAME_PATTERN s) as [rest|] eqn:E; [|discriminate].
  destruct (is_empty (take_word rest)) eqn:En; [discriminate|].
  inversion H; subst name.
  destruct (match_literal_sound _ _ _ E) as (lit & -> & Hl).
  destruct (take_word_spec rest) as (post & H1 & H2 & H3).
  exists lit, post. rewrite <- H1.
  repeat split; auto. now apply is_empty_false.
Qed.

(** X15. When the pattern finds a name in a text, the text holds, at the
    leftmost place where the pattern matches, the words "my name is " in
    any case of letters, followed by the name; the name is not empty, is
    made of word characters only and is the longest such run: what follows
    it does not begin with a word character. *)
Theorem name_found_is_in_text (s name : jsstring) :
  nameMatch s = Some name ->
  exists pre lit post,
    s = pre ++ lit ++ name ++ post /\
    equal_ci NAME_PATTERN lit /\
    name <> [] /\
    forallb is_word_char name = true /\
    (forall c r, post = c :: r -> is_word_char c = false) /\
    (forall pre1 pre2, pre = pre1 ++ pre2 -> pre2 <> [] ->
       match_here (pre2 ++ lit ++ name ++ post) = None).
Proof.
  induction s as [|c s IH]; simpl.
  - destruct (match_here []) eqn:E; [|discriminate]. discriminate.
  - destruct (match_here (c :: s)) as [found|] eqn:E.
    + intros H. inversion H; subst found.
      destruct (match_here_sound _ _ E) as (lit & post & H1 & H2 & H3 & H4 & H5).
      exists [], lit, post. repeat split; auto.
      intros pre1 pre2 Hp Hne.
      destruct pre1; destruct pre2; simpl in Hp; try discriminate.
      congruence.
    + intros H.
      destruct (IH H) as (pre & lit & post & H1 & H2 & H3 & H4 & H5 & H6).
      exists (c :: pre), lit, post. subst s. repeat split; auto.
      intros pre1 pre2 Hp Hne.
      destruct pre1 as [|x pre1]; simpl in Hp.
      * subst pre2. exact E.
      * inversion Hp; subst. now apply (H6 pre1 pre2).
Qed.

Lemma name_found_is_in_text_witness :
  nameMatch (js "Hi, My NAME is Venkat_1!") = Some (js "Venkat_1") /\
  exists pre lit post,
    js "Hi, My NAME is Venkat_1!" = pre ++ lit ++ js "Venkat_1" ++ post /\
    equal_ci NAME_PATTERN lit /\
    js "Venkat_1" <> [] /\
    forallb is_word_char (js "Venkat_1") = true /\
    (forall c r, post = c :: r -> is_word_char c = false) /\
    (forall pre1 pre2, pre = pre1 ++ pre2 -> pre2 <> [] ->
       match_here (pre2 ++ lit ++ js "Venkat_1" ++ post) = None).
Proof.
  split; [reflexivity|].
  apply (name_found_is_in_text (js "Hi, My NAME is Venkat_1!")
           (js "Venkat_1")).
  reflexivity.
Defined.

Lemma nameMatch_unfold s :
  nameMatch s =
  match match_here s with
  | Some name => Some name
  | None => match s with [] => None | _ :: r => nameMatch r end
  end.
Proof. destruct s; reflexivity. Qed.

(** X16. Conversely, a text that holds the words "my name is " in any
    case of letters, followed by a word character, always gives a name:
    the pattern misses no occurrence. *)
Theorem name_in_text_is_found (pre lit name post : jsstring) :
  equal_ci NAME_PATTERN lit ->
  name <> [] ->
  forallb is_word_char name = true ->
  match_here (lit ++ name ++ post) = Some (name ++ take_word post) /\
  exists found, nameMatch (pre ++ lit ++ name ++ post) = Some found.
Proof.
  intros Hl Hne Hw.
  assert (Hm : match_here (lit ++ name ++ post) =
               Some (name ++ take_word post)).
  { unfold match_here. rewrite match_literal_complete by assumption.
    rewrite take_word_app by assumption.
    destruct name; [congruence | reflexivity]. }
  split; [exact Hm|].
  induction pre as [|c pre IH].
  - simpl app. rewrite nameMatch_unfold, Hm. eauto.
  - rewrite nameMatch_unfold. simpl app.
    destruct (match_here (c :: pre ++ lit ++ name ++ post)); eauto.
Qed.

Lemma name_in_text_is_found_witness :
  equal_ci NAME_PATTERN (js "MY name IS ") /\
  js "Asha" <> [] /\
  forallb is_word_char (js "Asha") = true /\
  match_here (js "MY name IS " ++ js "Asha" ++ js " and")
    = Some (js "Asha" ++ take_word (js " and")) /\
  exists found,
    nameMatch (js "so " ++ js "MY name IS " ++ js "Asha" ++ js " and")
      = Some found.
Proof.
  assert (H1 : equal_ci NAME_PATTERN (js "MY name IS "))
    by (repeat constructor).
  assert (H2 : js "Asha" <> []) by discriminate.
  split; [exact H1|]. split; [exact H2|]. split; [reflexivity|].
  exact (name_in_text_is_found (js "so ") (js "MY name IS ") (js "Asha")
           (js " and") H1 H2 eq_refl).
Defined.

End Names.

(* ----------------------------------------------------------------- *)
(** ** The reply of the model (part_000, lines 80-96) *)

Section ModelReply.

Lemma settle_resolved events : forall output reply,
  settle output events = Some (inr reply) ->
  reply = (let out := trim (output ++ output_before_close events) in
           if is_empty out then FALLBACK_REPLY else out).
Proof.
  induction events as [|ev events IH]; intros output reply H; simpl in H.
  - discriminate.
  - destruct ev as [data|data| |err]; simpl.
    + apply IH in H. now rewrite <- app_assoc in H.
    + now apply IH in H.
    + rewrite app_nil_r. now inversion H.
    + discriminate.
Qed.

(** X17. When runOllama resolves, its reply is never empty and has no
    white space at either end: it is the output that the child wrote
    before it closed, trimmed, or, when that is empty, the fallback
    sentence.  So the reply always passes the check of the schema that the
    text of a message is required. *)
Theorem model_reply_never_empty (run : ChildRun) (reply : jsstring) :
  runOllama run = Some (inr reply) ->
  reply <> [] /\
  trim reply = reply /\
  exists events,
    run = Spawned events /\
    reply = (let out := trim (output_before_close events) in
             if is_empty out then FALLBACK_REPLY else out).
Proof.
  intros H. destruct run as [err|events]; simpl in H; [discriminate|].
  apply settle_resolved in H. simpl in H.
  assert (Hr : reply <> [] /\ trim reply = reply).
  { rewrite H.
    destruct (is_empty (trim (output_before_close events))) eqn:E.
    - split; [discriminate | vm_compute; reflexivity].
    - split; [now apply is_empty_false | apply trim_idem]. }
  destruct Hr as [Hr1 Hr2]. split; [exact Hr1|]. split; [exact Hr2|].
  exists events. split; [reflexivity | exact H].
Qed.

Lemma model_reply_never_empty_witness :
  runOllama (Spawned [Stdout (js " Namaste"); Stderr (js "loading");
                      Stdout (js "! "); Close; Stdout (js "late")])
    = Some (inr (js "Namaste!")) /\
  js "Namaste!" <> [] /\
  trim (js "Namaste!") = js "Namaste!" /\
  exists events,
    Spawned [Stdout (js " Namaste"); Stderr (js "loading");
             Stdout (js "! "); Close; Stdout (js "late")] = Spawned events /\
    js "Namaste!" = (let out := trim (output_before_close events) in
                     if is_empty out then FALLBACK_REPLY else out).
Proof.
  split; [reflexivity|].
  apply (model_reply_never_empty
           (Spawned [Stdout (js " Namaste"); Stderr (js "loading");
                     Stdout (js "! "); Close; Stdout (js "late")])
           (js "Namaste!")).
  reflexivity.
Defined.

End ModelReply.

(* ----------------------------------------------------------------- *)
(** ** The runs of the handler of POST /message *)

Section WeatherReports.

Variable native_text : jsstring -> jsstring.

Lemma or_else_truthy v d : truthy d = true -> truthy (or_else v d) = true.
Proof.
  intros Hd. destruct v as [x|]; simpl; [|exact Hd].
  destruct (truthy x) eqn:E; [exact E | exact Hd].
Qed.

(** A report has a text and a time zone. *)
Lemma weather_report_filled data current_weather info :
  weather_report native_text data current_weather = inr info ->
  info_text info <> [] /\ truthy (info_timezone info) = true.
Proof.
  unfold weather_report.
  destruct (get_prop current_weather (js "temperature")) as [e|temp];
    [discriminate|].
  destruct (get_prop current_weather (js "weathercode")) as [e|code];
    [discriminate|].
  destruct (get_prop data (js "timezone")) as [e|zone]; [discriminate|].
  destruct (get_prop current_weather (js "time")) as [e|time];
    [discriminate|].
  destruct (climate_of native_text code) as [e|climate]; [discriminate|].
  destruct (interpolate temp) as [e|degrees]; [discriminate|].
  destruct (to_string (or_else time (JStr (js "N/A")))) as [e|t];
    [discriminate|].
  intros H. inversion H; subst; clear H. simpl.
  split; [discriminate|]. now apply or_else_truthy.
Qed.

Lemma getWeatherAndTime_cases data :
  getWeatherAndTime native_text data = no_weather \/
  exists d cw,
    data = Some d /\ truthy d = true /\
    get_prop d (js "current_weather") = inr (Some cw) /\ truthy cw = true /\
    weather_report native_text d cw = inr (getWeatherAndTime native_text data).
Proof.
  unfold getWeatherAndTime.
  destruct data as [d|]; [|now left].
  destruct (truthy d) eqn:Hd; simpl; [|now left].
  destruct (get_prop d (js "current_weather")) as [e|[cw|]] eqn:Hcw;
    [now left| |now left].
  destruct (truthy cw) eqn:Ht; [|now left].
  destruct (weather_report native_text d cw) as [e|info] eqn:Hr; [now left|].
  right. exists d, cw. auto.
Qed.

Lemma getWeatherAndTime_timezone data :
  truthy (info_timezone (getWeatherAndTime native_text data)) = true.
Proof.
  destruct (getWeatherAndTime_cases data) as [->|(d & cw & _ & _ & _ & _ & H)];
    [reflexivity|].
  now apply weather_report_filled in H.
Qed.

(** X22. getWeatherAndTime always gives a record whose time zone is truthy,
    and its text tells whether the lookup succeeded: the text is empty
    exactly when the record is the default one ("UTC", no local time), and
    a record that is not the default was read from an answer of the service
    that is truthy and has a truthy current_weather. *)
Theorem weather_text_tells_success (data : option JSON) :
  let r := getWeatherAndTime native_text data in
  truthy (info_timezone r) = true /\
  (info_text r = [] <-> r = no_weather) /\
  (r <> no_weather ->
   exists d cw,
     data = Some d /\ truthy d = true /\
     get_prop d (js "current_weather") = inr (Some cw) /\ truthy cw = true /\
     weather_report native_text d cw = inr r).
Proof.
  cbv zeta. split; [apply getWeatherAndTime_timezone|].
  destruct (getWeatherAndTime_cases data) as [E|(d & cw & H)].
  - rewrite E. split; [split; reflexivity|]. intros Hne. now elim Hne.
  - split; [|intros _; exists d, cw; exact H].
    destruct H as (_ & _ & _ & _ & H).
    apply weather_report_filled in H. destruct H as [Htext _].
    split; [intros E; contradiction|].
    intros E. rewrite E in Htext. now elim Htext.
Qed.

End WeatherReports.

(** A lookup, run. *)
Example weather_lookup :
  getWeatherAndTime (fun name => name)
    (Some (JObj [(js "current_weather",
                  JObj [(js "temperature", JNum (js "21.5") true);
                        (js "weathercode", JNum (js "63") true);
                        (js "time", JStr (js "2026-11-03T10:00"))]);
                 (js "timezone", JStr (js "Asia/Kolkata"))])) =
  {| info_text :=
       js "Temperature: 21.5" ++ [176%N]
       ++ js "C, Climate: Rain moderate, Local time (API): 2026-11-03T10:00";
     info_timezone := JStr (js "Asia/Kolkata");
     info_localTimeFromApi := Some (JStr (js "2026-11-03T10:00")) |}.
Proof. vm_compute. reflexivity. Qed.

(** An answer without current_weather, and one that does not parse. *)
Example weather_lookup_failed :
  getWeatherAndTime (fun name => name)
    (Some (JObj [(js "error", JBool true)])) = no_weather /\
  getWeatherAndTime (fun name => name) None = no_weather.
Proof. split; reflexivity. Qed.

Section MessageRuns.

Variable env : MessageEnv.
Variable req : MessageRequest.

Ltac run_message :=
  cbv zeta;
  unfold message_steps, message, tryH, message_try, optional_trim,
    blank_text, message_catch,
    message_language, create_doc, remember, ask_model, liftH, bindH, retH,
    step, user_doc, reply_doc, message_lang;
  repeat (cbn -[francToSpeechLang nameMatch has_kannada valid_doc runOllama
                build_prompt memory_context message_context trimmed_text
                is_empty role_or_user message_weather message_timezone];
          match goal with
          | |- context [match ?x with _ => _ end] =>
              match type of x with
              | prod _ _ => fail 1
              | _ => destruct x eqn:?
              end
          end);
  cbn -[francToSpeechLang nameMatch has_kannada valid_doc runOllama
        build_prompt memory_context message_context trimmed_text
        is_empty role_or_user message_weather message_timezone].

(** X18. The handler answers at most once, and the answer is its last
    step: it answers exactly once, with status 200, 400 or 500, unless the
    child process of the model neither closes nor fails, in which case it
    never answers. *)
Theorem message_answered_once :
  let steps := message_steps env req in
  (fst (message env req) = Waiting /\ answers steps = [] /\
   exists prompt, asked steps = [prompt] /\
                  runOllama (run_model env prompt) = None) \/
  (exists status body,
     fst (message env req) = Ended_ tt /\
     answers steps = [(status, body)] /\
     last steps (LoggedFailure []) = Answered status body /\
     (status = 200 \/ status = 400 \/ status = 500)).
Proof.
  run_message.
  all: try (left; split; [reflexivity|]; split; [reflexivity|];
            eexists; split; [reflexivity | eassumption]).
  all: right; eexists _, _; repeat split; auto.
Qed.

(** X19. What each status means.  400 is the answer to a blank text and
    nothing else is done then.  200 comes with the reply of the model, after
    the message of the user and then the reply were stored, both with the
    language code of the message, the model having been asked once; the
    answer carries the speech locale of that code.  500 comes with the body
    "Server error", and then the reply was not stored: at most the message
    of the user was. *)
Theorem message_statuses :
  let steps := message_steps env req in
  (forall body, In (400, body) (answers steps) ->
     blank_text req = true /\
     steps = [Answered 400 (ErrorAnswer (js "Empty text"))]) /\
  (forall body, In (200, body) (answers steps) ->
     blank_text req = false /\
     exists reply prompt,
       answer_reply body = Some reply /\
       answer_language body = Some (francToSpeechLang (message_lang env req)) /\
       stored steps = [user_doc env req; reply_doc env req reply] /\
       asked steps = [prompt] /\
       runOllama (run_model env prompt) = Some (inr reply)) /\
  (forall body, In (500, body) (answers steps) ->
     body = ErrorAnswer (js "Server error") /\
     (stored steps = [] \/ stored steps = [user_doc env req])).
Proof.
  run_message.
  all: split; [|split]; intros body Hin; simpl in Hin;
       repeat (destruct Hin as [Hin|Hin]; [try discriminate Hin|]);
       try contradiction.
  all: try (inversion Hin; subst; clear Hin).
  all: try (split; [reflexivity|]).
  all: try reflexivity.
  all: try (unfold user_doc, message_lang;
            repeat match goal with H : _ = _ |- _ => rewrite H end;
            auto; fail).
  all: eexists _, _; repeat split; try eassumption;
       unfold user_doc, reply_doc, message_lang;
       repeat match goal with H : _ = _ |- _ => rewrite H end;
       reflexivity.
Qed.

(** X20. The memory is written at most once in a run, only with the name
    that the pattern finds in the trimmed text, and, like the call of the
    model, only after the message of the user was stored as the first
    step. *)
Theorem memory_and_model_after_user_message :
  let steps := message_steps env req in
  length (remembered steps) <= 1 /\
  (forall name, In (Remembered name) steps ->
     nameMatch (trimmed_text req) = Some name /\
     hd_error steps = Some (Stored (user_doc env req))) /\
  (forall prompt, In (AskedModel prompt) steps ->
     hd_error steps = Some (Stored (user_doc env req))) /\
  (nameMatch (trimmed_text req) = None -> remembered steps = []).
Proof.
  run_message.
  all: split; [simpl; lia|]; split; [|split].
  all: try (intros name Hin; simpl in Hin;
            repeat (destruct Hin as [Hin|Hin]; [try discriminate Hin|]);
            try contradiction;
            inversion Hin; subst; clear Hin;
            split; [reflexivity|];
            unfold user_doc, message_lang;
            repeat match goal with H : _ = _ |- _ => rewrite H end;
            reflexivity).
  all: try (intros prompt Hin; simpl in Hin;
            repeat (destruct Hin as [Hin|Hin]; [try discriminate Hin|]);
            try contradiction;
            unfold user_doc, message_lang;
            repeat match goal with H : _ = _ |- _ => rewrite H end;
            reflexivity).
  all: try (intros Hnone; first [discriminate Hnone | reflexivity]).
Qed.

(** X21. A text that holds a Kannada character is tagged "kn" whatever
    the detector gives: the documents stored carry "kn" and a 200 answer
    carries the speech locale "kn-IN". *)
Theorem kannada_message :
  has_kannada (trimmed_text req) = true ->
  let steps := message_steps env req in
  message_lang env req = js "kn" /\
  (forall d, In d (stored steps) -> doc_language d = js "kn") /\
  (forall body, In (200, body) (answers steps) ->
     answer_language body = Some (Locale (js "kn-IN"))).
Proof.
  intros Hk.
  assert (Hl : message_lang env req = js "kn")
    by (unfold message_lang; now rewrite Hk).
  split; [exact Hl|].
  revert Hk. run_message.
  all: intros Hk; try discriminate Hk.
  all: split; [intros doc' Hin|intros body Hin]; simpl in Hin;
       repeat (destruct Hin as [Hin|Hin]; [try discriminate Hin|]);
       try contradiction;
       try (subst doc'; reflexivity);
       try (inversion Hin; subst; reflexivity).
Qed.

(** X23. The time zone in which the handler formats the date and the time
    is the one of the weather record, which is always truthy: "UTC" when
    the request gives no location or the lookup fails.  The time zone of
    the system, the second choice of the source, is never used. *)
Theorem system_timezone_never_used :
  message_timezone env req = info_timezone (message_weather env req) /\
  truthy (message_timezone env req) = true /\
  (msg_has_location req = false \/ weather_data env = None ->
   message_timezone env req = JStr (js "UTC")).
Proof.
  assert (Ht : truthy (info_timezone (message_weather env req)) = true).
  { unfold message_weather. destruct (msg_has_location req);
      [apply getWeatherAndTime_timezone | reflexivity]. }
  assert (He : message_timezone env req
               = info_timezone (message_weather env req)).
  { unfold message_timezone. cbv zeta. now rewrite Ht. }
  split; [exact He|]. split; [now rewrite He|].
  rewrite He. unfold message_weather.
  intros [-> | ->]; [reflexivity|].
  destruct (msg_has_location req); reflexivity.
Qed.

End MessageRuns.

Lemma kannada_message_witness :
  let req := {| msg_text := TextString (js "hi " ++ [3221%N; 3240%N]);
                msg_role := None; msg_has_location := false |} in
  has_kannada (trimmed_text req) = true /\
  let steps := message_steps (calm "ok") req in
  message_lang (calm "ok") req = js "kn" /\
  (forall d, In d (stored steps) -> doc_language d = js "kn") /\
  (forall body, In (200, body) (answers steps) ->
     answer_language body = Some (Locale (js "kn-IN"))).
Proof.
  split; [reflexivity|].
  apply (kannada_message (calm "ok")
           {| msg_text := TextString (js "hi " ++ [3221%N; 3240%N]);
              msg_role := None; msg_has_location := false |}).
  reflexivity.
Defined.

(** A run of the handler: the name is remembered between the two
    writes, and the reply is the output of the model, trimmed. *)
Example message_run :
  message_steps (calm " Hello Asha ") (says " My name is Asha. ") =
  [Stored {| doc_text := js "My name is Asha."; doc_role := js "user";
             doc_language := js "eng" |};
   Remembered (js "Asha");
   AskedModel
     (js "  | User: My name is Asha. | Assistant (reply in same language) | Current weekday: Tue, Current date: 03 Nov 2026, Current time: 10:00:00 AM");
   Stored {| doc_text := js "Hello Asha"; doc_role := js "assistant";
             doc_language := js "eng" |};
   Answered 200
     (ReplyAnswer (js "Hello Asha") (js "Tue") (js "03 Nov 2026")
        (js "10:00:00 AM") [] (Locale (js "en-US")))].
Proof. vm_compute. reflexivity. Qed.

(** A text that is not a string: the call of its [trim] throws, nothing
    is stored and the answer is 500. *)
Example message_with_number_text :
  message_steps (calm "Hello")
    {| msg_text := OtherText; msg_role := None; msg_has_location := false |} =
  [LoggedFailure (js "text?.trim is not a function");
   Answered 500 (ErrorAnswer (js "Server error"))].
Proof. vm_compute. reflexivity. Qed.

(** A role outside the schema: the write of the message is rejected and
    the answer is 500. *)
Example message_with_unknown_role :
  message_steps (calm "Hello")
    {| msg_text := TextString (js "hi"); msg_role := Some (js "admin");
       msg_has_location := false |} =
  [StoreRejected {| doc_text := js "hi"; doc_role := js "admin";
                    doc_language := js "eng" |};
   LoggedFailure (js "Message validation failed");
   Answered 500 (ErrorAnswer (js "Server error"))].
Proof. vm_compute. reflexivity. Qed.
